(** * MeshProcessing: discrete operators, curvature estimators and fairing

    A shallow embedding of [implicit_fairing/mesh_processing.cpp].

    The C++ code computes with [float] (surface_mesh's [Scalar], the
    coordinates of a [Point]) and with [double] (the Eigen matrices, the
    solver).  Both arithmetics are kept apart and abstract in the class
    [Numerics]; the conversions between them are explicit ([widen],
    [narrow]).  Two instances are given after the embedding of the code:
    IEEE-754 binary32/binary64 with round-to-nearest-even ([ieee], on the
    Standard Library's [SpecFloat]) and the real numbers ([reals]), an
    idealisation without rounding. *)

From Stdlib Require Import ZArith QArith Qreals Reals Lra Floats.SpecFloat.
From stdpp Require Import gmap strings list.

(** ** Arithmetic *)

Class Numerics := {
  Scalar : Type;                         (* float *)
  Double : Type;                         (* double *)
  s_const : Q -> Scalar;                 (* a literal with suffix f *)
  s_of_nat : nat -> Scalar;              (* conversion of an unsigned int *)
  s_add : Scalar -> Scalar -> Scalar;
  s_sub : Scalar -> Scalar -> Scalar;
  s_mul : Scalar -> Scalar -> Scalar;
  s_div : Scalar -> Scalar -> Scalar;
  s_sqrt : Scalar -> Scalar;
  s_ltb : Scalar -> Scalar -> bool;      (* operator< *)
  s_eqb : Scalar -> Scalar -> bool;      (* operator== *)
  d_const : Q -> Double;                 (* a literal without suffix *)
  d_opp : Double -> Double;              (* unary minus *)
  d_add : Double -> Double -> Double;
  d_sub : Double -> Double -> Double;
  d_mul : Double -> Double -> Double;
  d_div : Double -> Double -> Double;
  widen : Scalar -> Double;              (* float -> double, implicit *)
  narrow : Double -> Scalar;             (* double -> float, on assignment *)
}.

(** [acos] of <cmath>, taken at its single-precision overload. *)
Class Libm (N : Numerics) := { s_acos : Scalar -> Scalar }.

(** The macro M_PI of <cmath>. *)
Definition M_PI : Q := 314159265358979323846 # 100000000000000000000.

Section Vectors.
Context {N : Numerics}.

(** Modelled from the spec: surface_mesh's [Vector<Scalar,3>] (header not
    part of the sources): componentwise sum, difference and scaling, dot
    and cross product, Euclidean norm, and [normalize], which divides by
    the norm (the spec's 4.2: a zero-length edge "yields an undefined
    normalized direction"). *)
Record Point := mkPoint { px : Scalar; py : Scalar; pz : Scalar }.

Definition vadd (a b : Point) : Point :=
  mkPoint (s_add (px a) (px b)) (s_add (py a) (py b)) (s_add (pz a) (pz b)).
Definition vsub (a b : Point) : Point :=
  mkPoint (s_sub (px a) (px b)) (s_sub (py a) (py b)) (s_sub (pz a) (pz b)).
Definition vscale (a : Point) (s : Scalar) : Point :=
  mkPoint (s_mul (px a) s) (s_mul (py a) s) (s_mul (pz a) s).
Definition vdiv (a : Point) (s : Scalar) : Point :=
  mkPoint (s_div (px a) s) (s_div (py a) s) (s_div (pz a) s).
Definition dot (a b : Point) : Scalar :=
  s_add (s_add (s_mul (px a) (px b)) (s_mul (py a) (py b)))
        (s_mul (pz a) (pz b)).
Definition cross (a b : Point) : Point :=
  mkPoint (s_sub (s_mul (py a) (pz b)) (s_mul (pz a) (py b)))
          (s_sub (s_mul (pz a) (px b)) (s_mul (px a) (pz b)))
          (s_sub (s_mul (px a) (py b)) (s_mul (py a) (px b))).
Definition norm (a : Point) : Scalar := s_sqrt (dot a a).
Definition normalize (a : Point) : Point := vdiv a (norm a).

(** [s * a], the scalar on the left: surface_mesh scales a copy of [a]. *)
Definition scale_l (s : Scalar) (a : Point) : Point := vscale a s.

(** [Point(s)]: the three coordinates set to [s]. *)
Definition Point1 (s : Scalar) : Point := mkPoint s s s.

(** [std::min] and [std::max], as <algorithm> defines them. *)
Definition std_min (a b : Scalar) : Scalar := if s_ltb b a then b else a.
Definition std_max (a b : Scalar) : Scalar := if s_ltb a b then b else a.
End Vectors.

Arguments Point : clear implicits.
Arguments Point {N}.

(** ** The mesh *)

(** Modelled from the spec: the half-edge connectivity of
    surface_mesh's [Surface_mesh] (not part of the sources), through the
    traversal primitives the code calls.  Handles are indices.  A circulator
    around a vertex is the finite sequence it visits before it is back at
    its start; [halfedges v] are the outgoing halfedges of [v], and the
    vertex circulator [vertices(v)] visits their targets in the same order. *)
Record Topology := {
  n_vertices : nat;
  n_edges : nat;
  halfedges : nat -> list nat;          (* mesh_.halfedges(v) *)
  to_vertex : nat -> nat;
  edge : nat -> nat;                    (* mesh_.edge(h) *)
  halfedge : nat -> nat -> nat;         (* mesh_.halfedge(e, i) *)
  next_halfedge : nat -> nat;
  is_boundary_h : nat -> bool;          (* mesh_.is_boundary(h) *)
  is_boundary : nat -> bool;            (* mesh_.is_boundary(v) *)
  faces : nat -> list nat;              (* mesh_.faces(v) *)
  face_vertices : nat -> list nat;      (* mesh_.vertices(f) *)
}.

Definition vertices (t : Topology) (v : nat) : list nat :=
  to_vertex t <$> halfedges t v.

(** The element a circulator over [l] points to after [i] increments. *)
Definition circ (l : list nat) (i : nat) : nat :=
  default 0 (l !! (i mod length l)).

Section Mesh.
Context {N : Numerics}.

(** Connectivity, positions ("v:point") and the attributes kept by name. *)
Record Surface_mesh := {
  topo : Topology;
  vpoint : list Point;
  vscalar : gmap string (list Scalar);
  escalar : gmap string (list Scalar);
  vvector : gmap string (list Point);
}.

Definition set_vpoint (p : list Point) (m : Surface_mesh) : Surface_mesh :=
  {| topo := topo m; vpoint := p; vscalar := vscalar m;
     escalar := escalar m; vvector := vvector m |}.
Definition set_vscalar (s : gmap string (list Scalar)) (m : Surface_mesh)
  : Surface_mesh :=
  {| topo := topo m; vpoint := vpoint m; vscalar := s;
     escalar := escalar m; vvector := vvector m |}.
Definition set_escalar (s : gmap string (list Scalar)) (m : Surface_mesh)
  : Surface_mesh :=
  {| topo := topo m; vpoint := vpoint m; vscalar := vscalar m;
     escalar := s; vvector := vvector m |}.
Definition set_vvector (s : gmap string (list Point)) (m : Surface_mesh)
  : Surface_mesh :=
  {| topo := topo m; vpoint := vpoint m; vscalar := vscalar m;
     escalar := escalar m; vvector := s |}.

Definition origin : Point := Point1 (s_const 0).

(** [mesh_.position(v)], for reading and for writing. *)
Definition position (m : Surface_mesh) (v : nat) : Point :=
  default origin (vpoint m !! v).
Definition set_position (v : nat) (p : Point) (m : Surface_mesh) :=
  set_vpoint (<[v := p]> (vpoint m)) m.

(** [mesh_.vertex_property<Scalar>(name, t)]: the attribute of that name,
    added with every entry [t] when the mesh has none. *)
Definition vertex_property (name : string) (t : Scalar) (m : Surface_mesh)
  : Surface_mesh :=
  match vscalar m !! name with
  | Some _ => m
  | None =>
      set_vscalar (<[name := replicate (n_vertices (topo m)) t]> (vscalar m)) m
  end.
Definition edge_property (name : string) (t : Scalar) (m : Surface_mesh)
  : Surface_mesh :=
  match escalar m !! name with
  | Some _ => m
  | None =>
      set_escalar (<[name := replicate (n_edges (topo m)) t]> (escalar m)) m
  end.
Definition vertex_property_point (name : string) (t : Point)
  (m : Surface_mesh) : Surface_mesh :=
  match vvector m !! name with
  | Some _ => m
  | None =>
      set_vvector (<[name := replicate (n_vertices (topo m)) t]> (vvector m)) m
  end.

(** [prop[v]] through the handle of a named attribute. *)
Definition vget (name : string) (v : nat) (m : Surface_mesh) : Scalar :=
  default (s_const 0) (vscalar m !! name ≫= (.!! v)).
Definition vset (name : string) (v : nat) (x : Scalar) (m : Surface_mesh) :=
  set_vscalar (alter (<[v := x]>) name (vscalar m)) m.
Definition eget (name : string) (e : nat) (m : Surface_mesh) : Scalar :=
  default (s_const 0) (escalar m !! name ≫= (.!! e)).
Definition eset (name : string) (e : nat) (x : Scalar) (m : Surface_mesh) :=
  set_escalar (alter (<[e := x]>) name (escalar m)) m.
Definition pget (name : string) (v : nat) (m : Surface_mesh) : Point :=
  default origin (vvector m !! name ≫= (.!! v)).
Definition pset (name : string) (v : nat) (x : Point) (m : Surface_mesh) :=
  set_vvector (alter (<[v := x]>) name (vvector m)) m.

Definition remove_vertex_property (name : string) (m : Surface_mesh) :=
  set_vscalar (delete name (vscalar m)) m.
Definition remove_edge_property (name : string) (m : Surface_mesh) :=
  set_escalar (delete name (escalar m)) m.

(** [for (i = 0; i < n; ++i) body], on a state. *)
Definition for_range {S : Type} (n : nat) (body : nat -> S -> S) (s : S) : S :=
  fold_left (fun s i => body i s) (seq 0 n) s.

(** [for (auto x : l) body], and [do { body } while (++c != end)] for a
    circulator [c] that visits [l].  The source enters its do-while loops
    on vertices that have a halfedge only (behind [!is_boundary(v)], or
    behind [if (!vf_c) continue]), where [l] is not empty. *)
Definition for_each {S A : Type} (l : list A) (body : A -> S -> S) (s : S) : S :=
  fold_left (fun s x => body x s) l s.
End Mesh.

Arguments Surface_mesh : clear implicits.
Arguments Surface_mesh {N}.

(** ** Weights (calc_weights) *)

Section Weights.
Context {N : Numerics}.

(** [dot(d0,d1) / norm(cross(d0,d1))] with [d0 = p0 - p2], [d1 = p1 - p2]. *)
Definition cotan_term (p0 p1 p2 : Point) : Scalar :=
  let d0 := vsub p0 p2 in
  let d1 := vsub p1 p2 in
  s_div (dot d0 d1) (norm (cross d0 d1)).

(** One side of an edge: nothing for a boundary halfedge, else
    [e_weight[e] += ...] with the vertex opposite to the edge. *)
Definition add_cotan (e h : nat) (p0 p1 : Point) (m : Surface_mesh)
  : Surface_mesh :=
  if negb (is_boundary_h (topo m) h) then
    let h2 := next_halfedge (topo m) h in
    let p2 := position m (to_vertex (topo m) h2) in
    eset "e:weight" e (s_add (eget "e:weight" e m) (cotan_term p0 p1 p2)) m
  else m.

Definition calc_edges_weights_body (e : nat) (m : Surface_mesh)
  : Surface_mesh :=
  let m := eset "e:weight" e (narrow (d_const 0)) m in
  let h0 := halfedge (topo m) e 0 in
  let p0 := position m (to_vertex (topo m) h0) in
  let h1 := halfedge (topo m) e 1 in
  let p1 := position m (to_vertex (topo m) h1) in
  let m := add_cotan e h0 p0 p1 m in
  add_cotan e h1 p0 p1 m.

Definition calc_edges_weights (m : Surface_mesh) : Surface_mesh :=
  let m := edge_property "e:weight" (s_const 0) m in
  for_range (n_edges (topo m)) calc_edges_weights_body m.

(** [norm(cross(Q-P, R-P)) * 0.5f * 0.3333f] for the first three vertices
    of face [f]. *)
Definition face_share (m : Surface_mesh) (f : nat) : Scalar :=
  let fv := face_vertices (topo m) f in
  let P := position m (circ fv 0) in
  let Q := position m (circ fv 1) in
  let R := position m (circ fv 2) in
  s_mul (s_mul (norm (cross (vsub Q P) (vsub R P))) (s_const (1 # 2)))
        (s_const (3333 # 10000)).

Definition calc_vertices_weights_body (v : nat) (m : Surface_mesh)
  : Surface_mesh :=
  let area := narrow (d_const 0) in
  match faces (topo m) v with
  | [] => m                                             (* continue *)
  | vf =>
      let area := for_each vf (fun f a => s_add a (face_share m f)) area in
      vset "v:weight" v (narrow (d_div (d_const (1 # 2)) (widen area))) m
  end.

Definition calc_vertices_weights (m : Surface_mesh) : Surface_mesh :=
  let m := vertex_property "v:weight" (s_const 0) m in
  for_range (n_vertices (topo m)) calc_vertices_weights_body m.

Definition calc_weights (m : Surface_mesh) : Surface_mesh :=
  calc_vertices_weights (calc_edges_weights m).
End Weights.

(** ** Curvature estimators *)

Section Curvature.
Context {N : Numerics} {L : Libm N}.

(** The loop of calc_uniform_mean_curvature around [v]: the sum of the
    differences to the neighbours and their number, counted in [double]. *)
Definition uniform_ring (m : Surface_mesh) (v : nat) : Point * Double :=
  for_each (vertices (topo m) v)
    (fun vv '(laplace, n) =>
       (vadd laplace (vsub (position m vv) (position m v)),
        d_add n (d_const 1)))
    (Point1 (s_const 0), d_const 0).

Definition calc_uniform_mean_curvature_body (v : nat) (m : Surface_mesh)
  : Surface_mesh :=
  let curv :=
    if negb (is_boundary (topo m) v) then
      let '(laplace, n) := uniform_ring m v in
      let laplace := vdiv laplace (narrow n) in
      s_mul (s_const (1 # 2)) (norm laplace)
    else s_of_nat 0 in
  vset "v:unicurvature" v curv m.

Definition calc_uniform_mean_curvature (m : Surface_mesh) : Surface_mesh :=
  let m := vertex_property "v:unicurvature" (s_const 0) m in
  for_range (n_vertices (topo m)) calc_uniform_mean_curvature_body m.

Definition cotan_ring (m : Surface_mesh) (v : nat) : Point :=
  for_each (halfedges (topo m) v)
    (fun h laplace =>
       let e := edge (topo m) h in
       let neighbor_v := to_vertex (topo m) h in
       vadd laplace
         (scale_l (eget "e:weight" e m)
            (vsub (position m neighbor_v) (position m v))))
    (mkPoint (s_const 0) (s_const 0) (s_const 0)).

Definition calc_mean_curvature_body (v : nat) (m : Surface_mesh)
  : Surface_mesh :=
  let curv :=
    if negb (is_boundary (topo m) v) then
      let laplace := cotan_ring m v in
      let laplace := vscale laplace (vget "v:weight" v m) in
      s_mul (s_const (1 # 2)) (norm laplace)
    else s_const 0 in
  vset "v:curvature" v curv m.

Definition calc_mean_curvature (m : Surface_mesh) : Surface_mesh :=
  let m := vertex_property "v:curvature" (s_const 0) m in
  let m := edge_property "e:weight" (s_const 0) m in
  let m := vertex_property "v:weight" (s_const 0) m in
  for_range (n_vertices (topo m)) calc_mean_curvature_body m.

(** The angle at [v] between the edges to the [i]-th neighbour and to the
    one the circulator reaches next. *)
Definition ring_angle (m : Surface_mesh) (v : nat) (i : nat) : Scalar :=
  let vv := vertices (topo m) v in
  let lb := s_const (-1) in
  let ub := s_const 1 in
  let d0 := normalize (vsub (position m (circ vv i)) (position m v)) in
  let d1 := normalize (vsub (position m (circ vv (i + 1))) (position m v)) in
  let cos_angle := std_max lb (std_min ub (dot d0 d1)) in
  s_acos cos_angle.

Definition angle_sum (m : Surface_mesh) (v : nat) : Scalar :=
  for_range (length (vertices (topo m) v))
    (fun i angles => s_add angles (ring_angle m v i))
    (s_const 0).

Definition calc_gauss_curvature_body (v : nat) (m : Surface_mesh)
  : Surface_mesh :=
  let curv :=
    if negb (is_boundary (topo m) v) then
      let angles := angle_sum m v in
      s_mul (s_mul (s_sub (s_mul (s_of_nat 2) (narrow (d_const M_PI))) angles)
                   (s_const 2))
            (vget "v:weight" v m)
    else s_const 0 in
  vset "v:gauss_curvature" v curv m.

Definition calc_gauss_curvature (m : Surface_mesh) : Surface_mesh :=
  let m := vertex_property "v:gauss_curvature" (s_const 0) m in
  let m := vertex_property "v:weight" (s_const 0) m in
  for_range (n_vertices (topo m)) calc_gauss_curvature_body m.
End Curvature.

(** ** Explicit smoothing and feature enhancement *)

Section Smoothing.
Context {N : Numerics}.

(** The displacement uniform_smooth gives to [v]. *)
Definition uniform_laplacian (m : Surface_mesh) (v : nat) : Point :=
  if negb (is_boundary (topo m) v) then
    let '(laplacian, w) :=
      for_each (vertices (topo m) v)
        (fun vv '(laplacian, w) =>
           (vadd laplacian (vsub (position m vv) (position m v)), S w))
        (Point1 (narrow (d_const 0)), 0) in
    let laplacian := vdiv laplacian (s_of_nat w) in
    vscale laplacian (narrow (d_const (1 # 2)))
  else Point1 (narrow (d_const 0)).

Definition uniform_smooth_stage (v : nat) (m : Surface_mesh) : Surface_mesh :=
  pset "v:new_positions" v (vadd (position m v) (uniform_laplacian m v)) m.

Definition uniform_smooth_commit (v : nat) (m : Surface_mesh) : Surface_mesh :=
  set_position v (pget "v:new_positions" v m) m.

Definition uniform_smooth_iter (m : Surface_mesh) : Surface_mesh :=
  let m := for_range (n_vertices (topo m)) uniform_smooth_stage m in
  for_range (n_vertices (topo m)) uniform_smooth_commit m.

(** The staging attribute is added without a default value; [origin]
    stands for its unset entries, which are all written before they are
    read. *)
Definition uniform_smooth (iterations : nat) (m : Surface_mesh)
  : Surface_mesh :=
  let m := vertex_property_point "v:new_positions" origin m in
  Nat.iter iterations uniform_smooth_iter m.

(** The displacement smooth gives to [v]. *)
Definition cotan_laplacian (m : Surface_mesh) (v : nat) : Point :=
  if negb (is_boundary (topo m) v) then
    let '(laplace, ww) :=
      for_each (halfedges (topo m) v)
        (fun h '(laplace, ww) =>
           let e := edge (topo m) h in
           let w := eget "e:weight" e m in
           let neighbor_v := to_vertex (topo m) h in
           (vadd laplace
              (scale_l w (vsub (position m neighbor_v) (position m v))),
            s_add ww w))
        (Point1 (narrow (d_const 0)), s_of_nat 0) in
    let laplace := vdiv laplace ww in
    vscale laplace (narrow (d_const (1 # 2)))
  else Point1 (narrow (d_const 0)).

Definition smooth_stage (v : nat) (m : Surface_mesh) : Surface_mesh :=
  pset "v:new_pos" v (vadd (position m v) (cotan_laplacian m v)) m.

Definition smooth_commit (v : nat) (m : Surface_mesh) : Surface_mesh :=
  set_position v (pget "v:new_pos" v m) m.

Definition smooth_iter (m : Surface_mesh) : Surface_mesh :=
  let m := calc_edges_weights m in
  let m := for_range (n_vertices (topo m)) smooth_stage m in
  for_range (n_vertices (topo m)) smooth_commit m.

Definition smooth (iterations : nat) (m : Surface_mesh) : Surface_mesh :=
  let m := vertex_property_point "v:new_pos" origin m in
  let m := edge_property "e:weight" (s_const 0) m in
  Nat.iter iterations smooth_iter m.

Definition save_old_pos (v : nat) (m : Surface_mesh) : Surface_mesh :=
  pset "v:old_pos" v (position m v) m.

(** [position(v) += (v_old_pos[v] - position(v)) * coefficient]. *)
Definition enhance (coefficient : nat) (v : nat) (m : Surface_mesh)
  : Surface_mesh :=
  set_position v
    (vadd (position m v)
       (vscale (vsub (pget "v:old_pos" v m) (position m v))
          (s_of_nat coefficient)))
    m.

Definition uniform_laplacian_enhance_feature (iterations coefficient : nat)
  (m : Surface_mesh) : Surface_mesh :=
  let m := vertex_property_point "v:old_pos" origin m in
  let m := for_range (n_vertices (topo m)) save_old_pos m in
  let m := uniform_smooth iterations m in
  for_range (n_vertices (topo m)) (enhance coefficient) m.

Definition laplace_beltrami_enhance_feature (iterations coefficient : nat)
  (m : Surface_mesh) : Surface_mesh :=
  let m := vertex_property_point "v:old_pos" origin m in
  let m := for_range (n_vertices (topo m)) save_old_pos m in
  let m := smooth iterations m in
  for_range (n_vertices (topo m)) (enhance coefficient) m.
End Smoothing.

(** ** The two linear systems *)

Inductive ComputationInfo :=
  Success | NumericalIssue | NoConvergence | InvalidInput.

Section Systems.
Context {N : Numerics}.

(** [Eigen::Triplet<double>(row, col, value)]. *)
Record Triplet := mkTriplet { row : nat; col : nat; value : Double }.

(** A row of an n x 3 [Eigen::MatrixXd]. *)
Definition Row3 : Type := Double * Double * Double.

(** The entry (i, j) of the matrix [setFromTriplets] builds: the values
    given for (i, j) are summed, and an entry no triplet names is absent
    from the sparse matrix. *)
Definition coeff (ts : list Triplet) (i j : nat) : option Double :=
  match value <$> filter (fun t => row t = i /\ col t = j) ts with
  | [] => None
  | x :: xs => Some (fold_left d_add xs x)
  end.

(** Eigen's sparse solvers (not part of the sources): from the triplets of
    an n x n matrix and a right-hand side, what [info()] reports after the
    factorization and after [solve], and the matrix [solve] returns. *)
Record Solved := {
  info_compute : ComputationInfo;
  info_solve : ComputationInfo;
  solution : list Row3;
}.
Class Solvers := {
  SimplicialLDLT : nat -> list Triplet -> list Row3 -> Solved;
  SparseLU : nat -> list Triplet -> list Row3 -> Solved;
}.
Context {E : Solvers}.

(** The sum of a list of doubles, from 0 and from the left. *)
Definition sum_d (l : list Double) : Double := fold_left d_add l (d_const 0).

Definition zero3 : Row3 := (d_const 0, d_const 0, d_const 0).
Definition X_row (X : list Row3) (i : nat) : Row3 := default zero3 (X !! i).

(** *** implicit_smoothing *)

Definition implicit_rhs_row (m : Surface_mesh) (i : nat) : Row3 :=
  let vweight := widen (vget "v:weight" i m) in
  (d_div (widen (px (position m i))) vweight,
   d_div (widen (py (position m i))) vweight,
   d_div (widen (pz (position m i))) vweight).

(** The sum [ww] of the weights around [i] and the triplets pushed on the
    way, in the order of the halfedges. *)
Definition implicit_ring (timestep : Double) (m : Surface_mesh) (i : nat)
  : Double * list Triplet :=
  for_each (halfedges (topo m) i)
    (fun hv '(ww, ts) =>
       let vv := to_vertex (topo m) hv in
       let e := edge (topo m) hv in
       let eweight := widen (eget "e:weight" e m) in
       (d_add ww eweight,
        ts ++ [mkTriplet i vv (d_mul (d_opp timestep) eweight)]))
    (d_const 0, []).

Definition implicit_lhs_row (timestep : Double) (m : Surface_mesh) (i : nat)
  : list Triplet :=
  let vweight := widen (vget "v:weight" i m) in
  let '(ww, ts) := implicit_ring timestep m i in
  ts ++ [mkTriplet i i
           (d_add (d_div (d_const 1) vweight) (d_mul timestep ww))].

Definition implicit_setup (timestep : Double) (m : Surface_mesh)
  : list Row3 * list Triplet :=
  for_range (n_vertices (topo m))
    (fun i '(B, triplets) =>
       (<[i := implicit_rhs_row m i]> B,
        triplets ++ implicit_lhs_row timestep m i))
    (replicate (n_vertices (topo m)) zero3, []).

(** [points[v][dim] = X(i, dim)], for the three dimensions. *)
Definition to_point (r : Row3) : Point :=
  mkPoint (narrow r.1.1) (narrow r.1.2) (narrow r.2).

Definition copy_solution (X : list Row3) (i : nat) (m : Surface_mesh)
  : Surface_mesh :=
  set_position i (to_point (X_row X i)) m.

Definition implicit_smoothing (timestep : Double) (m : Surface_mesh)
  : Surface_mesh :=
  let n := n_vertices (topo m) in
  let m := calc_weights m in
  let m := edge_property "e:weight" (s_const 0) m in
  let m := vertex_property "v:weight" (s_const 0) m in
  let '(B, triplets) := implicit_setup timestep m in
  let X := solution (SimplicialLDLT n triplets B) in
  let m := for_range n (copy_solution X) m in
  let m := remove_vertex_property "v:weight" m in
  remove_edge_property "e:weight" m.

(** *** minimal_surface *)

(** The object: the mesh and its copy made by load_mesh. *)
Record MeshProcessing := {
  mesh_ : Surface_mesh;
  mesh_init_ : Surface_mesh;
}.

(** What minimal_surface prints. *)
Inductive Output :=
| Sum_of_area (area_sum : Double)
| Printf (s : string).

Definition minimal_ring (m : Surface_mesh) (i : nat) : Double * list Triplet :=
  for_each (halfedges (topo m) i)
    (fun hv '(ww, ts) =>
       let vv := to_vertex (topo m) hv in
       let e := edge (topo m) hv in
       let eweight := widen (eget "e:weight" e m) in
       (d_add ww eweight, ts ++ [mkTriplet i vv (d_opp eweight)]))
    (d_const 0, []).

Definition minimal_rhs_row (m m_init : Surface_mesh) (i : nat) : Row3 :=
  if is_boundary (topo m) i then
    (widen (px (position m_init i)),
     widen (py (position m_init i)),
     widen (pz (position m_init i)))
  else (d_const 0, d_const 0, d_const 0).

Definition minimal_lhs_row (m : Surface_mesh) (i : nat) : list Triplet :=
  if is_boundary (topo m) i then [mkTriplet i i (d_const 1)]
  else
    let '(ww, ts) := minimal_ring m i in
    ts ++ [mkTriplet i i ww].

Definition minimal_setup (m m_init : Surface_mesh)
  : Double * list Row3 * list Triplet :=
  for_range (n_vertices (topo m))
    (fun i '(area_sum, rhs, triplets_L) =>
       (d_add area_sum (d_div (d_const 1) (widen (vget "v:weight" i m))),
        <[i := minimal_rhs_row m m_init i]> rhs,
        triplets_L ++ minimal_lhs_row m i))
    (d_const 0, replicate (n_vertices (topo m)) zero3, []).

(** [points[v][dim] += 1. * (X(i, dim) - points[v][dim])]. *)
Definition blend (x : Double) (p : Scalar) : Scalar :=
  narrow (d_add (widen p) (d_mul (d_const 1) (d_sub x (widen p)))).

Definition blend_point (r : Row3) (p : Point) : Point :=
  mkPoint (blend r.1.1 (px p)) (blend r.1.2 (py p)) (blend r.2 (pz p)).

Definition blend_solution (X : list Row3) (i : nat) (m : Surface_mesh)
  : Surface_mesh :=
  set_position i (blend_point (X_row X i) (position m i)) m.

Definition minimal_surface (mp : MeshProcessing)
  : MeshProcessing * list Output :=
  let m := mesh_ mp in
  let n := n_vertices (topo m) in
  let m := calc_weights m in
  let m := edge_property "e:weight" (s_const 0) m in
  let m := vertex_property "v:weight" (s_const 0) m in
  let '(area_sum, rhs, triplets_L) := minimal_setup m (mesh_init_ mp) in
  let out := [Sum_of_area area_sum] in
  let solver := SparseLU n triplets_L rhs in
  let out :=
    match info_compute solver with
    | Success => out
    | _ => out ++ [Printf "linear solver init failed."]
    end in
  let X := solution solver in
  let out :=
    match info_solve solver with
    | Success => out
    | _ => out ++ [Printf "linear solver failed."]
    end in
  let m := for_range n (blend_solution X) m in
  let m := remove_vertex_property "v:weight" m in
  let m := remove_edge_property "e:weight" m in
  ({| mesh_ := m; mesh_init_ := mesh_init_ mp |}, out).
End Systems.

(** ** IEEE-754 arithmetic *)

Module IEEE.
(** The float nearest to the rational [q] (ties to even): the quotient of
    the two integers, rounded once. *)
Definition of_Q (prec emax : Z) (q : Q) : spec_float :=
  match Qnum q with
  | Z0 => S754_zero false
  | Zpos a =>
      SFdiv prec emax (S754_finite false a 0) (S754_finite false (Qden q) 0)
  | Zneg a =>
      SFdiv prec emax (S754_finite true a 0) (S754_finite false (Qden q) 0)
  end.

(** Conversion to another format: the value rounded to it, in its
    canonical representation. *)
Definition round (prec emax : Z) (x : spec_float) : spec_float :=
  match x with
  | S754_finite s m e => binary_round prec emax s m e
  | _ => x
  end.

Definition of_nat (prec emax : Z) (n : nat) : spec_float :=
  binary_normalize prec emax (Z.of_nat n) 0 false.

Definition is_nan (x : spec_float) : bool :=
  match x with S754_nan => true | _ => false end.
Definition is_finite (x : spec_float) : bool :=
  match x with S754_zero _ | S754_finite _ _ _ => true | _ => false end.
End IEEE.

Definition ieee : Numerics := {|
  Scalar := spec_float;
  Double := spec_float;
  s_const := IEEE.of_Q 24 128;
  s_of_nat := IEEE.of_nat 24 128;
  s_add := SFadd 24 128;
  s_sub := SFsub 24 128;
  s_mul := SFmul 24 128;
  s_div := SFdiv 24 128;
  s_sqrt := SFsqrt 24 128;
  s_ltb := SFltb;
  s_eqb := SFeqb;
  d_const := IEEE.of_Q 53 1024;
  d_opp := SFopp;
  d_add := SFadd 53 1024;
  d_sub := SFsub 53 1024;
  d_mul := SFmul 53 1024;
  d_div := SFdiv 53 1024;
  widen := IEEE.round 53 1024;
  narrow := IEEE.round 24 128;
|}.

(** ** Real arithmetic *)

Definition Rltb (a b : R) : bool := if Rlt_dec a b then true else false.
Definition Reqb (a b : R) : bool := if Req_dec_T a b then true else false.

Definition reals : Numerics := {|
  Scalar := R;
  Double := R;
  s_const := Q2R;
  s_of_nat := INR;
  s_add := Rplus;
  s_sub := Rminus;
  s_mul := Rmult;
  s_div := Rdiv;
  s_sqrt := sqrt;
  s_ltb := Rltb;
  s_eqb := Reqb;
  d_const := Q2R;
  d_opp := Ropp;
  d_add := Rplus;
  d_sub := Rminus;
  d_mul := Rmult;
  d_div := Rdiv;
  widen := fun x => x;
  narrow := fun x => x;
|}.

Definition reals_libm : Libm reals := Build_Libm reals acos.

(** ** Three small meshes *)

(** One triangle (0, 1, 2): three boundary vertices, halfedges 2e (inner)
    and 2e+1 (boundary) for the edges 0-1, 1-2, 2-0. *)
Definition triangle : Topology := {|
  n_vertices := 3;
  n_edges := 3;
  halfedges := fun v => nth v [[0; 5]; [2; 1]; [4; 3]] [];
  to_vertex := fun h => nth h [1; 0; 2; 1; 0; 2] 0;
  edge := fun h => h / 2;
  halfedge := fun e i => 2 * e + i;
  next_halfedge := fun h => nth h [2; 5; 4; 1; 0; 3] 0;
  is_boundary_h := fun h => Nat.odd h;
  is_boundary := fun v => true;
  faces := fun v => nth v [[0]; [0]; [0]] [];
  face_vertices := fun f => nth f [[0; 1; 2]] [];
|}.

(** A fan: the interior vertex 0 inside the triangle 1, 2, 3, with the faces
    (0,1,2), (0,2,3), (0,3,1) and the edges 0-1, 1-2, 2-0, 2-3, 3-0, 3-1.
    The halfedges 3, 7 and 11 are the boundary ones. *)
Definition fan : Topology := {|
  n_vertices := 4;
  n_edges := 6;
  halfedges := fun v => nth v [[0; 5; 9]; [11; 2; 1]; [3; 6; 4]; [7; 10; 8]] [];
  to_vertex := fun h => nth h [1; 0; 2; 1; 0; 2; 3; 2; 0; 3; 1; 3] 0;
  edge := fun h => h / 2;
  halfedge := fun e i => 2 * e + i;
  next_halfedge := fun h => nth h [2; 9; 4; 11; 0; 6; 8; 3; 5; 10; 1; 7] 0;
  is_boundary_h := fun h => bool_decide (h ∈ [3; 7; 11]);
  is_boundary := fun v => negb (v =? 0);
  faces := fun v => nth v [[0; 1; 2]; [0; 2]; [1; 0]; [2; 1]] [];
  face_vertices := fun f => nth f [[0; 1; 2]; [0; 2; 3]; [0; 3; 1]] [];
|}.

(** The triangle and a fourth vertex that no face uses. *)
Definition triangle_and_point : Topology := {|
  n_vertices := 4;
  n_edges := 3;
  halfedges := halfedges triangle;
  to_vertex := to_vertex triangle;
  edge := edge triangle;
  halfedge := halfedge triangle;
  next_halfedge := next_halfedge triangle;
  is_boundary_h := is_boundary_h triangle;
  is_boundary := fun v => true;
  faces := faces triangle;
  face_vertices := face_vertices triangle;
|}.

(** A mesh as load_mesh leaves it, before any attribute is added. *)
Definition loaded {N : Numerics} (t : Topology) (p : list Point) : Surface_mesh :=
  {| topo := t; vpoint := p; vscalar := ∅; escalar := ∅; vvector := ∅ |}.

(** ** What a curvature estimator may change *)

(** [m'] differs from [m] in the vertex attribute [target] at most, and in
    attributes that were added with the value 0 everywhere. *)
Definition writes_only {N : Numerics} (target : string) (m m' : Surface_mesh)
  : Prop :=
  topo m' = topo m /\
  vpoint m' = vpoint m /\
  vvector m' = vvector m /\
  (forall name a, name <> target ->
     vscalar m !! name = Some a -> vscalar m' !! name = Some a) /\
  (forall name v, name <> target -> vget name v m' = vget name v m) /\
  (forall name a, escalar m !! name = Some a -> escalar m' !! name = Some a) /\
  (forall name e, eget name e m' = eget name e m).

(** ** Example inputs *)

(** Stand-ins for Eigen's solvers: one that reports success and returns the
    right-hand side (what a solver returns for the identity matrix), and one
    whose factorization fails and that returns a zero matrix. *)
Definition identity_solver {N : Numerics} : Solvers := {|
  SimplicialLDLT := fun n A B =>
    {| info_compute := Success; info_solve := Success; solution := B |};
  SparseLU := fun n A B =>
    {| info_compute := Success; info_solve := Success; solution := B |};
|}.

Definition failed_solver {N : Numerics} : Solvers := {|
  SimplicialLDLT := fun n A B =>
    {| info_compute := NumericalIssue; info_solve := NumericalIssue;
       solution := replicate n zero3 |};
  SparseLU := fun n A B =>
    {| info_compute := NumericalIssue; info_solve := NumericalIssue;
       solution := replicate n zero3 |};
|}.

(** A point with the single-precision coordinates nearest to three
    rationals. *)
Definition pt (x y z : Q) : @Point ieee :=
  @mkPoint ieee (IEEE.of_Q 24 128 x) (IEEE.of_Q 24 128 y) (IEEE.of_Q 24 128 z).

(** The double nearest to a rational. *)
Definition dbl (q : Q) : @Double ieee := IEEE.of_Q 53 1024 q.

(** The fan with its interior vertex lifted to (1,1,1) over the triangle
    (1,0,0), (0,1,0), (0,0,1): every angle is acute. *)
Definition pyramid : @Surface_mesh ieee :=
  loaded fan [pt 1 1 1; pt 1 0 0; pt 0 1 0; pt 0 0 1].

(** A triangle whose vertex 1 has moved from (1,0,0), where it was when the
    mesh was loaded, to (2^54,0,0). *)
Definition stretched : @MeshProcessing ieee := {|
  mesh_ := loaded triangle [pt 0 0 0; pt 18014398509481984 0 0; pt 0 1 0];
  mesh_init_ := loaded triangle [pt 0 0 0; pt 1 0 0; pt 0 1 0];
|}.

(** The fan as loaded, unchanged since. *)
Definition pyramid_loaded : @MeshProcessing ieee :=
  {| mesh_ := pyramid; mesh_init_ := pyramid |}.

(** "The vertex positions are overwritten with the system's solution":
    every position is the row the solver returned, stored as floats. *)
Definition overwritten_with_solution {N : Numerics} {E : Solvers}
  (mp : MeshProcessing) : Prop :=
  let w := calc_weights (mesh_ mp) in
  let X := solution (SparseLU (n_vertices (topo (mesh_ mp)))
                       (minimal_setup w (mesh_init_ mp)).2
                       (minimal_setup w (mesh_init_ mp)).1.2) in
  forall i, i < n_vertices (topo (mesh_ mp)) ->
    position (mesh_ (minimal_surface mp).1) i = to_point (X_row X i).

(** The arithmetic is exact enough for the update of minimal_surface:
    p + 1 * (x - p), stored as a float, is x stored as a float. *)
Class BlendExact (N : Numerics) : Prop :=
  blend_exact : forall (x : Double) (p : Scalar), blend x p = narrow x.

(** ** Rows that sum to zero *)

(** The values row [i] of the matrix holds off its diagonal, as pushed. *)
Definition off_diagonal {N : Numerics} (ts : list Triplet) (i : nat)
  : list Double :=
  value <$> filter (fun t => row t = i /\ col t <> i) ts.

(** The off-diagonal entries of row [i] sum to the negative of its
    diagonal entry. *)
Definition row_sums_to_zero {N : Numerics} (ts : list Triplet) (i : nat)
  : Prop :=
  exists d, coeff ts i i = Some d /\ sum_d (off_diagonal ts i) = d_opp d.

(** What the sum of negated terms needs from the double-precision
    arithmetic, for a predicate [pos] that says 0 < x and a predicate [uns]
    that says that x is not negative. *)
Class SumLaws (N : Numerics) (pos uns : Double -> Prop) : Prop := {
  positive_unsigned : forall x, pos x -> uns x;
  add_zero_pos : forall x, pos x -> d_add (d_const 0) x = x;
  add_zero_neg : forall x, pos x -> d_add (d_const 0) (d_opp x) = d_opp x;
  add_unsigned : forall x y, uns x -> uns y -> uns (d_add x y);
  opp_add : forall x y,
    uns x -> uns y -> d_add (d_opp x) (d_opp y) = d_opp (d_add x y);
}.

(** In IEEE arithmetic: 0 < x, and a sign bit that is clear (or a NaN). *)
Definition ieee_positive (x : spec_float) : Prop :=
  SFltb (S754_zero false) x = true.

Definition ieee_unsigned (x : spec_float) : Prop :=
  match x with
  | S754_zero s | S754_infinity s | S754_finite s _ _ => s = false
  | S754_nan => True
  end.

(** Over the reals: 0 < x, and nothing. *)
Definition reals_positive (x : R) : Prop := (0 < x)%R.
Definition reals_unsigned (x : R) : Prop := True.

(** ** The weight of a vertex, as specified *)

(** Half the norm of the cross product: the area of the triangle [f]. *)
Definition triangle_area {N : Numerics} (m : Surface_mesh) (f : nat) : Scalar :=
  let fv := face_vertices (topo m) f in
  let P := position m (circ fv 0) in
  let Q := position m (circ fv 1) in
  let R := position m (circ fv 2) in
  s_mul (norm (cross (vsub Q P) (vsub R P))) (s_const (1 # 2)).

(** 0.5 divided by the sum, over the triangles around [v], of one third of
    each triangle's area: the weight in the specification's words. *)
Definition third_area_weight {N : Numerics} (m : Surface_mesh) (v : nat)
  : Scalar :=
  let area :=
    for_each (faces (topo m) v)
      (fun f a => s_add a (s_div (triangle_area m f) (s_const 3)))
      (narrow (d_const 0)) in
  narrow (d_div (d_const (1 # 2)) (widen area)).

(** A right triangle of area 3, alone and next to a vertex without faces. *)
Definition right_triangle : @Surface_mesh ieee :=
  loaded triangle [pt 0 0 0; pt 3 0 0; pt 0 2 0].

Definition right_triangle_and_point : @Surface_mesh ieee :=
  loaded triangle_and_point [pt 0 0 0; pt 3 0 0; pt 0 2 0; pt 5 5 5].

(** ** Unchanged positions, and the uniform Laplacian *)

(** Two scalars that are the same number: identical, or equal for [==]
    (in IEEE arithmetic the two zeros). *)
Definition same_number {N : Numerics} (x y : Scalar) : Prop :=
  x = y \/ s_eqb x y = true.

Definition same_point {N : Numerics} (p q : Point) : Prop :=
  same_number (px p) (px q) /\ same_number (py p) (py q) /\
  same_number (pz p) (pz q).

(** Adding the zero of [Point(0.0)] leaves a number as it is. *)
Class AddZero (N : Numerics) : Prop :=
  add_zero_r : forall x : Scalar, same_number (s_add x (narrow (d_const 0))) x.

(** The sum, over the neighbours of [v], of neighbour position minus
    position of [v]. *)
Definition displacement_sum {N : Numerics} (m : Surface_mesh) (v : nat)
  : Point :=
  for_each (vertices (topo m) v)
    (fun vv laplacian => vadd laplacian (vsub (position m vv) (position m v)))
    (Point1 (narrow (d_const 0))).

(** ** Sharpening with gain 1 *)

(** The arithmetic is exact enough for the sharpening formula at gain 1:
    a + (b - a) * 1 is b. *)
Class SharpenExact (N : Numerics) : Prop :=
  sharpen_exact : forall a b : Scalar,
    s_add a (s_mul (s_sub b a) (s_of_nat 1)) = b.

(** The fan with its interior vertex at (2^-25, 0, 0), next to the plane
    x = 2 of its three boundary vertices. *)
Definition near_plane : @Surface_mesh ieee :=
  loaded fan [pt (1 # 33554432) 0 0; pt 2 0 0; pt 2 1 0; pt 2 0 1].

(** The fan of [pyramid] over the real numbers. *)
Definition real_pyramid : @Surface_mesh reals :=
  loaded fan [@mkPoint reals 1 1 1; @mkPoint reals 1 0 0;
              @mkPoint reals 0 1 0; @mkPoint reals 0 0 1]%R.

(** ** The angle deficit *)

(** Each element of a ring with the next one, the last with the first. *)
Definition consecutive_pairs (l : list nat) : list (nat * nat) :=
  match l with
  | [] => []
  | x :: r => zip l (r ++ [x])
  end.

(** arccos(clamp(dot(normalize(d0), normalize(d1)), -1, 1)) for the edges
    from [v] to [vv] and to [vv2]. *)
Definition corner_angle {N : Numerics} {L : Libm N} (m : Surface_mesh)
  (v vv vv2 : nat) : Scalar :=
  let d0 := normalize (vsub (position m vv) (position m v)) in
  let d1 := normalize (vsub (position m vv2) (position m v)) in
  s_acos (std_max (s_const (-1)) (std_min (s_const 1) (dot d0 d1))).

(** (2 pi - sum of the angles) * 2 * vertex_inv_area[v]. *)
Definition angle_deficit {N : Numerics} {L : Libm N} (m : Surface_mesh)
  (v : nat) : Scalar :=
  let angles :=
    fold_left s_add
      ((fun p => corner_angle m v p.1 p.2)
         <$> consecutive_pairs (vertices (topo m) v))
      (s_const 0) in
  s_mul (s_mul (s_sub (s_mul (s_of_nat 2) (narrow (d_const M_PI))) angles)
               (s_const 2))
        (vget "v:weight" v m).

(** ** Degenerate triangles *)

(** The value calc_edges_weights stores for the edge [e]: from 0, the
    quotient of each side that has a face is added. *)
Definition edge_weight_value {N : Numerics} (m : Surface_mesh) (e : nat)
  : Scalar :=
  let t := topo m in
  let h0 := halfedge t e 0 in
  let h1 := halfedge t e 1 in
  let p0 := position m (to_vertex t h0) in
  let p1 := position m (to_vertex t h1) in
  let side h w :=
    if negb (is_boundary_h t h) then
      s_add w (cotan_term p0 p1 (position m (to_vertex t (next_halfedge t h))))
    else w in
  side h1 (side h0 (narrow (d_const 0))).


(** A fan whose face (0,1,2) has its three vertices on one line. *)
Definition sliver : @Surface_mesh ieee :=
  loaded fan [pt 0 0 0; pt 1 0 0; pt 2 0 0; pt 0 1 0].

(** ** States of the loops *)

(** Two states in which a computation at vertex [i] reads the same:
    everything but the positions of the other vertices agrees. *)
Definition agree_at {N : Numerics} (i : nat) (m1 m2 : Surface_mesh) : Prop :=
  topo m1 = topo m2 /\ vscalar m1 = vscalar m2 /\ escalar m1 = escalar m2 /\
  vvector m1 = vvector m2 /\ position m1 i = position m2 i.

(** The state between two iterations: the connectivity of the start, and
    arrays of positions and of staged positions of the right size. *)
Definition smooth_state {N : Numerics} (name : string) (n : nat) (t : Topology)
  (s : Surface_mesh) : Prop :=
  topo s = t /\ length (vpoint s) = n /\
  exists a, vvector s !! name = Some a /\ length a = n.

(** The state of the loop over the edges: connectivity and positions of
    the start, and a weight array of the right size. *)
Definition weights_state {N : Numerics} (m s : Surface_mesh) : Prop :=
  topo s = topo m /\ vpoint s = vpoint m /\
  exists a, escalar s !! "e:weight" = Some a /\ length a = n_edges (topo m).

(** * Further definitions *)

(** ** The values of the mean-curvature estimators *)

(** The number of neighbours as calc_uniform_mean_curvature counts them:
    1 is added to a double for each. *)
Definition count_d {N : Numerics} (l : list nat) : Double :=
  fold_left (fun n _ => d_add n (d_const 1)) l (d_const 0).

(** The sum, from [zero], over the neighbours of [v], of neighbour position
    minus position of [v]. *)
Definition ring_sum {N : Numerics} (zero : Point) (m : Surface_mesh) (v : nat)
  : Point :=
  for_each (vertices (topo m) v)
    (fun vv laplace => vadd laplace (vsub (position m vv) (position m v)))
    zero.

(** 0.5f times the norm of the mean of the differences to the neighbours. *)
Definition uniform_mean_curvature {N : Numerics} (m : Surface_mesh) (v : nat)
  : Scalar :=
  s_mul (s_const (1 # 2))
    (norm (vdiv (ring_sum (Point1 (s_const 0)) m v)
             (narrow (count_d (vertices (topo m) v))))).

(** 0.5f times the norm of the cotangent-weighted sum of the differences,
    scaled by the weight of the vertex. *)
Definition cotan_mean_curvature {N : Numerics} (m : Surface_mesh) (v : nat)
  : Scalar :=
  s_mul (s_const (1 # 2))
    (norm (vscale (cotan_ring m v) (vget "v:weight" v m))).

(** ** The weight of a vertex, as computed *)

(** What calc_vertices_weights leaves in v_weight[v]: 0.5 divided by the
    sum of the shares of the faces around [v]; the value it had, for a
    vertex without faces. *)
Definition vertex_weight_value {N : Numerics} (m : Surface_mesh) (v : nat)
  : Scalar :=
  match faces (topo m) v with
  | [] => vget "v:weight" v m
  | vf =>
      narrow (d_div (d_const (1 # 2))
                (widen (for_each vf (fun f a => s_add a (face_share m f))
                          (narrow (d_const 0)))))
  end.

(** The state of the loop over the vertices: connectivity, positions and
    edge attributes of the start, and a weight array of the right size. *)
Definition vertex_weights_state {N : Numerics} (m s : Surface_mesh) : Prop :=
  topo s = topo m /\ vpoint s = vpoint m /\ escalar s = escalar m /\
  vvector s = vvector m /\
  (forall name, name <> "v:weight" -> vscalar s !! name = vscalar m !! name) /\
  exists a, vscalar s !! "v:weight" = Some a /\ length a = n_vertices (topo m).

(** Every scalar attribute of the mesh has one entry per vertex, or per
    edge. *)
Definition sized {N : Numerics} (m : Surface_mesh) : Prop :=
  (forall name a, vscalar m !! name = Some a ->
     length a = n_vertices (topo m)) /\
  (forall name a, escalar m !! name = Some a -> length a = n_edges (topo m)).

(** ** The cotangent Laplacian of smooth *)

(** The sum, over the outgoing halfedges of [v], of the weight of the edge
    times neighbour position minus position of [v], for the edge weights
    [w]. *)
Definition weighted_sum {N : Numerics} (w : nat -> Scalar) (m : Surface_mesh)
  (v : nat) : Point :=
  for_each (halfedges (topo m) v)
    (fun h laplace =>
       vadd laplace
         (scale_l (w (edge (topo m) h))
            (vsub (position m (to_vertex (topo m) h)) (position m v))))
    (Point1 (narrow (d_const 0))).

(** The sum of the weights of the edges around [v]. *)
Definition weight_total {N : Numerics} (w : nat -> Scalar) (t : Topology)
  (v : nat) : Scalar :=
  fold_left s_add ((fun h => w (edge t h)) <$> halfedges t v) (s_of_nat 0).

(** Adding the zero of [Point(0.0)] a second time changes nothing. *)
Class ZeroStable (N : Numerics) : Prop :=
  zero_stable : forall x : Scalar,
    s_add (s_add x (narrow (d_const 0))) (narrow (d_const 0))
    = s_add x (narrow (d_const 0)).

(** ** Connectivity of a manifold mesh *)

(** Every halfedge from a vertex [i] has an opposite one, which leaves the
    target for [i] on the same edge. *)
Definition paired (t : Topology) : Prop :=
  forall i h, i < n_vertices t -> h ∈ halfedges t i ->
    exists h', h' ∈ halfedges t (to_vertex t h) /\
               to_vertex t h' = i /\ edge t h' = edge t h.

(** The neighbours of a vertex are distinct and differ from it. *)
Definition simple_rings (t : Topology) : Prop :=
  forall i, i < n_vertices t ->
    NoDup (vertices t i) /\ i ∉ vertices t i.

(** ** Colour coding *)

(** [operator<=] on floats. *)
Class Compare (N : Numerics) := { s_leb : Scalar -> Scalar -> bool }.

(** [std::sort] of <algorithm> on a vector of floats. *)
Class Sorting (N : Numerics) := { std_sort : list Scalar -> list Scalar }.

(** The value of an [unsigned int]. *)
Definition uint32 (z : Z) : Z := (z mod 2 ^ 32)%Z.

Section Colors.
Context {N : Numerics} {O : Compare N} {St : Sorting N}.

(** [min_value + k/4.0 * (max_value - min_value)]: the difference in single
    precision, product and sum in double precision, the result stored in a
    [Scalar]. *)
Definition color_stop (k : Q) (min_value max_value : Scalar) : Scalar :=
  narrow (d_add (widen min_value)
            (d_mul (d_div (d_const k) (d_const 4))
               (widen (s_sub max_value min_value)))).

(** surface_mesh's [Color] is the type of [Point], [Vector<Scalar,3>]; its
    constructor converts the integers it is given. *)
Definition value_to_color (value min_value max_value : Scalar) : Point :=
  let v0 := color_stop 0 min_value max_value in
  let v1 := color_stop 1 min_value max_value in
  let v2 := color_stop 2 min_value max_value in
  let v3 := color_stop 3 min_value max_value in
  let v4 := color_stop 4 min_value max_value in
  if s_ltb value v0 then mkPoint (s_of_nat 0) (s_of_nat 0) (s_of_nat 1)
  else if s_ltb v4 value then mkPoint (s_of_nat 1) (s_of_nat 0) (s_of_nat 0)
  else if s_leb value v2 then
    if s_leb value v1 then
      let u := s_div (s_sub value v0) (s_sub v1 v0) in
      mkPoint (s_of_nat 0) u (s_of_nat 1)
    else
      let u := s_div (s_sub value v1) (s_sub v2 v1) in
      mkPoint (s_of_nat 0) (s_of_nat 1) (s_sub (s_of_nat 1) u)
  else
    if s_leb value v3 then
      let u := s_div (s_sub value v2) (s_sub v3 v2) in
      mkPoint u (s_of_nat 1) (s_of_nat 0)
    else
      let u := s_div (s_sub value v3) (s_sub v4 v3) in
      mkPoint (s_of_nat 1) (s_sub (s_of_nat 1) u) (s_of_nat 0).

Definition set_color (v : nat) (col : Point) (color_prop : string)
  (m : Surface_mesh) : Surface_mesh :=
  pset color_prop v col m.

(** The two indices color_coding reads the sorted values at, in
    [unsigned int] arithmetic, for [size] values; nothing for the bound 0,
    by which the code would divide. *)
Definition color_bounds (size : nat) (bound : Z) : option (Z * Z) :=
  let n := uint32 (Z.of_nat size - 1) in
  let b := uint32 bound in
  if decide (b = 0%Z) then None
  else
    let i := (n / b)%Z in
    Some (i, uint32 (n - 1 - i)).

(** color_coding on the vertex attribute [prop] and the colour attribute
    [color_prop] of the mesh; [None] when it reads the array of values
    outside its bounds (or divides by 0). *)
Definition color_coding (prop color_prop : string) (bound : Z)
  (m : Surface_mesh) : option Surface_mesh :=
  values ← vscalar m !! prop;
  '(lo, hi) ← color_bounds (length values) bound;
  let values := std_sort values in
  min_value ← values !! Z.to_nat lo;
  max_value ← values !! Z.to_nat hi;
  Some (for_range (n_vertices (topo m))
          (fun v s =>
             set_color v (value_to_color (vget prop v s) min_value max_value)
               color_prop s)
          m).
End Colors.

(** IEEE comparison; insertion sort, which orders a vector as [std::sort]
    does when no two of its values are equal. *)
Definition ieee_compare : Compare ieee := Build_Compare ieee SFleb.

Fixpoint insert_sorted (x : spec_float) (l : list spec_float)
  : list spec_float :=
  match l with
  | [] => [x]
  | y :: r => if SFltb y x then y :: insert_sorted x r else x :: l
  end.

Definition ieee_sorting : Sorting ieee :=
  Build_Sorting ieee (foldr insert_sorted []).

Definition reals_compare : Compare reals :=
  Build_Compare reals (fun a b => if Rle_dec a b then true else false).

(** ** Picking the vertex nearest to a ray *)

(** Eigen (not part of the sources): the dot product and the norm of a
    [Vector3f], reductions whose order of evaluation is Eigen's. *)
Class Eigen3 (N : Numerics) := {
  e_dot : Point -> Point -> Scalar;
  e_norm : Point -> Scalar;
}.

(** [std::numeric_limits<float>::max()], (2^24 - 1) * 2^104. *)
Definition FLT_MAX : Q := 340282346638528859811704183484516925440.

Section Picking.
Context {N : Numerics} {Eg : Eigen3 N}.

(** [s * a] on an Eigen vector: every coefficient multiplied from the
    left. *)
Definition e_scale (s : Scalar) (a : Point) : Point :=
  mkPoint (s_mul s (px a)) (s_mul s (py a)) (s_mul s (pz a)).

(** The distance of [point] to the line through [ray_origin] along
    [direction], as the loop of get_closest_vertex computes it. *)
Definition ray_distance (ray_origin direction point : Point) : Scalar :=
  let projection_length := e_dot (vsub point ray_origin) direction in
  let difference :=
    vsub point (vadd ray_origin (e_scale projection_length direction)) in
  e_norm difference.

(** [closest_vertex] is declared without a value: [None] until the loop
    assigns it. *)
Definition get_closest_vertex (ray_origin direction : Point)
  (m : Surface_mesh) : option Point :=
  (for_range (n_vertices (topo m))
     (fun v '(min_distance, closest_vertex) =>
        let point := position m v in
        let distance := ray_distance ray_origin direction point in
        if s_ltb distance min_distance then (distance, Some point)
        else (min_distance, closest_vertex))
     (s_const FLT_MAX, None)).2.
End Picking.

(** [operator<] is a strict order: nothing is less than itself, and less
    than is transitive. *)
Class LtOrder (N : Numerics) : Prop := {
  ltb_irrefl : forall x : Scalar, s_ltb x x = false;
  ltb_trans : forall x y z : Scalar,
    s_ltb x y = true -> s_ltb y z = true -> s_ltb x z = true;
}.

(** Eigen's reductions summed from the left, for the examples. *)
Definition eigen_left {N : Numerics} : Eigen3 N :=
  {| e_dot := dot; e_norm := norm |}.

(** The fan [pyramid] with its uniform mean curvature computed and the
    colour attribute compute_mesh_properties adds for it. *)
Definition curvature_colors : @Surface_mesh ieee :=
  vertex_property_point "v:color_unicurvature" (pt 1 1 1)
    (calc_uniform_mean_curvature pyramid).

(** ** The bounding sphere of load_mesh *)

Section Bounds.
Context {N : Numerics}.

(** surface_mesh's [distance] (not part of the sources): the norm of the
    difference. *)
Definition distance (a b : Point) : Scalar := norm (vsub a b).

(** [mesh_center_]: the sum of the positions, from (0,0,0), divided by the
    number of vertices. *)
Definition mesh_center_ (m : Surface_mesh) : Point :=
  vdiv (for_range (n_vertices (topo m))
          (fun v c => vadd c (position m v))
          (mkPoint (s_const 0) (s_const 0) (s_const 0)))
       (s_of_nat (n_vertices (topo m))).

(** [dist_max_]: from 0, replaced by the distance of each vertex to the
    centre that is greater. *)
Definition dist_max_ (m : Surface_mesh) : Scalar :=
  for_range (n_vertices (topo m))
    (fun v d =>
       if s_ltb d (distance (mesh_center_ m) (position m v))
       then distance (mesh_center_ m) (position m v) else d)
    (s_const 0).
End Bounds.

(** ** The centroid of a one-ring, over the real numbers *)

(** The mean of the positions of the neighbours of [v]. *)
Definition centroid (m : @Surface_mesh reals) (v : nat) : @Point reals :=
  let ring := vertices (topo m) v in
  let n := INR (length ring) in
  let total f := fold_right Rplus 0%R ((fun vv => f (position m vv)) <$> ring) in
  @mkPoint reals (total px / n)%R (total py / n)%R (total pz / n)%R.

(** The point halfway between two points. *)
Definition midpoint (a b : @Point reals) : @Point reals :=
  @mkPoint reals ((px a + px b) / 2)%R ((py a + py b) / 2)%R
    ((pz a + pz b) / 2)%R.

(** ** A boundary that has moved *)

(** The fan over the reals, its boundary vertex 1 moved from (1,0,0), where
    it was when the mesh was loaded, to (5,5,5). *)
Definition moved_boundary : @MeshProcessing reals := {|
  mesh_ := loaded fan [@mkPoint reals 1 1 1; @mkPoint reals 5 5 5;
                       @mkPoint reals 0 1 0; @mkPoint reals 0 0 1]%R;
  mesh_init_ := real_pyramid;
|}.

(** ** A plate next to the plane x = 2^-60 *)

(** The fan as loaded and unchanged since: its boundary in the plane
    x = 2^-60, its interior vertex at (1,1,1). *)
Definition thin_plate : @MeshProcessing ieee :=
  let m := loaded fan
             [pt 1 1 1; pt (1 # 1152921504606846976) 1 0;
              pt (1 # 1152921504606846976) 0 1;
              pt (1 # 1152921504606846976) (-1) (-1)] in
  {| mesh_ := m; mesh_init_ := m |}.

(** A stand-in for a solver: it returns the right-hand side with every
    x-coordinate set to 2^-60, the x-coordinate that the solution of the
    system of minimal_surface on [thin_plate] has at every vertex. *)
Definition plane_solver : @Solvers ieee :=
  let solve (n : nat) (A : list (@Triplet ieee)) (B : list (@Row3 ieee)) :=
    {| info_compute := Success; info_solve := Success;
       solution :=
         (fun r : @Row3 ieee =>
            (dbl (1 # 1152921504606846976), r.1.2, r.2)) <$> B |} in
  {| SimplicialLDLT := solve; SparseLU := solve |}.

(** ** An edge of length zero *)


(** * Properties *)

(** ** Loops *)

Section Loops.
Context {S : Type}.

Lemma for_range_S (n : nat) (body : nat -> S -> S) (s : S) :
  for_range (Datatypes.S n) body s = body n (for_range n body s).
Proof.
  unfold for_range. rewrite seq_S, fold_left_app. reflexivity.
Qed.

(** The invariant rule of a counted loop. *)
Lemma for_range_ind (P : nat -> S -> Prop) (n : nat) (body : nat -> S -> S)
  (s : S) :
  P 0 s ->
  (forall k s', k < n -> P k s' -> P (Datatypes.S k) (body k s')) ->
  P n (for_range n body s).
Proof.
  intros H0 Hstep. induction n as [|n IH].
  - exact H0.
  - rewrite for_range_S. apply Hstep; [lia|].
    apply IH. intros k s' Hk. apply Hstep. lia.
Qed.

(** A loop whose body keeps [P], keeps [P]. *)
Lemma for_range_preserves (P : S -> Prop) (n : nat) (body : nat -> S -> S)
  (s : S) :
  P s -> (forall k s', P s' -> P (body k s')) -> P (for_range n body s).
Proof.
  intros H0 Hstep.
  apply (for_range_ind (fun _ => P)); auto.
Qed.
End Loops.

Lemma Nat_iter_preserves {S : Type} (P : S -> Prop) (f : S -> S) (n : nat) (s : S) :
  P s -> (forall s', P s' -> P (f s')) -> P (Nat.iter n f s).
Proof.
  intros H0 Hf. induction n as [|n IH]; simpl; auto.
Qed.

(** ** Reading an attribute after a write *)

Section Access.
Context {N : Numerics}.

Lemma vget_vset_ne (name name' : string) (v v' : nat) (x : Scalar)
  (m : Surface_mesh) :
  name <> name' -> vget name v (vset name' v' x m) = vget name v m.
Proof.
  intros Hne. unfold vget, vset. simpl.
  rewrite lookup_alter_ne by congruence. reflexivity.
Qed.

Lemma vget_vset_other (name : string) (v v' : nat) (x : Scalar)
  (m : Surface_mesh) :
  v <> v' -> vget name v (vset name v' x m) = vget name v m.
Proof.
  intros Hne. unfold vget, vset. simpl.
  rewrite lookup_alter_eq. destruct (vscalar m !! name) as [a|]; simpl; [|done].
  rewrite list_lookup_insert_ne by congruence. reflexivity.
Qed.

Lemma vget_vset_same (name : string) (v : nat) (x : Scalar) (a : list Scalar)
  (m : Surface_mesh) :
  vscalar m !! name = Some a -> v < length a ->
  vget name v (vset name v x m) = x.
Proof.
  intros Ha Hv. unfold vget, vset. simpl.
  rewrite lookup_alter_eq, Ha. simpl.
  rewrite list_lookup_insert_eq by done. reflexivity.
Qed.

Lemma vget_vertex_property (name name' : string) (v : nat) (m : Surface_mesh) :
  vget name v (vertex_property name' (s_const 0) m) = vget name v m.
Proof.
  unfold vertex_property.
  destruct (vscalar m !! name') as [a|] eqn:Ha; [done|].
  unfold vget. simpl.
  destruct (decide (name = name')) as [->|Hne].
  - rewrite lookup_insert_eq, Ha. simpl.
    destruct (replicate _ _ !! v) as [y|] eqn:Hy; [|done].
    apply lookup_replicate in Hy as [-> _]. reflexivity.
  - rewrite lookup_insert_ne by congruence. reflexivity.
Qed.

Lemma eget_edge_property (name name' : string) (e : nat) (m : Surface_mesh) :
  eget name e (edge_property name' (s_const 0) m) = eget name e m.
Proof.
  unfold edge_property.
  destruct (escalar m !! name') as [a|] eqn:Ha; [done|].
  unfold eget. simpl.
  destruct (decide (name = name')) as [->|Hne].
  - rewrite lookup_insert_eq, Ha. simpl.
    destruct (replicate _ _ !! e) as [y|] eqn:Hy; [|done].
    apply lookup_replicate in Hy as [-> _]. reflexivity.
  - rewrite lookup_insert_ne by congruence. reflexivity.
Qed.

Lemma vertex_property_keeps (name name' : string) (t : Scalar)
  (a : list Scalar) (m : Surface_mesh) :
  vscalar m !! name = Some a ->
  vscalar (vertex_property name' t m) !! name = Some a.
Proof.
  intros Ha. unfold vertex_property.
  destruct (vscalar m !! name') as [b|] eqn:Hb; [done|]. simpl.
  rewrite lookup_insert_ne; [done|]. intros ->. congruence.
Qed.

Lemma edge_property_keeps (name name' : string) (t : Scalar)
  (a : list Scalar) (m : Surface_mesh) :
  escalar m !! name = Some a ->
  escalar (edge_property name' t m) !! name = Some a.
Proof.
  intros Ha. unfold edge_property.
  destruct (escalar m !! name') as [b|] eqn:Hb; [done|]. simpl.
  rewrite lookup_insert_ne; [done|]. intros ->. congruence.
Qed.
End Access.

(** ** The frame of the curvature estimators *)

Section Frame.
Context {N : Numerics}.

Lemma writes_only_refl (target : string) (m : Surface_mesh) :
  writes_only target m m.
Proof. unfold writes_only. split_and!; done. Qed.

Lemma writes_only_trans (target : string) (m1 m2 m3 : Surface_mesh) :
  writes_only target m1 m2 -> writes_only target m2 m3 ->
  writes_only target m1 m3.
Proof.
  intros (Ht & Hp & Hv & Hs & Hg & He & Heg) (Ht' & Hp' & Hv' & Hs' & Hg' & He' & Heg').
  unfold writes_only. split_and!; [congruence.. | | | |].
  - eauto.
  - intros name v Hne. rewrite Hg', Hg; auto.
  - eauto.
  - intros name e. rewrite Heg', Heg; auto.
Qed.

Lemma writes_only_vertex_property (target name : string) (m : Surface_mesh) :
  writes_only target m (vertex_property name (s_const 0) m).
Proof.
  unfold writes_only. split_and!.
  1-3, 6-7: unfold vertex_property; by destruct (vscalar m !! name).
  - intros n' a _ Ha. by apply vertex_property_keeps.
  - intros n' v _. apply vget_vertex_property.
Qed.

Lemma writes_only_edge_property (target name : string) (m : Surface_mesh) :
  writes_only target m (edge_property name (s_const 0) m).
Proof.
  unfold writes_only. split_and!.
  1-5: unfold edge_property; by destruct (escalar m !! name).
  - intros n' a Ha. by apply edge_property_keeps.
  - intros n' e. apply eget_edge_property.
Qed.

Lemma writes_only_vset (target : string) (v : nat) (x : Scalar)
  (m : Surface_mesh) :
  writes_only target m (vset target v x m).
Proof.
  unfold writes_only. split_and!; try done.
  - intros name a Hne Ha. unfold vset. simpl.
    rewrite lookup_alter_ne by congruence. done.
  - intros name v' Hne. by apply vget_vset_ne.
Qed.

(** A loop over the vertices that assigns [target] only. *)
Lemma writes_only_loop (target : string) (n : nat)
  (curv : nat -> Surface_mesh -> Scalar) (m : Surface_mesh) :
  writes_only target m
    (for_range n (fun v m' => vset target v (curv v m') m') m).
Proof.
  apply (for_range_preserves (writes_only target m)).
  - apply writes_only_refl.
  - intros k s' Hs. eapply writes_only_trans; [exact Hs|].
    apply writes_only_vset.
Qed.
End Frame.

(** C10. The three curvature estimators leave the connectivity and every
    vertex position as they were, and assign no attribute but their own
    curvature scalar: every other attribute the mesh had keeps its array, and
    every other attribute reads as before the call (calc_mean_curvature and
    calc_gauss_curvature may add the weight attributes, filled with 0, when
    the mesh has none). *)
Theorem curvature_estimators_frame {N : Numerics} {L : Libm N}
  (m : Surface_mesh) :
  writes_only "v:unicurvature" m (calc_uniform_mean_curvature m) /\
  writes_only "v:curvature" m (calc_mean_curvature m) /\
  writes_only "v:gauss_curvature" m (calc_gauss_curvature m).
Proof.
  split; [|split].
  - unfold calc_uniform_mean_curvature.
    eapply writes_only_trans; [apply writes_only_vertex_property|].
    apply writes_only_loop.
  - unfold calc_mean_curvature.
    eapply writes_only_trans; [apply writes_only_vertex_property|].
    eapply writes_only_trans; [apply writes_only_edge_property|].
    eapply writes_only_trans; [apply writes_only_vertex_property|].
    apply writes_only_loop.
  - unfold calc_gauss_curvature.
    eapply writes_only_trans; [apply writes_only_vertex_property|].
    eapply writes_only_trans; [apply writes_only_vertex_property|].
    apply writes_only_loop.
Qed.

(** ** Loops that assign one array *)

Section ArrayLoops.
Context {N : Numerics}.

(** [for v: position(v) = f(v)], where [f] at [v] reads no position but
    that of [v]. *)
Lemma set_position_loop (f : nat -> Surface_mesh -> Point) (n : nat)
  (m : Surface_mesh) :
  (forall i m1 m2, agree_at i m1 m2 -> f i m1 = f i m2) ->
  let m' := for_range n (fun i s => set_position i (f i s) s) m in
  topo m' = topo m /\ vscalar m' = vscalar m /\ escalar m' = escalar m /\
  vvector m' = vvector m /\ length (vpoint m') = length (vpoint m) /\
  (forall i, i < n -> i < length (vpoint m) -> position m' i = f i m) /\
  (forall i, n <= i -> position m' i = position m i).
Proof.
  intros Hf m'. subst m'.
  apply (for_range_ind (fun k s =>
    topo s = topo m /\ vscalar s = vscalar m /\ escalar s = escalar m /\
    vvector s = vvector m /\ length (vpoint s) = length (vpoint m) /\
    (forall i, i < k -> i < length (vpoint m) -> position s i = f i m) /\
    (forall i, k <= i -> position s i = position m i))).
  - split_and!; try done. intros i Hi. lia.
  - intros k s Hk (Ht & Hv & He & Hp & Hl & Hlo & Hhi).
    split_and!; try done.
    + simpl. by rewrite length_insert.
    + intros i Hi Hlen. unfold position, set_position. simpl.
      destruct (decide (i = k)) as [->|Hne].
      * rewrite list_lookup_insert_eq by lia. simpl.
        apply Hf. split_and!; try done. by apply Hhi.
      * rewrite list_lookup_insert_ne by congruence.
        apply Hlo; lia.
    + intros i Hi. unfold position, set_position. simpl.
      rewrite list_lookup_insert_ne by lia. apply Hhi. lia.
Qed.

(** [for v: prop[v] = g(v)] for a point attribute, where [g] reads no
    point attribute. *)
Lemma pset_loop (name : string) (g : nat -> Surface_mesh -> Point) (n : nat)
  (a : list Point) (m : Surface_mesh) :
  (forall v m1 m2, topo m1 = topo m2 -> vpoint m1 = vpoint m2 ->
     vscalar m1 = vscalar m2 -> escalar m1 = escalar m2 -> g v m1 = g v m2) ->
  vvector m !! name = Some a ->
  let m' := for_range n (fun v s => pset name v (g v s) s) m in
  topo m' = topo m /\ vpoint m' = vpoint m /\ vscalar m' = vscalar m /\
  escalar m' = escalar m /\
  (forall name', name' <> name -> vvector m' !! name' = vvector m !! name') /\
  (exists a', vvector m' !! name = Some a' /\ length a' = length a) /\
  (forall v, v < n -> v < length a -> pget name v m' = g v m).
Proof.
  intros Hg Ha m'. subst m'.
  apply (for_range_ind (fun k s =>
    topo s = topo m /\ vpoint s = vpoint m /\ vscalar s = vscalar m /\
    escalar s = escalar m /\
    (forall name', name' <> name -> vvector s !! name' = vvector m !! name') /\
    (exists a', vvector s !! name = Some a' /\ length a' = length a) /\
    (forall v, v < k -> v < length a -> pget name v s = g v m))).
  - split_and!; try done; [by exists a | intros; lia].
  - intros k s Hk (Ht & Hv & Hs & He & Ho & (a' & Ha' & Hl) & Hlo).
    split_and!; try done.
    + intros name' Hne. simpl. rewrite lookup_alter_ne by congruence.
      by apply Ho.
    + exists (<[k := g k s]> a'). simpl. rewrite lookup_alter_eq, Ha'.
      split; [done|]. by rewrite length_insert.
    + intros v Hv' Hlen. unfold pget, pset. simpl.
      rewrite lookup_alter_eq, Ha'. simpl.
      destruct (decide (v = k)) as [->|Hne].
      * rewrite list_lookup_insert_eq by lia. simpl. by apply Hg.
      * rewrite list_lookup_insert_ne by congruence.
        specialize (Hlo v). unfold pget in Hlo. rewrite Ha' in Hlo.
        apply Hlo; lia.
Qed.

(** [for v: prop[v] = c(v)] for a scalar vertex attribute, where [c] does
    not read that attribute. *)
Lemma vset_loop (name : string) (c : nat -> Surface_mesh -> Scalar) (n : nat)
  (a : list Scalar) (m : Surface_mesh) :
  (forall v m1 m2, topo m1 = topo m2 -> vpoint m1 = vpoint m2 ->
     escalar m1 = escalar m2 ->
     (forall name', name' <> name -> vscalar m1 !! name' = vscalar m2 !! name') ->
     c v m1 = c v m2) ->
  vscalar m !! name = Some a ->
  let m' := for_range n (fun v s => vset name v (c v s) s) m in
  forall v, v < n -> v < length a -> vget name v m' = c v m.
Proof.
  intros Hc Ha m'. subst m'.
  enough (H : topo (for_range n (fun v s => vset name v (c v s) s) m) = topo m /\
    vpoint (for_range n (fun v s => vset name v (c v s) s) m) = vpoint m /\
    escalar (for_range n (fun v s => vset name v (c v s) s) m) = escalar m /\
    (forall name', name' <> name ->
       vscalar (for_range n (fun v s => vset name v (c v s) s) m) !! name'
       = vscalar m !! name') /\
    (exists a', vscalar (for_range n (fun v s => vset name v (c v s) s) m) !! name
                = Some a' /\ length a' = length a) /\
    (forall v, v < n -> v < length a ->
       vget name v (for_range n (fun v s => vset name v (c v s) s) m) = c v m))
    by (destruct H as (_ & _ & _ & _ & _ & H); exact H).
  apply (for_range_ind (fun k s =>
    topo s = topo m /\ vpoint s = vpoint m /\ escalar s = escalar m /\
    (forall name', name' <> name -> vscalar s !! name' = vscalar m !! name') /\
    (exists a', vscalar s !! name = Some a' /\ length a' = length a) /\
    (forall v, v < k -> v < length a -> vget name v s = c v m))).
  - split_and!; try done; [by exists a | intros; lia].
  - intros k s Hk (Ht & Hv & He & Ho & (a' & Ha' & Hl) & Hlo).
    split_and!; try done.
    + intros name' Hne. simpl. rewrite lookup_alter_ne by congruence.
      by apply Ho.
    + exists (<[k := c k s]> a'). simpl. rewrite lookup_alter_eq, Ha'.
      split; [done|]. by rewrite length_insert.
    + intros v Hv' Hlen.
      destruct (decide (v = k)) as [->|Hne].
      * rewrite (vget_vset_same _ _ _ a') by (done || lia). by apply Hc.
      * rewrite vget_vset_other by done. apply Hlo; lia.
Qed.
End ArrayLoops.


(** ** The weights: what calc_weights leaves untouched *)

Section WeightsFrame.
Context {N : Numerics}.

Lemma add_cotan_frame (e h : nat) (p0 p1 : Point) (m : Surface_mesh) :
  topo (add_cotan e h p0 p1 m) = topo m /\
  vpoint (add_cotan e h p0 p1 m) = vpoint m /\
  vscalar (add_cotan e h p0 p1 m) = vscalar m /\
  vvector (add_cotan e h p0 p1 m) = vvector m /\
  (is_Some (escalar m !! "e:weight") ->
   is_Some (escalar (add_cotan e h p0 p1 m) !! "e:weight")).
Proof.
  unfold add_cotan. destruct (negb _); simpl; split_and!; try done.
  intros [a Ha]. rewrite lookup_alter_eq, Ha. by eexists.
Qed.

Lemma calc_edges_weights_frame (m : Surface_mesh) :
  topo (calc_edges_weights m) = topo m /\
  vpoint (calc_edges_weights m) = vpoint m /\
  vscalar (calc_edges_weights m) = vscalar m /\
  vvector (calc_edges_weights m) = vvector m /\
  is_Some (escalar (calc_edges_weights m) !! "e:weight").
Proof.
  unfold calc_edges_weights.
  set (m0 := edge_property "e:weight" (s_const 0) m).
  assert (H0 : topo m0 = topo m /\ vpoint m0 = vpoint m /\
               vscalar m0 = vscalar m /\ vvector m0 = vvector m /\
               is_Some (escalar m0 !! "e:weight")).
  { subst m0. unfold edge_property.
    destruct (escalar m !! "e:weight") eqn:Hw; simpl; split_and!; try done.
    rewrite lookup_insert_eq. by eexists. }
  apply (for_range_preserves (fun s =>
    topo s = topo m /\ vpoint s = vpoint m /\ vscalar s = vscalar m /\
    vvector s = vvector m /\ is_Some (escalar s !! "e:weight"))); [exact H0|].
  intros k s (Ht & Hp & Hv & Hvv & Hs).
  unfold calc_edges_weights_body.
  set (s1 := eset "e:weight" k (narrow (d_const 0)) s).
  assert (H1 : is_Some (escalar s1 !! "e:weight")).
  { destruct Hs as [a Ha]. subst s1. simpl. rewrite lookup_alter_eq, Ha.
    by eexists. }
  match goal with |- context [add_cotan k ?h1 ?p0 ?p1 (add_cotan k ?h0 ?q0 ?q1 s1)] =>
    destruct (add_cotan_frame k h0 q0 q1 s1) as (A1 & A2 & A3 & A4 & A5);
    destruct (add_cotan_frame k h1 p0 p1 (add_cotan k h0 q0 q1 s1))
      as (B1 & B2 & B3 & B4 & B5)
  end.
  split_and!.
  - rewrite B1, A1. exact Ht.
  - rewrite B2, A2. exact Hp.
  - rewrite B3, A3. exact Hv.
  - rewrite B4, A4. exact Hvv.
  - apply B5, A5, H1.
Qed.

Lemma calc_vertices_weights_frame (m : Surface_mesh) :
  topo (calc_vertices_weights m) = topo m /\
  vpoint (calc_vertices_weights m) = vpoint m /\
  escalar (calc_vertices_weights m) = escalar m /\
  vvector (calc_vertices_weights m) = vvector m /\
  is_Some (vscalar (calc_vertices_weights m) !! "v:weight").
Proof.
  unfold calc_vertices_weights.
  set (m0 := vertex_property "v:weight" (s_const 0) m).
  assert (H0 : topo m0 = topo m /\ vpoint m0 = vpoint m /\
               escalar m0 = escalar m /\ vvector m0 = vvector m /\
               is_Some (vscalar m0 !! "v:weight")).
  { subst m0. unfold vertex_property.
    destruct (vscalar m !! "v:weight") eqn:Hw; simpl; split_and!; try done.
    rewrite lookup_insert_eq. by eexists. }
  apply (for_range_preserves (fun s =>
    topo s = topo m /\ vpoint s = vpoint m /\ escalar s = escalar m /\
    vvector s = vvector m /\ is_Some (vscalar s !! "v:weight"))); [exact H0|].
  intros k s (Ht & Hp & He & Hvv & Hs).
  unfold calc_vertices_weights_body.
  destruct (faces (topo s) k); simpl; split_and!; try done.
  destruct Hs as [a Ha]. rewrite lookup_alter_eq, Ha. by eexists.
Qed.

Lemma calc_weights_frame (m : Surface_mesh) :
  topo (calc_weights m) = topo m /\
  vpoint (calc_weights m) = vpoint m /\
  vvector (calc_weights m) = vvector m /\
  is_Some (escalar (calc_weights m) !! "e:weight") /\
  is_Some (vscalar (calc_weights m) !! "v:weight").
Proof.
  unfold calc_weights.
  destruct (calc_edges_weights_frame m) as (A1 & A2 & A3 & A4 & A5).
  destruct (calc_vertices_weights_frame (calc_edges_weights m))
    as (B1 & B2 & B3 & B4 & B5).
  split_and!; [congruence.. | by rewrite B3 | done].
Qed.

(** After calc_weights both weight attributes exist: asking for their
    handles adds nothing. *)
Lemma weight_handles (m : Surface_mesh) :
  vertex_property "v:weight" (s_const 0)
    (edge_property "e:weight" (s_const 0) (calc_weights m)) = calc_weights m.
Proof.
  destruct (calc_weights_frame m) as (_ & _ & _ & [a Ha] & [b Hb]).
  unfold edge_property. rewrite Ha.
  unfold vertex_property. by rewrite Hb.
Qed.

Lemma position_calc_weights (m : Surface_mesh) (v : nat) :
  position (calc_weights m) v = position m v.
Proof.
  unfold position. destruct (calc_weights_frame m) as (_ & -> & _). done.
Qed.
End WeightsFrame.


(** ** The assembled systems *)

Section SystemLemmas.
Context {N : Numerics}.

(** A loop around a vertex that sums the weights and pushes one triplet
    per halfedge. *)
Lemma ring_fold {A : Type} (w : A -> Double) (g : A -> Triplet) (l : list A)
  (a : Double) (t0 : list Triplet) :
  for_each l (fun hv '(ww, ts) => (d_add ww (w hv), ts ++ [g hv])) (a, t0)
  = (fold_left d_add (w <$> l) a, t0 ++ (g <$> l)).
Proof.
  unfold for_each. revert a t0.
  induction l as [|x l IH]; intros a t0; simpl.
  - by rewrite app_nil_r.
  - rewrite IH. by rewrite <- app_assoc.
Qed.

(** The loop over the vertices that fills the right-hand side row by row
    and appends the triplets of each row. *)
Lemma setup_fold (f : nat -> Row3) (g : nat -> list Triplet) (n k : nat) :
  k <= n ->
  for_range k (fun i '(B, ts) => (<[i := f i]> B, ts ++ g i))
    (replicate n zero3, [])
  = ((f <$> seq 0 k) ++ replicate (n - k) zero3, concat (g <$> seq 0 k)).
Proof.
  induction k as [|k IH]; intros Hk.
  - simpl. by rewrite Nat.sub_0_r.
  - rewrite for_range_S, IH by lia. f_equal.
    + rewrite seq_S, fmap_app. simpl.
      replace (n - k) with (S (n - S k)) by lia. simpl.
      rewrite insert_app_r_alt by (rewrite length_fmap, length_seq; lia).
      rewrite length_fmap, length_seq, Nat.sub_diag. simpl.
      by rewrite <- app_assoc.
    + rewrite seq_S, fmap_app, concat_app. simpl. by rewrite app_nil_r.
Qed.

Lemma filter_none (P : Triplet -> Prop) `{!forall t, Decision (P t)}
  (l : list Triplet) :
  (forall t, t ∈ l -> ~ P t) -> filter P l = [].
Proof.
  induction l as [|x l IH]; intros Hall; [done|].
  rewrite filter_cons_False by (apply Hall; left).
  apply IH. intros t Ht. apply Hall. by right.
Qed.

(** Only the triplets pushed for row [i] have row index [i]. *)
Lemma filter_rows (Q : Triplet -> Prop) `{!forall t, Decision (Q t)}
  (rows : nat -> list Triplet) (n i : nat) :
  (forall k t, t ∈ rows k -> row t = k) ->
  filter (fun t => row t = i /\ Q t) (concat (rows <$> seq 0 n))
  = if decide (i < n) then filter (fun t => row t = i /\ Q t) (rows i)
    else [].
Proof.
  intros Hrow. induction n as [|n IH].
  - simpl. by destruct (decide (i < 0)); [lia|].
  - rewrite seq_S, fmap_app, concat_app, filter_app, IH. simpl.
    rewrite app_nil_r.
    destruct (decide (i < n)) as [Hlt|Hge].
    + rewrite decide_True by lia.
      rewrite (filter_none _ (rows n)); [by rewrite app_nil_r|].
      intros t Ht [Hr _]. apply Hrow in Ht. lia.
    + destruct (decide (i < S n)) as [Hlt'|Hge']; simpl.
      * by replace n with i by lia.
      * apply filter_none. intros t Ht [Hr _]. apply Hrow in Ht. lia.
Qed.

Lemma coeff_rows (rows : nat -> list Triplet) (n i j : nat) :
  (forall k t, t ∈ rows k -> row t = k) -> i < n ->
  coeff (concat (rows <$> seq 0 n)) i j = coeff (rows i) i j.
Proof.
  intros Hrow Hi. unfold coeff.
  rewrite (filter_rows (fun t => col t = j) rows n i Hrow), decide_True by done.
  reflexivity.
Qed.

(** In the row of a vertex whose neighbours are distinct, a neighbour's
    column holds the one triplet pushed for it. *)
Lemma filter_ring (i : nat) (tv : nat -> nat) (val : nat -> Double)
  (hs : list nat) (h : nat) :
  NoDup (tv <$> hs) -> h ∈ hs ->
  filter (fun t => row t = i /\ col t = tv h)
    ((fun h' => mkTriplet i (tv h') (val h')) <$> hs)
  = [mkTriplet i (tv h) (val h)].
Proof.
  induction hs as [|x hs IH]; intros Hnd Hin; [by apply elem_of_nil in Hin|].
  rewrite fmap_cons in Hnd. apply NoDup_cons in Hnd as [Hx Hnd].
  rewrite fmap_cons.
  destruct (decide (tv x = tv h)) as [Heq|Hne].
  - rewrite filter_cons_True by done.
    rewrite filter_none.
    + apply elem_of_cons in Hin as [->|Hin]; [done|].
      exfalso. apply Hx. rewrite Heq. by apply list_elem_of_fmap_2.
    + intros t Ht [_ Hc]. apply list_elem_of_fmap in Ht as (y & -> & Hy).
      simpl in Hc. apply Hx. rewrite Heq, <- Hc. by apply list_elem_of_fmap_2.
  - rewrite filter_cons_False by (simpl; intros [_ ?]; done).
    apply IH; [done|].
    apply elem_of_cons in Hin as [->|Hin]; [done|done].
Qed.

Lemma filter_ring_none (i j : nat) (tv : nat -> nat) (val : nat -> Double)
  (hs : list nat) :
  j ∉ tv <$> hs ->
  filter (fun t => row t = i /\ col t = j)
    ((fun h' => mkTriplet i (tv h') (val h')) <$> hs) = [].
Proof.
  intros Hj. apply filter_none.
  intros t Ht [_ Hc]. apply list_elem_of_fmap in Ht as (y & -> & Hy).
  simpl in Hc. apply Hj. rewrite <- Hc. by apply list_elem_of_fmap_2.
Qed.

(** The entries of a row made of one triplet per halfedge and a diagonal
    triplet at the end. *)
Lemma coeff_row (i : nat) (tv : nat -> nat) (val : nat -> Double)
  (hs : list nat) (d : Double) :
  NoDup (tv <$> hs) -> i ∉ tv <$> hs ->
  let r := ((fun h' => mkTriplet i (tv h') (val h')) <$> hs) ++ [mkTriplet i i d] in
  (forall h, h ∈ hs -> coeff r i (tv h) = Some (val h)) /\
  coeff r i i = Some d /\
  (forall j, j <> i -> j ∉ tv <$> hs -> coeff r i j = None).
Proof.
  intros Hnd Hi r. subst r. unfold coeff. split_and!.
  - intros h Hh. rewrite filter_app, filter_ring by done.
    rewrite filter_cons_False; [done|].
    simpl. intros [_ Hc]. apply Hi. rewrite Hc. by apply list_elem_of_fmap_2.
  - rewrite filter_app, filter_ring_none by done.
    by rewrite filter_cons_True.
  - intros j Hj Hnj. rewrite filter_app, filter_ring_none by done.
    rewrite filter_cons_False; [done|]. simpl. intros [_ ?]. done.
Qed.

Lemma implicit_lhs_row_eq (timestep : Double) (m : Surface_mesh) (i : nat) :
  implicit_lhs_row timestep m i
  = ((fun h => mkTriplet i (to_vertex (topo m) h)
                 (d_mul (d_opp timestep)
                    (widen (eget "e:weight" (edge (topo m) h) m))))
       <$> halfedges (topo m) i)
    ++ [mkTriplet i i
          (d_add (d_div (d_const 1) (widen (vget "v:weight" i m)))
             (d_mul timestep
                (sum_d ((fun h => widen (eget "e:weight" (edge (topo m) h) m))
                          <$> halfedges (topo m) i))))].
Proof.
  unfold implicit_lhs_row, implicit_ring.
  rewrite (ring_fold
    (fun hv => widen (eget "e:weight" (edge (topo m) hv) m))
    (fun hv => mkTriplet i (to_vertex (topo m) hv)
       (d_mul (d_opp timestep) (widen (eget "e:weight" (edge (topo m) hv) m))))).
  reflexivity.
Qed.

Lemma implicit_setup_eq (timestep : Double) (m : Surface_mesh) :
  implicit_setup timestep m
  = (implicit_rhs_row m <$> seq 0 (n_vertices (topo m)),
     concat (implicit_lhs_row timestep m <$> seq 0 (n_vertices (topo m)))).
Proof.
  unfold implicit_setup.
  rewrite (setup_fold (implicit_rhs_row m) (implicit_lhs_row timestep m)) by done.
  by rewrite Nat.sub_diag, app_nil_r.
Qed.

Lemma implicit_lhs_row_index (timestep : Double) (m : Surface_mesh) (k : nat)
  (t : Triplet) :
  t ∈ implicit_lhs_row timestep m k -> row t = k.
Proof.
  rewrite implicit_lhs_row_eq. intros Ht.
  apply elem_of_app in Ht as [Ht|Ht].
  - apply list_elem_of_fmap in Ht as (y & -> & _). done.
  - apply list_elem_of_singleton in Ht as ->. done.
Qed.
End SystemLemmas.


(** ** implicit_smoothing *)

Section ImplicitSmoothing.
Context {N : Numerics} {E : Solvers}.

Lemma position_remove (m : Surface_mesh) (v : nat) :
  position (remove_edge_property "e:weight"
              (remove_vertex_property "v:weight" m)) v = position m v.
Proof. reflexivity. Qed.

(** The positions implicit_smoothing leaves are the rows of what the
    solver returned for the assembled system. *)
Lemma implicit_smoothing_positions (timestep : Double) (m : Surface_mesh)
  (i : nat) :
  length (vpoint m) = n_vertices (topo m) -> i < n_vertices (topo m) ->
  position (implicit_smoothing timestep m) i
  = to_point
      (X_row (solution
                (SimplicialLDLT (n_vertices (topo m))
                   (implicit_setup timestep (calc_weights m)).2
                   (implicit_setup timestep (calc_weights m)).1)) i).
Proof.
  intros Hlen Hi. unfold implicit_smoothing.
  rewrite weight_handles.
  destruct (implicit_setup timestep (calc_weights m)) as [B A] eqn:Hs. simpl.
  rewrite position_remove.
  set (X := solution (SimplicialLDLT (n_vertices (topo m)) A B)).
  destruct (set_position_loop (fun i _ => to_point (X_row X i))
              (n_vertices (topo m)) (calc_weights m))
    as (_ & _ & _ & _ & _ & Hpos & _); [done|].
  apply Hpos; [done|].
  destruct (calc_weights_frame m) as (_ & -> & _). lia.
Qed.
End ImplicitSmoothing.

(** C1. implicit_smoothing recomputes the weights and assembles, for the
    vertex i with inverse-area weight a_i, the right-hand-side row
    position(i) / a_i and a matrix row with the entry -timestep * cotan for
    each neighbour, the diagonal entry 1 / a_i + timestep * (sum of the cotan
    weights around i) and no other entry; the position of i is then
    overwritten with row i of what the solver returns for that system.  The
    neighbours of a vertex are distinct and differ from it. *)
Theorem implicit_smoothing_system {N : Numerics} {E : Solvers}
  (timestep : Double) (m : Surface_mesh) (i : nat) :
  length (vpoint m) = n_vertices (topo m) ->
  i < n_vertices (topo m) ->
  NoDup (vertices (topo m) i) ->
  i ∉ vertices (topo m) i ->
  let w := calc_weights m in
  let a_i := widen (vget "v:weight" i w) in
  let cotan h := widen (eget "e:weight" (edge (topo m) h) w) in
  let B := (implicit_setup timestep w).1 in
  let A := (implicit_setup timestep w).2 in
  let X := solution (SimplicialLDLT (n_vertices (topo m)) A B) in
  B !! i = Some (d_div (widen (px (position m i))) a_i,
                 d_div (widen (py (position m i))) a_i,
                 d_div (widen (pz (position m i))) a_i) /\
  (forall h, h ∈ halfedges (topo m) i ->
     coeff A i (to_vertex (topo m) h)
     = Some (d_mul (d_opp timestep) (cotan h))) /\
  coeff A i i
  = Some (d_add (d_div (d_const 1) a_i)
            (d_mul timestep (sum_d (cotan <$> halfedges (topo m) i)))) /\
  (forall j, j <> i -> j ∉ vertices (topo m) i -> coeff A i j = None) /\
  position (implicit_smoothing timestep m) i = to_point (X_row X i).
Proof.
  intros Hlen Hi Hnd Hself w a_i cotan B A X.
  destruct (calc_weights_frame m) as (Ht & Hp & _).
  assert (Hn : n_vertices (topo w) = n_vertices (topo m)) by (subst w; by rewrite Ht).
  subst B A X. rewrite implicit_setup_eq. simpl. rewrite Hn.
  split; [|split_and!].
  - rewrite list_lookup_fmap, lookup_seq_lt by done. simpl.
    unfold implicit_rhs_row. subst w. by rewrite position_calc_weights.
  - intros h Hh.
    rewrite coeff_rows by (done || apply implicit_lhs_row_index).
    rewrite implicit_lhs_row_eq. subst w. rewrite Ht.
    exact (proj1 (coeff_row i (to_vertex (topo m)) _ _ _ Hnd Hself) h Hh).
  - rewrite coeff_rows by (done || apply implicit_lhs_row_index).
    rewrite implicit_lhs_row_eq. subst w. rewrite Ht.
    exact (proj1 (proj2 (coeff_row i (to_vertex (topo m)) _ _ _ Hnd Hself))).
  - intros j Hj Hnj.
    rewrite coeff_rows by (done || apply implicit_lhs_row_index).
    rewrite implicit_lhs_row_eq. subst w. rewrite Ht.
    exact (proj2 (proj2 (coeff_row i (to_vertex (topo m)) _ _ _ Hnd Hself))
             j Hj Hnj).
  - rewrite implicit_smoothing_positions by done.
    subst w. by rewrite implicit_setup_eq, Hn.
Qed.

Lemma implicit_smoothing_system_witness :
  length (vpoint pyramid) = 4 /\
  coeff (implicit_setup (dbl 1) (calc_weights pyramid)).2 0 0
  = Some (S754_finite false 5850152427703678 (-50)) /\
  px (position (implicit_smoothing (E := identity_solver) (dbl 1) pyramid) 0)
  = S754_finite false 14528042 (-23).
Proof.
  pose proof (implicit_smoothing_system (N := ieee) (E := identity_solver)
                (dbl 1) pyramid 0) as H.
  destruct H as (_ & _ & Hd & _ & Hp).
  - reflexivity.
  - simpl. lia.
  - compute_done.
  - compute_done.
  - split; [reflexivity|]. split.
    + rewrite Hd. vm_compute. reflexivity.
    + rewrite Hp. vm_compute. reflexivity.
Defined.


(** ** minimal_surface *)

Section MinimalSurface.
Context {N : Numerics} {E : Solvers}.

Lemma setup_fold3 (c : nat -> Double -> Double) (f : nat -> Row3)
  (g : nat -> list Triplet) (a0 : Double) (n k : nat) :
  k <= n ->
  for_range k (fun i '(a, B, ts) => (c i a, <[i := f i]> B, ts ++ g i))
    (a0, replicate n zero3, [])
  = (for_range k c a0, (f <$> seq 0 k) ++ replicate (n - k) zero3,
     concat (g <$> seq 0 k)).
Proof.
  induction k as [|k IH]; intros Hk.
  - simpl. by rewrite Nat.sub_0_r.
  - rewrite !for_range_S, IH by lia. f_equal; [f_equal|].
    + rewrite seq_S, fmap_app. simpl.
      replace (n - k) with (S (n - S k)) by lia. simpl.
      rewrite insert_app_r_alt by (rewrite length_fmap, length_seq; lia).
      rewrite length_fmap, length_seq, Nat.sub_diag. simpl.
      by rewrite <- app_assoc.
    + rewrite seq_S, fmap_app, concat_app. simpl. by rewrite app_nil_r.
Qed.

Lemma minimal_setup_eq (m m_init : Surface_mesh) :
  (minimal_setup m m_init).1.2
  = (minimal_rhs_row m m_init <$> seq 0 (n_vertices (topo m))) /\
  (minimal_setup m m_init).2
  = concat (minimal_lhs_row m <$> seq 0 (n_vertices (topo m))).
Proof.
  unfold minimal_setup.
  rewrite (setup_fold3
    (fun i a => d_add a (d_div (d_const 1) (widen (vget "v:weight" i m))))
    (minimal_rhs_row m m_init) (minimal_lhs_row m)) by done.
  simpl. by rewrite Nat.sub_diag, app_nil_r.
Qed.

Lemma minimal_lhs_row_interior (m : Surface_mesh) (i : nat) :
  is_boundary (topo m) i = false ->
  minimal_lhs_row m i
  = ((fun h => mkTriplet i (to_vertex (topo m) h)
                 (d_opp (widen (eget "e:weight" (edge (topo m) h) m))))
       <$> halfedges (topo m) i)
    ++ [mkTriplet i i
          (sum_d ((fun h => widen (eget "e:weight" (edge (topo m) h) m))
                    <$> halfedges (topo m) i))].
Proof.
  intros Hb. unfold minimal_lhs_row, minimal_ring. rewrite Hb.
  rewrite (ring_fold
    (fun hv => widen (eget "e:weight" (edge (topo m) hv) m))
    (fun hv => mkTriplet i (to_vertex (topo m) hv)
       (d_opp (widen (eget "e:weight" (edge (topo m) hv) m))))).
  reflexivity.
Qed.

Lemma minimal_lhs_row_index (m : Surface_mesh) (k : nat) (t : Triplet) :
  t ∈ minimal_lhs_row m k -> row t = k.
Proof.
  destruct (is_boundary (topo m) k) eqn:Hb.
  - unfold minimal_lhs_row. rewrite Hb.
    intros Ht. apply list_elem_of_singleton in Ht as ->. done.
  - rewrite minimal_lhs_row_interior by done. intros Ht.
    apply elem_of_app in Ht as [Ht|Ht].
    + apply list_elem_of_fmap in Ht as (y & -> & _). done.
    + apply list_elem_of_singleton in Ht as ->. done.
Qed.

(** The identity row of a boundary vertex. *)
Lemma coeff_identity_row (i : nat) (d : Double) :
  coeff [mkTriplet i i d] i i = Some d /\
  (forall j, j <> i -> coeff [mkTriplet i i d] i j = None).
Proof.
  unfold coeff. split.
  - by rewrite filter_cons_True.
  - intros j Hj. rewrite filter_cons_False; [done|]. simpl. intros [_ ?]. done.
Qed.

(** What minimal_surface leaves: the snapshot as it was, and each position
    blended with the row the solver returned. *)
Lemma minimal_surface_positions (mp : MeshProcessing) (i : nat) :
  length (vpoint (mesh_ mp)) = n_vertices (topo (mesh_ mp)) ->
  i < n_vertices (topo (mesh_ mp)) ->
  let w := calc_weights (mesh_ mp) in
  let X := solution (SparseLU (n_vertices (topo (mesh_ mp)))
                       (minimal_setup w (mesh_init_ mp)).2
                       (minimal_setup w (mesh_init_ mp)).1.2) in
  position (mesh_ (minimal_surface mp).1) i
  = blend_point (X_row X i) (position (mesh_ mp) i) /\
  mesh_init_ (minimal_surface mp).1 = mesh_init_ mp.
Proof.
  intros Hlen Hi w X. subst w X. unfold minimal_surface.
  rewrite weight_handles.
  destruct (minimal_setup (calc_weights (mesh_ mp)) (mesh_init_ mp))
    as [[area rhs] L] eqn:Hs. simpl. split; [|done].
  rewrite position_remove.
  set (X := solution (SparseLU (n_vertices (topo (mesh_ mp))) L rhs)).
  destruct (set_position_loop
              (fun i s => blend_point (X_row X i) (position s i))
              (n_vertices (topo (mesh_ mp))) (calc_weights (mesh_ mp)))
    as (_ & _ & _ & _ & _ & Hpos & _).
  { intros k m1 m2 (_ & _ & _ & _ & Hp). by rewrite Hp. }
  unfold blend_solution. rewrite Hpos.
  - by rewrite position_calc_weights.
  - done.
  - destruct (calc_weights_frame (mesh_ mp)) as (_ & -> & _). lia.
Qed.
End MinimalSurface.

(** What minimal_surface assembles and what it stores.  It recomputes the
    weights and assembles, for
    a boundary vertex, the identity row (diagonal 1, nothing else) with the
    vertex's position in the copy made at load time as right-hand side, and
    for an interior vertex the row with -cotan for each neighbour, the sum
    of the cotan weights on the diagonal, nothing else, and the right-hand
    side 0.  Each coordinate p of a position then becomes
    p + 1 * (x - p), computed in double precision and stored as a float, x
    being the coordinate the solver returned (in an arithmetic where this
    is x, as over the real numbers, the position is overwritten with the
    solution); the copy made at load time stays as it was. *)
Theorem minimal_surface_system {N : Numerics} {E : Solvers}
  (mp : MeshProcessing) (i : nat) :
  length (vpoint (mesh_ mp)) = n_vertices (topo (mesh_ mp)) ->
  i < n_vertices (topo (mesh_ mp)) ->
  let m := mesh_ mp in
  let w := calc_weights m in
  let cotan h := widen (eget "e:weight" (edge (topo m) h) w) in
  let rhs := (minimal_setup w (mesh_init_ mp)).1.2 in
  let L := (minimal_setup w (mesh_init_ mp)).2 in
  let X := solution (SparseLU (n_vertices (topo m)) L rhs) in
  (is_boundary (topo m) i = true ->
     coeff L i i = Some (d_const 1) /\
     (forall j, j <> i -> coeff L i j = None) /\
     rhs !! i = Some (widen (px (position (mesh_init_ mp) i)),
                      widen (py (position (mesh_init_ mp) i)),
                      widen (pz (position (mesh_init_ mp) i)))) /\
  (is_boundary (topo m) i = false ->
     NoDup (vertices (topo m) i) -> i ∉ vertices (topo m) i ->
     (forall h, h ∈ halfedges (topo m) i ->
        coeff L i (to_vertex (topo m) h) = Some (d_opp (cotan h))) /\
     coeff L i i = Some (sum_d (cotan <$> halfedges (topo m) i)) /\
     (forall j, j <> i -> j ∉ vertices (topo m) i -> coeff L i j = None) /\
     rhs !! i = Some (d_const 0, d_const 0, d_const 0)) /\
  position (mesh_ (minimal_surface mp).1) i
  = blend_point (X_row X i) (position m i) /\
  (BlendExact N ->
   position (mesh_ (minimal_surface mp).1) i = to_point (X_row X i)) /\
  mesh_init_ (minimal_surface mp).1 = mesh_init_ mp.
Proof.
  intros Hlen Hi m w cotan rhs L X.
  destruct (calc_weights_frame m) as (Ht & Hp & _).
  assert (Hn : n_vertices (topo w) = n_vertices (topo m))
    by (subst w; by rewrite Ht).
  destruct (minimal_setup_eq w (mesh_init_ mp)) as [Hrhs HL].
  assert (Hrow : rhs !! i = Some (minimal_rhs_row w (mesh_init_ mp) i)).
  { subst rhs. rewrite Hrhs, Hn, list_lookup_fmap, lookup_seq_lt by done.
    reflexivity. }
  assert (Hco : forall j, coeff L i j = coeff (minimal_lhs_row w i) i j).
  { intros j. subst L. rewrite HL, Hn.
    apply coeff_rows; [apply minimal_lhs_row_index | done]. }
  split; [|split].
  - intros Hb. split_and!.
    + rewrite Hco. unfold minimal_lhs_row. subst w. rewrite Ht. fold m.
      rewrite Hb. apply coeff_identity_row.
    + intros j Hj. rewrite Hco. unfold minimal_lhs_row. subst w.
      rewrite Ht. fold m. rewrite Hb. by apply coeff_identity_row.
    + etrans; [exact Hrow|]. unfold minimal_rhs_row. subst w. rewrite Ht.
      fold m. by rewrite Hb.
  - intros Hb Hnd Hself.
    assert (Hb' : is_boundary (topo w) i = false)
      by (subst w; rewrite Ht; exact Hb).
    split_and!.
    + intros h Hh. rewrite Hco, minimal_lhs_row_interior by done.
      subst w. rewrite Ht. fold m.
      exact (proj1 (coeff_row i (to_vertex (topo m)) _ _ _ Hnd Hself) h Hh).
    + rewrite Hco, minimal_lhs_row_interior by done.
      subst w. rewrite Ht. fold m.
      exact (proj1 (proj2 (coeff_row i (to_vertex (topo m)) _ _ _ Hnd Hself))).
    + intros j Hj Hnj. rewrite Hco, minimal_lhs_row_interior by done.
      subst w. rewrite Ht. fold m.
      exact (proj2 (proj2 (coeff_row i (to_vertex (topo m)) _ _ _ Hnd Hself))
               j Hj Hnj).
    + etrans; [exact Hrow|]. unfold minimal_rhs_row. by rewrite Hb'.
  - destruct (minimal_surface_positions mp i Hlen Hi) as [Hpos Hinit].
    split_and!; [exact Hpos | | exact Hinit].
    intros B. etrans; [exact Hpos|].
    unfold blend_point, to_point. by rewrite !blend_exact.
Qed.

Lemma reals_blend_exact : BlendExact reals.
Proof.
  intros x p. unfold blend. simpl. unfold Q2R. simpl. lra.
Qed.

Lemma minimal_surface_system_witness :
  length (vpoint (mesh_ pyramid_loaded)) = 4 /\
  coeff (minimal_setup (calc_weights pyramid) pyramid).2 1 1 = Some (dbl 1) /\
  position (mesh_ (minimal_surface (E := identity_solver) pyramid_loaded).1) 1
  = pt 1 0 0.
Proof.
  pose proof (minimal_surface_system (N := ieee) (E := identity_solver)
                pyramid_loaded 1) as H.
  destruct H as (Hb & _ & Hp & _).
  - reflexivity.
  - simpl. lia.
  - split; [reflexivity|]. split.
    + apply Hb. reflexivity.
    + etrans; [exact Hp | reflexivity].
Defined.

(** The update on [stretched].  Its three vertices are boundary vertices:
    the system is the identity, the solver returns the positions
    of the load-time copy, (1,0,0) for vertex 1.  From its position
    (2^54,0,0) the update 2^54 + 1 * (1 - 2^54) gives 0 in double precision:
    vertex 1 ends at (0,0,0). *)
Lemma minimal_surface_not_overwritten :
  (forall i j, i < 3 -> j < 3 ->
     coeff (minimal_setup (calc_weights (mesh_ stretched))
              (mesh_init_ stretched)).2 i j
     = if decide (i = j) then Some (dbl 1) else None) /\
  nth 1 (solution (SparseLU (Solvers := identity_solver) 3
                     (minimal_setup (calc_weights (mesh_ stretched))
                        (mesh_init_ stretched)).2
                     (minimal_setup (calc_weights (mesh_ stretched))
                        (mesh_init_ stretched)).1.2)) zero3
  = (dbl 1, dbl 0, dbl 0) /\
  position (mesh_ (minimal_surface (E := identity_solver) stretched).1) 1
  = pt 0 0 0 /\
  ~ overwritten_with_solution (E := identity_solver) stretched.
Proof.
  split_and!.
  - intros i j Hi Hj.
    destruct i as [|[|[|i]]]; [| | |lia];
      (destruct j as [|[|[|j]]]; [| | |lia]); vm_compute; reflexivity.
  - reflexivity.
  - reflexivity.
  - intros H. assert (H1 : 1 < 3) by lia. specialize (H 1 H1).
    apply (f_equal px) in H. vm_compute in H. discriminate H.
Qed.

(** ** minimal_surface does not copy the solution *)

(** C2.  The last loop of minimal_surface, commented "copy solution", does
    not overwrite the positions with the solution: it adds 1. * (X - p) to
    each coordinate p, where the last loop of implicit_smoothing assigns X.
    For a vertex whose x-coordinate is 1 and for which the solver returns
    2^-60, X - p rounds to -1 in double precision and the x-coordinate
    stored is 0, not 2^-60: the position is not the solution.
    implicit_smoothing stores what its solver returns. *)
Theorem minimal_surface_not_copied {E : @Solvers ieee}
  (timestep : @Double ieee) (mp : @MeshProcessing ieee) (i : nat) :
  let m := mesh_ mp in
  let n := n_vertices (topo m) in
  let w := calc_weights m in
  let X := solution (SparseLU n (minimal_setup w (mesh_init_ mp)).2
                       (minimal_setup w (mesh_init_ mp)).1.2) in
  let X' := solution (SimplicialLDLT n (implicit_setup timestep w).2
                        (implicit_setup timestep w).1) in
  length (vpoint m) = n -> i < n ->
  px (position m i) = IEEE.of_Q 24 128 1 ->
  (X_row X i).1.1 = dbl (1 # 1152921504606846976) ->
  px (to_point (X_row X i)) = S754_finite false 8388608 (-83) /\
  px (position (mesh_ (minimal_surface mp).1) i) = S754_zero false /\
  position (mesh_ (minimal_surface mp).1) i <> to_point (X_row X i) /\
  position (implicit_smoothing timestep m) i = to_point (X_row X' i).
Proof.
  intros m n w X X' Hlen Hi Hp Hx.
  destruct (minimal_surface_positions mp i Hlen Hi) as [Hpos _].
  fold m w n in Hpos. fold X in Hpos.
  assert (H1 : px (to_point (X_row X i)) = S754_finite false 8388608 (-83)).
  { unfold to_point. cbn [px]. rewrite Hx. vm_compute. reflexivity. }
  assert (H2 : px (position (mesh_ (minimal_surface mp).1) i) = S754_zero false).
  { rewrite Hpos. unfold blend_point. cbn [px]. rewrite Hx, Hp.
    vm_compute. reflexivity. }
  split_and!; [exact H1 | exact H2 | |].
  - intros Heq. apply (f_equal px) in Heq. rewrite H1, H2 in Heq.
    discriminate Heq.
  - by apply implicit_smoothing_positions.
Qed.

Lemma minimal_surface_not_copied_witness :
  mesh_ thin_plate = mesh_init_ thin_plate /\
  px (position (mesh_ thin_plate) 0) = IEEE.of_Q 24 128 1 /\
  (X_row (solution
            (SparseLU (Solvers := plane_solver) 4
               (minimal_setup (calc_weights (mesh_ thin_plate))
                  (mesh_init_ thin_plate)).2
               (minimal_setup (calc_weights (mesh_ thin_plate))
                  (mesh_init_ thin_plate)).1.2)) 0).1.1
  = dbl (1 # 1152921504606846976) /\
  px (position (mesh_ (minimal_surface (E := plane_solver) thin_plate).1) 0)
  = S754_zero false /\
  px (position (implicit_smoothing (E := plane_solver) (dbl 1)
                  (mesh_ thin_plate)) 0)
  = S754_finite false 8388608 (-83).
Proof.
  assert (Hx : (X_row (solution
            (SparseLU (Solvers := plane_solver) 4
               (minimal_setup (calc_weights (mesh_ thin_plate))
                  (mesh_init_ thin_plate)).2
               (minimal_setup (calc_weights (mesh_ thin_plate))
                  (mesh_init_ thin_plate)).1.2)) 0).1.1
               = dbl (1 # 1152921504606846976)).
  { vm_compute. reflexivity. }
  pose proof (minimal_surface_not_copied (E := plane_solver) (dbl 1)
                thin_plate 0) as H.
  cbv zeta in H.
  destruct H as (_ & Hz & _ & Hi).
  - reflexivity.
  - simpl. lia.
  - reflexivity.
  - exact Hx.
  - split; [reflexivity|]. split; [reflexivity|]. split; [exact Hx|].
    split; [exact Hz|]. rewrite Hi. vm_compute. reflexivity.
Defined.


(** ** Sums of negated weights *)

Section Rounding.
Variables prec emax : Z.

(** Rounding is symmetric: the sign only labels the result. *)
Lemma binary_round_aux_opp (m : Z) (e : Z) (l : location) :
  binary_round_aux prec emax true m e l
  = SFopp (binary_round_aux prec emax false m e l).
Proof.
  unfold binary_round_aux.
  destruct (shr_fexp prec emax m e l) as [mrs' e'].
  destruct (shr_fexp prec emax _ e' loc_Exact) as [mrs'' e''].
  destruct (shr_m mrs''); [done| |done].
  by destruct (Z.leb _ _).
Qed.

Lemma binary_round_opp (m : positive) (e : Z) :
  binary_round prec emax true m e = SFopp (binary_round prec emax false m e).
Proof.
  unfold binary_round. destruct (shl_align _ _ _) as [mz ez].
  apply binary_round_aux_opp.
Qed.

Lemma binary_round_unsigned (m : positive) (e : Z) :
  ieee_unsigned (binary_round prec emax false m e).
Proof.
  unfold binary_round. destruct (shl_align _ _ _) as [mz ez].
  unfold binary_round_aux.
  destruct (shr_fexp prec emax _ ez loc_Exact) as [mrs' e'].
  destruct (shr_fexp prec emax _ e' loc_Exact) as [mrs'' e''].
  destruct (shr_m mrs''); [done| |done].
  by destruct (Z.leb _ _).
Qed.

Lemma SFadd_unsigned (x y : spec_float) :
  ieee_unsigned x -> ieee_unsigned y -> ieee_unsigned (SFadd prec emax x y).
Proof.
  destruct x as [sx|sx| |sx mx ex], y as [sy|sy| |sy my ey]; simpl;
    intros Hx Hy; subst; try done.
  apply binary_round_unsigned.
Qed.

Lemma SFadd_opp (x y : spec_float) :
  ieee_unsigned x -> ieee_unsigned y ->
  SFadd prec emax (SFopp x) (SFopp y) = SFopp (SFadd prec emax x y).
Proof.
  destruct x as [sx|sx| |sx mx ex], y as [sy|sy| |sy my ey]; simpl;
    intros Hx Hy; subst; try done.
  apply binary_round_opp.
Qed.
End Rounding.

Lemma ieee_positive_unsigned (x : spec_float) :
  ieee_positive x -> ieee_unsigned x.
Proof.
  unfold ieee_positive. destruct x as [s|s| |s m e]; try destruct s; done.
Qed.

Lemma SFadd_zero_positive (x : spec_float) :
  ieee_positive x -> SFadd 53 1024 (S754_zero false) x = x.
Proof. unfold ieee_positive. destruct x as [s|s| |s m e]; done. Qed.

Lemma SFadd_zero_negative (x : spec_float) :
  ieee_positive x -> SFadd 53 1024 (S754_zero false) (SFopp x) = SFopp x.
Proof. unfold ieee_positive. destruct x as [s|s| |s m e]; done. Qed.

Lemma ieee_sum_laws : SumLaws ieee ieee_positive ieee_unsigned.
Proof.
  split.
  - exact ieee_positive_unsigned.
  - exact SFadd_zero_positive.
  - exact SFadd_zero_negative.
  - exact (SFadd_unsigned 53 1024).
  - exact (SFadd_opp 53 1024).
Qed.

Lemma Q2R_zero : Q2R 0 = 0%R.
Proof. unfold Q2R. simpl. lra. Qed.

Lemma reals_sum_laws : SumLaws reals reals_positive reals_unsigned.
Proof.
  split; unfold reals_positive, reals_unsigned; simpl; intros; try done.
  - rewrite Q2R_zero. lra.
  - rewrite Q2R_zero. lra.
  - lra.
Qed.

Section RowSums.
Context {N : Numerics} {pos uns : Double -> Prop} {S : SumLaws N pos uns}.

Lemma fold_opp (l : list Double) (a : Double) :
  uns a -> Forall uns l ->
  fold_left d_add (d_opp <$> l) (d_opp a) = d_opp (fold_left d_add l a).
Proof.
  revert a. induction l as [|x l IH]; intros a Ha Hl; [done|].
  apply Forall_cons in Hl as [Hx Hl]. simpl.
  rewrite opp_add by done. apply IH; [by apply add_unsigned | done].
Qed.

(** Negating positive terms negates their sum, when there is one. *)
Lemma sum_d_opp (l : list Double) :
  l <> [] -> Forall pos l ->
  sum_d (d_opp <$> l) = d_opp (sum_d l).
Proof.
  destruct l as [|x l]; [done|]. intros _ Hl.
  apply Forall_cons in Hl as [Hx Hl]. unfold sum_d.
  rewrite fmap_cons. simpl.
  rewrite (add_zero_pos x), (add_zero_neg x) by done.
  apply fold_opp; [by apply positive_unsigned|].
  eapply Forall_impl; [exact Hl|]. apply positive_unsigned.
Qed.
End RowSums.

Lemma off_diagonal_interior {N : Numerics} (m m_init : Surface_mesh) (i : nat) :
  i < n_vertices (topo m) ->
  is_boundary (topo m) i = false ->
  i ∉ vertices (topo m) i ->
  off_diagonal (minimal_setup m m_init).2 i
  = d_opp <$> ((fun h => widen (eget "e:weight" (edge (topo m) h) m))
                 <$> halfedges (topo m) i).
Proof.
  intros Hi Hb Hself. unfold off_diagonal.
  rewrite (proj2 (minimal_setup_eq m m_init)).
  rewrite (filter_rows (fun t => col t <> i) (minimal_lhs_row m)
             (n_vertices (topo m)) i (minimal_lhs_row_index m)).
  rewrite decide_True by done.
  rewrite minimal_lhs_row_interior by done.
  rewrite filter_app, filter_cons_False, filter_nil, app_nil_r
    by (simpl; intros [_ ?]; done).
  rewrite <- list_fmap_compose.
  assert (Hall : forall l : list nat, (forall h, h ∈ l -> to_vertex (topo m) h <> i) ->
    value <$> filter (fun t => row t = i /\ col t <> i)
      ((fun h => mkTriplet i (to_vertex (topo m) h)
                   (d_opp (widen (eget "e:weight" (edge (topo m) h) m)))) <$> l)
    = (d_opp ∘ (fun h => widen (eget "e:weight" (edge (topo m) h) m))) <$> l).
  { induction l as [|x l IH]; intros Hl; [done|].
    rewrite fmap_cons, filter_cons_True by (split; [done | apply Hl; left]).
    rewrite !fmap_cons. f_equal. apply IH. intros h Hh. apply Hl. by right. }
  apply Hall. intros h Hh Heq. apply Hself.
  unfold vertices. apply list_elem_of_fmap. by exists h.
Qed.

(** C3, amended.  In the system minimal_surface assembles, the row of an
    interior vertex whose cotangent weights are positive sums to zero: its
    off-diagonal entries sum to the negative of its diagonal entry.  (The
    rows of implicit_smoothing need not: their diagonal also carries the
    term 1 / a_i.) *)
Theorem minimal_surface_row_sum {N : Numerics} {pos uns : Double -> Prop}
  {S : SumLaws N pos uns} (mp : MeshProcessing) (i : nat) :
  let m := mesh_ mp in
  let w := calc_weights m in
  i < n_vertices (topo m) ->
  is_boundary (topo m) i = false ->
  halfedges (topo m) i <> [] ->
  i ∉ vertices (topo m) i ->
  (forall h, h ∈ halfedges (topo m) i ->
     pos (widen (eget "e:weight" (edge (topo m) h) w))) ->
  row_sums_to_zero (minimal_setup w (mesh_init_ mp)).2 i.
Proof.
  intros m w Hi Hb Hne Hself Hpos.
  destruct (calc_weights_frame m) as (Ht & _).
  assert (Hi' : i < n_vertices (topo w)) by (subst w; by rewrite Ht).
  assert (Hb' : is_boundary (topo w) i = false) by (subst w; by rewrite Ht).
  assert (Hself' : i ∉ vertices (topo w) i) by (subst w; by rewrite Ht).
  exists (sum_d ((fun h => widen (eget "e:weight" (edge (topo w) h) w))
                   <$> halfedges (topo w) i)).
  split.
  - rewrite (proj2 (minimal_setup_eq w (mesh_init_ mp))).
    rewrite coeff_rows by (done || apply minimal_lhs_row_index).
    rewrite minimal_lhs_row_interior by done.
    unfold coeff. rewrite filter_app, filter_cons_True by done.
    rewrite filter_ring_none; [done|]. exact Hself'.
  - rewrite off_diagonal_interior by done.
    apply sum_d_opp.
    + subst w. rewrite Ht. fold m. intros Hnil.
      apply fmap_nil_inv in Hnil. done.
    + apply Forall_fmap, Forall_forall. intros h Hh. simpl.
      subst w. rewrite Ht in Hh |- *. by apply Hpos.
Qed.

Lemma minimal_surface_row_sum_witness :
  row_sums_to_zero
    (minimal_setup (calc_weights pyramid) (mesh_init_ pyramid_loaded)).2 0.
Proof.
  apply (minimal_surface_row_sum (S := ieee_sum_laws) pyramid_loaded 0).
  - simpl. lia.
  - reflexivity.
  - discriminate.
  - compute_done.
  - intros h Hh. simpl in Hh.
    repeat (apply elem_of_cons in Hh as [->|Hh]; [reflexivity|]).
    by apply elem_of_nil in Hh.
Defined.

(** C3, as stated, fails for implicit_smoothing.  All six cotangent weights
    of [pyramid] are positive, and row 0, of its interior vertex, does not
    sum to zero in the system assembled for the timestep 1. *)
Lemma implicit_smoothing_row_sum_fails :
  (forall e, e < 6 ->
     SFltb (S754_zero false) (eget "e:weight" e (calc_weights pyramid)) = true) /\
  is_boundary (topo pyramid) 0 = false /\
  ~ row_sums_to_zero (implicit_setup (dbl 1) (calc_weights pyramid)).2 0.
Proof.
  split_and!.
  - intros e He.
    do 6 (destruct e as [|e]; [vm_compute; reflexivity|]). lia.
  - reflexivity.
  - intros (d & Hd & Hs).
    vm_compute in Hd. injection Hd as <-.
    vm_compute in Hs. discriminate Hs.
Qed.


(** ** A solver that fails *)

(** C4.  Neither operation surfaces a failure of the solver or keeps the
    positions when it fails: when [info()] is not Success after the
    factorization or after [solve], implicit_smoothing (which never looks at
    it) still copies the matrix [solve] returned into the positions, and
    minimal_surface, after printing a message, still blends it into them;
    both return normally. *)
Theorem solver_failure_ignored {N : Numerics} {E : Solvers}
  (timestep : Double) (mp : MeshProcessing) (i : nat) :
  let m := mesh_ mp in
  let n := n_vertices (topo m) in
  let w := calc_weights m in
  let ldlt := SimplicialLDLT n (implicit_setup timestep w).2
                (implicit_setup timestep w).1 in
  let lu := SparseLU n (minimal_setup w (mesh_init_ mp)).2
              (minimal_setup w (mesh_init_ mp)).1.2 in
  length (vpoint m) = n -> i < n ->
  (info_compute ldlt <> Success \/ info_solve ldlt <> Success ->
     position (implicit_smoothing timestep m) i
     = to_point (X_row (solution ldlt) i)) /\
  (info_compute lu <> Success \/ info_solve lu <> Success ->
     position (mesh_ (minimal_surface mp).1) i
     = blend_point (X_row (solution lu) i) (position m i) /\
     (Printf "linear solver init failed." ∈ (minimal_surface mp).2 \/
      Printf "linear solver failed." ∈ (minimal_surface mp).2)).
Proof.
  intros m n w ldlt lu Hlen Hi. split.
  - intros _. by apply implicit_smoothing_positions.
  - intros Hfail. split.
    + by apply minimal_surface_positions.
    + unfold minimal_surface. rewrite weight_handles.
      fold m. fold w. fold n.
      destruct (minimal_setup w (mesh_init_ mp)) as [[area rhs] L] eqn:Hs.
      simpl in lu. fold lu. simpl.
      destruct Hfail as [Hfail|Hfail].
      * left. destruct (info_compute lu); [done| | |];
          destruct (info_solve lu); simpl;
          apply list_elem_of_further, list_elem_of_here.
      * right. destruct (info_solve lu); [done| | |];
          destruct (info_compute lu); simpl;
          first [ apply list_elem_of_further, list_elem_of_here
                | apply list_elem_of_further, list_elem_of_further,
                    list_elem_of_here ].
Qed.

Lemma solver_failure_ignored_witness :
  position (mesh_ pyramid_loaded) 0 = pt 1 1 1 /\
  position (implicit_smoothing (E := failed_solver) (dbl 1)
              (mesh_ pyramid_loaded)) 0
  = pt 0 0 0 /\
  position (mesh_ (minimal_surface (E := failed_solver) pyramid_loaded).1) 0
  = pt 0 0 0.
Proof.
  pose proof (solver_failure_ignored (N := ieee) (E := failed_solver)
                (dbl 1) pyramid_loaded 0) as H.
  destruct H as [Hi Hm].
  - reflexivity.
  - simpl. lia.
  - split; [reflexivity|]. split.
    + rewrite Hi by (left; discriminate). reflexivity.
    + destruct Hm as [Hm _]; [left; discriminate|]. rewrite Hm. reflexivity.
Defined.


(** ** The vertex weights *)

(** A vertex without faces is skipped: its weight stays what it was, the
    default 0 when the attribute is new. *)
Lemma calc_vertices_weights_isolated {N : Numerics} (m : Surface_mesh)
  (v : nat) :
  faces (topo m) v = [] ->
  vget "v:weight" v (calc_vertices_weights m) = vget "v:weight" v m.
Proof.
  intros Hf. unfold calc_vertices_weights.
  set (m0 := vertex_property "v:weight" (s_const 0) m).
  assert (H0 : topo m0 = topo m /\ vget "v:weight" v m0 = vget "v:weight" v m).
  { split; [|apply vget_vertex_property].
    subst m0. unfold vertex_property. by destruct (vscalar m !! "v:weight"). }
  replace (n_vertices (topo m0)) with (n_vertices (topo m))
    by (by rewrite (proj1 H0)).
  apply (for_range_preserves (fun s =>
    topo s = topo m /\ vget "v:weight" v s = vget "v:weight" v m)); [exact H0|].
  intros k s [Ht Hv]. unfold calc_vertices_weights_body.
  destruct (decide (k = v)) as [->|Hne].
  - rewrite Ht, Hf. done.
  - destruct (faces (topo s) k); [done|]. split; [done|].
    rewrite vget_vset_other by done. exact Hv.
Qed.

(** C5.  calc_vertices_weights multiplies each triangle's area by 0.3333f,
    not by one third.  On a single triangle of area 3 the weight of a vertex
    is 8389447 * 2^-24 (about 0.50005), while 0.5 divided by one third of
    the area is 0.5.  The vertex without faces is left at the default 0. *)
Theorem calc_vertices_weights_third :
  vget "v:weight" 0 (calc_vertices_weights right_triangle)
  = S754_finite false 8389447 (-24) /\
  third_area_weight right_triangle 0 = S754_finite false 8388608 (-24) /\
  vget "v:weight" 0 (calc_vertices_weights right_triangle)
  <> third_area_weight right_triangle 0 /\
  vget "v:weight" 3 (calc_vertices_weights right_triangle_and_point)
  = S754_zero false.
Proof.
  split_and!.
  - vm_compute. reflexivity.
  - vm_compute. reflexivity.
  - vm_compute. discriminate.
  - rewrite calc_vertices_weights_isolated by reflexivity.
    vm_compute. reflexivity.
Qed.


(** ** uniform_smooth *)

Section UniformSmooth.
Context {N : Numerics}.

Lemma uniform_ring_fold (m : Surface_mesh) (v : nat) (l : list nat)
  (p0 : Point) (w0 : nat) :
  for_each l
    (fun vv '(laplacian, w) =>
       (vadd laplacian (vsub (position m vv) (position m v)), S w))
    (p0, w0)
  = (for_each l
       (fun vv laplacian =>
          vadd laplacian (vsub (position m vv) (position m v))) p0,
     w0 + length l).
Proof.
  unfold for_each. revert p0 w0.
  induction l as [|x l IH]; intros p0 w0; simpl.
  - by rewrite Nat.add_0_r.
  - rewrite IH. f_equal. lia.
Qed.

Lemma uniform_laplacian_eq (m : Surface_mesh) (v : nat) :
  uniform_laplacian m v
  = if is_boundary (topo m) v then Point1 (narrow (d_const 0))
    else vscale (vdiv (displacement_sum m v)
                   (s_of_nat (length (vertices (topo m) v))))
           (narrow (d_const (1 # 2))).
Proof.
  unfold uniform_laplacian. destruct (is_boundary (topo m) v); [done|]. simpl.
  by rewrite uniform_ring_fold.
Qed.

(** Staging then committing: every position becomes what [g] computes
    from the state before the two loops. *)
Lemma stage_commit (name : string) (g : nat -> Surface_mesh -> Point)
  (s : Surface_mesh) :
  (forall v m1 m2, topo m1 = topo m2 -> vpoint m1 = vpoint m2 ->
     vscalar m1 = vscalar m2 -> escalar m1 = escalar m2 -> g v m1 = g v m2) ->
  smooth_state name (n_vertices (topo s)) (topo s) s ->
  let s' := for_range (n_vertices (topo s))
              (fun v m => set_position v (pget name v m) m)
              (for_range (n_vertices (topo s))
                 (fun v m => pset name v (g v m) m) s) in
  smooth_state name (n_vertices (topo s)) (topo s) s' /\
  vscalar s' = vscalar s /\ escalar s' = escalar s /\
  (forall name', name' <> name -> vvector s' !! name' = vvector s !! name') /\
  forall v, v < n_vertices (topo s) -> position s' v = g v s.
Proof.
  intros Hg (_ & Hlen & a & Ha & Hla) s'. subst s'.
  destruct (pset_loop name g (n_vertices (topo s)) a s Hg Ha)
    as (Ht1 & Hp1 & Hs1 & He1 & Ho1 & (a1 & Ha1 & Hl1) & Hg1).
  set (s1 := for_range (n_vertices (topo s))
               (fun v m => pset name v (g v m) m) s) in *.
  destruct (set_position_loop (fun i m => pget name i m)
              (n_vertices (topo s)) s1)
    as (Ht2 & Hs2 & He2 & Hv2 & Hl2 & Hpos & _).
  { intros i m1 m2 (_ & _ & _ & Hv & _). unfold pget. by rewrite Hv. }
  split_and!.
  - split_and!; [congruence | by rewrite Hl2, Hp1 |].
    exists a1. split; [by rewrite Hv2 | congruence].
  - congruence.
  - congruence.
  - intros name' Hne. rewrite Hv2. by apply Ho1.
  - intros v Hv. rewrite Hpos by (done || (rewrite Hp1; lia)).
    apply Hg1; [done | lia].
Qed.

(** One iteration: every position becomes the old position plus the
    displacement computed from the old positions. *)
Lemma uniform_smooth_iter_spec (s : Surface_mesh) :
  smooth_state "v:new_positions" (n_vertices (topo s)) (topo s) s ->
  smooth_state "v:new_positions" (n_vertices (topo s)) (topo s)
    (uniform_smooth_iter s) /\
  vvector (uniform_smooth_iter s) !! "v:old_pos" = vvector s !! "v:old_pos" /\
  forall v, v < n_vertices (topo s) ->
    position (uniform_smooth_iter s) v
    = vadd (position s v) (uniform_laplacian s v).
Proof.
  intros Hs.
  destruct (stage_commit "v:new_positions"
              (fun v m => vadd (position m v) (uniform_laplacian m v)) s)
    as (H1 & _ & _ & H2 & H3); [|done|].
  { intros v m1 m2 Ht Hp _ _.
    unfold uniform_laplacian, position. by rewrite Ht, Hp. }
  unfold uniform_smooth_iter, uniform_smooth_stage, uniform_smooth_commit.
  assert (Ht : topo (for_range (n_vertices (topo s))
                 (fun v m => pset "v:new_positions" v
                    (vadd (position m v) (uniform_laplacian m v)) m) s)
               = topo s).
  { apply (for_range_preserves (fun m => topo m = topo s)); done. }
  rewrite Ht. split_and!; [exact H1 | by apply H2 | exact H3].
Qed.

(** The same for smooth, whose iteration first recomputes the edge
    weights. *)
Lemma smooth_iter_spec (s : Surface_mesh) :
  smooth_state "v:new_pos" (n_vertices (topo s)) (topo s) s ->
  smooth_state "v:new_pos" (n_vertices (topo s)) (topo s) (smooth_iter s) /\
  vvector (smooth_iter s) !! "v:old_pos" = vvector s !! "v:old_pos".
Proof.
  intros (_ & Hlen & a & Ha & Hla).
  destruct (calc_edges_weights_frame s) as (Ht & Hp & Hv & Hvv & _).
  destruct (stage_commit "v:new_pos"
              (fun v m => vadd (position m v) (cotan_laplacian m v))
              (calc_edges_weights s))
    as (H1 & _ & _ & H2 & _).
  { intros v m1 m2 Ht' Hp' _ He'.
    unfold cotan_laplacian, position, eget. by rewrite Ht', Hp', He'. }
  { rewrite Ht. split_and!; [done | by rewrite Hp |].
    exists a. by rewrite Hvv. }
  unfold smooth_iter, smooth_stage, smooth_commit.
  assert (Ht' : topo (for_range (n_vertices (topo (calc_edges_weights s)))
                 (fun v m => pset "v:new_pos" v
                    (vadd (position m v) (cotan_laplacian m v)) m)
                 (calc_edges_weights s))
               = topo (calc_edges_weights s)).
  { apply (for_range_preserves
             (fun m => topo m = topo (calc_edges_weights s))); done. }
  rewrite Ht'. rewrite Ht in H1, H2 |- *. split; [exact H1|].
  rewrite H2 by done. by rewrite Hvv.
Qed.
End UniformSmooth.

Lemma uniform_smooth_state {N : Numerics} (m : Surface_mesh) (k : nat) :
  length (vpoint m) = n_vertices (topo m) ->
  (forall a, vvector m !! "v:new_positions" = Some a ->
     length a = n_vertices (topo m)) ->
  smooth_state "v:new_positions" (n_vertices (topo m)) (topo m)
    (uniform_smooth k m) /\
  vvector (uniform_smooth k m) !! "v:old_pos" = vvector m !! "v:old_pos".
Proof.
  intros Hlen Hattr. unfold uniform_smooth.
  set (m0 := vertex_property_point "v:new_positions" origin m).
  assert (H0 : smooth_state "v:new_positions" (n_vertices (topo m)) (topo m) m0
               /\ vvector m0 !! "v:old_pos" = vvector m !! "v:old_pos").
  { subst m0. unfold vertex_property_point, smooth_state.
    destruct (vvector m !! "v:new_positions") as [a|] eqn:Ha; simpl.
    - split_and!; try done. exists a. split; [done | by apply Hattr].
    - split_and!; try done.
      + eexists. rewrite lookup_insert_eq. split; [done|].
        by rewrite length_replicate.
      + by rewrite lookup_insert_ne. }
  apply (Nat_iter_preserves (fun s =>
    smooth_state "v:new_positions" (n_vertices (topo m)) (topo m) s /\
    vvector s !! "v:old_pos" = vvector m !! "v:old_pos")); [exact H0|].
  intros s [Hs Ho].
  assert (Ht : topo s = topo m) by apply Hs.
  destruct (uniform_smooth_iter_spec s) as (Hs' & Ho' & _).
  { by rewrite Ht. }
  rewrite Ht in Hs'. split; [exact Hs' | congruence].
Qed.

Lemma ieee_add_zero : AddZero ieee.
Proof.
  intros x. unfold same_number.
  destruct x as [[|]| | |]; simpl; auto.
Qed.

Lemma reals_add_zero : AddZero reals.
Proof.
  intros x. left. simpl. rewrite Q2R_zero. lra.
Qed.

(** C6.  Iteration k+1 of uniform_smooth takes every interior vertex to its
    position after iteration k plus 0.5 times the sum of (neighbour - vertex)
    divided by the number of neighbours, all positions in that expression
    being those after iteration k; to the coordinates of a boundary vertex
    it adds the zero of Point(0.0), which leaves the position what it was. *)
Theorem uniform_smooth_iteration {N : Numerics}
  (m : Surface_mesh) (k v : nat) :
  length (vpoint m) = n_vertices (topo m) ->
  (forall a, vvector m !! "v:new_positions" = Some a ->
     length a = n_vertices (topo m)) ->
  v < n_vertices (topo m) ->
  let old := uniform_smooth k m in
  let new := uniform_smooth (S k) m in
  (is_boundary (topo m) v = false ->
     position new v
     = vadd (position old v)
         (vscale (vdiv (displacement_sum old v)
                    (s_of_nat (length (vertices (topo m) v))))
            (narrow (d_const (1 # 2))))) /\
  (is_boundary (topo m) v = true ->
     position new v = vadd (position old v) (Point1 (narrow (d_const 0))) /\
     (AddZero N -> same_point (position new v) (position old v))).
Proof.
  intros Hlen Hattr Hv old new.
  destruct (uniform_smooth_state m k Hlen Hattr) as [Hs _]. fold old in Hs.
  assert (Ht : topo old = topo m) by apply Hs.
  destruct (uniform_smooth_iter_spec old) as (_ & _ & Hpos).
  { by rewrite Ht. }
  assert (Hnew : position new v = vadd (position old v) (uniform_laplacian old v)).
  { subst new. unfold uniform_smooth. simpl. apply Hpos. by rewrite Ht. }
  rewrite Hnew, uniform_laplacian_eq, Ht. split; intros Hb; rewrite Hb.
  - reflexivity.
  - split; [reflexivity|]. intros Z.
    unfold same_point, vadd, Point1. simpl. split_and!; apply add_zero_r.
Qed.

Lemma uniform_smooth_iteration_witness :
  px (position (uniform_smooth 1 pyramid) 0) = S754_finite false 11184810 (-24) /\
  same_point (position (uniform_smooth 1 pyramid) 1) (position pyramid 1).
Proof.
  pose proof (uniform_smooth_iteration (N := ieee) pyramid 0 0) as H0.
  pose proof (uniform_smooth_iteration (N := ieee) pyramid 0 1) as H1.
  split.
  - destruct H0 as [H0 _]; [reflexivity | done | simpl; lia |].
    rewrite H0 by reflexivity. reflexivity.
  - destruct H1 as [_ H1]; [reflexivity | done | simpl; lia |].
    apply H1; [reflexivity | exact ieee_add_zero].
Defined.


(** ** Feature enhancement *)

Lemma smooth_run_state {N : Numerics} (m : Surface_mesh) (k : nat) :
  length (vpoint m) = n_vertices (topo m) ->
  (forall a, vvector m !! "v:new_pos" = Some a ->
     length a = n_vertices (topo m)) ->
  smooth_state "v:new_pos" (n_vertices (topo m)) (topo m) (smooth k m) /\
  vvector (smooth k m) !! "v:old_pos" = vvector m !! "v:old_pos".
Proof.
  intros Hlen Hattr. unfold smooth.
  set (m0 := edge_property "e:weight" (s_const 0)
               (vertex_property_point "v:new_pos" origin m)).
  assert (H0 : smooth_state "v:new_pos" (n_vertices (topo m)) (topo m) m0
               /\ vvector m0 !! "v:old_pos" = vvector m !! "v:old_pos").
  { subst m0. unfold edge_property, vertex_property_point, smooth_state.
    destruct (vvector m !! "v:new_pos") as [a|] eqn:Ha; simpl;
      destruct (escalar _ !! "e:weight"); simpl.
    1-2: split_and!; try done; exists a; split; [done | by apply Hattr].
    all: split_and!; try done;
      [ eexists; rewrite lookup_insert_eq; split; [done|];
        by rewrite length_replicate
      | by rewrite lookup_insert_ne ]. }
  apply (Nat_iter_preserves (fun s =>
    smooth_state "v:new_pos" (n_vertices (topo m)) (topo m) s /\
    vvector s !! "v:old_pos" = vvector m !! "v:old_pos")); [exact H0|].
  intros s [Hs Ho].
  assert (Ht : topo s = topo m) by apply Hs.
  destruct (smooth_iter_spec s) as (Hs' & Ho').
  { by rewrite Ht. }
  rewrite Ht in Hs'. split; [exact Hs' | congruence].
Qed.

Section Enhance.
Context {N : Numerics}.

(** Sharpening around any pass [pass] that keeps the connectivity, the size
    of the position array and the saved positions: with gain 1 every vertex
    ends at s + (o - s) * 1, o its position before the call and s the one
    the pass left. *)
Lemma enhance_unit_gain (pass : Surface_mesh -> Surface_mesh)
  (m : Surface_mesh) (v : nat) :
  length (vpoint m) = n_vertices (topo m) ->
  (forall a, vvector m !! "v:old_pos" = Some a ->
     length a = n_vertices (topo m)) ->
  (forall s, topo s = topo m -> length (vpoint s) = n_vertices (topo m) ->
     (forall name, name <> "v:old_pos" ->
        vvector s !! name = vvector m !! name) ->
     topo (pass s) = topo m /\
     length (vpoint (pass s)) = n_vertices (topo m) /\
     vvector (pass s) !! "v:old_pos" = vvector s !! "v:old_pos") ->
  v < n_vertices (topo m) ->
  let m0 := vertex_property_point "v:old_pos" origin m in
  let m1 := for_range (n_vertices (topo m0)) save_old_pos m0 in
  let m2 := pass m1 in
  position (for_range (n_vertices (topo m2)) (enhance 1) m2) v
  = vadd (position m2 v)
      (vscale (vsub (position m v) (position m2 v)) (s_of_nat 1)).
Proof.
  intros Hlen Hattr Hpass Hv m0 m1 m2.
  assert (H0 : topo m0 = topo m /\ vpoint m0 = vpoint m /\
               (forall name, name <> "v:old_pos" ->
                  vvector m0 !! name = vvector m !! name) /\
               exists a, vvector m0 !! "v:old_pos" = Some a /\
                         length a = n_vertices (topo m)).
  { subst m0. unfold vertex_property_point.
    destruct (vvector m !! "v:old_pos") as [a|] eqn:Ha; simpl.
    - split_and!; try done. exists a. split; [done | by apply Hattr].
    - split_and!; try done.
      + intros name Hne. by rewrite lookup_insert_ne.
      + eexists. rewrite lookup_insert_eq.
        split; [done|]. by rewrite length_replicate. }
  destruct H0 as (Ht0 & Hp0 & Hn0 & a & Ha & Hla).
  destruct (pset_loop "v:old_pos" (fun v s => position s v)
              (n_vertices (topo m0)) a m0)
    as (Ht1 & Hp1 & _ & _ & Ho1 & _ & Hg1); [|done|].
  { intros k s1 s2 _ Hp _ _. unfold position. by rewrite Hp. }
  change (for_range (n_vertices (topo m0))
            (fun v s => pset "v:old_pos" v (position s v) s) m0)
    with m1 in Ht1, Hp1, Ho1, Hg1.
  destruct (Hpass m1) as (Ht2 & Hl2 & Ho2).
  { by rewrite Ht1. }
  { by rewrite Hp1, Hp0. }
  { intros name Hne. rewrite Ho1 by done. by apply Hn0. }
  fold m2 in Ht2, Hl2, Ho2.
  destruct (set_position_loop
              (fun i s => vadd (position s i)
                 (vscale (vsub (pget "v:old_pos" i s) (position s i))
                    (s_of_nat 1)))
              (n_vertices (topo m2)) m2)
    as (_ & _ & _ & _ & _ & Hpos & _).
  { intros i s1 s2 (_ & _ & _ & Hvv & Hp). unfold pget. by rewrite Hvv, Hp. }
  unfold enhance. rewrite Hpos by (rewrite ?Ht2, ?Hl2; done).
  do 3 f_equal. unfold pget. rewrite Ho2.
  specialize (Hg1 v). unfold pget in Hg1. rewrite Hg1 by (rewrite ?Ht0; lia).
  unfold position. by rewrite Hp0.
Qed.
End Enhance.

(** C9, amended.  With coefficient 1, uniform_laplacian_enhance_feature and
    laplace_beltrami_enhance_feature set every vertex to s + (o - s) * 1,
    o being its position before the call and s the position the smoothing
    pass left, whatever the number of iterations; in an arithmetic where
    a + (b - a) * 1 = b, as over the real numbers, this is o: every vertex
    is back at the position it had before the call. *)
Theorem enhance_feature_unit_gain {N : Numerics}
  (iterations : nat) (m : Surface_mesh) (v : nat) :
  length (vpoint m) = n_vertices (topo m) ->
  (forall name a, vvector m !! name = Some a ->
     length a = n_vertices (topo m)) ->
  v < n_vertices (topo m) ->
  let saved := for_range (n_vertices (topo m)) save_old_pos
                 (vertex_property_point "v:old_pos" origin m) in
  let o := position m v in
  let s_uniform := position (uniform_smooth iterations saved) v in
  let s_cotan := position (smooth iterations saved) v in
  position (uniform_laplacian_enhance_feature iterations 1 m) v
  = vadd s_uniform (vscale (vsub o s_uniform) (s_of_nat 1)) /\
  position (laplace_beltrami_enhance_feature iterations 1 m) v
  = vadd s_cotan (vscale (vsub o s_cotan) (s_of_nat 1)) /\
  (SharpenExact N ->
   position (uniform_laplacian_enhance_feature iterations 1 m) v = o /\
   position (laplace_beltrami_enhance_feature iterations 1 m) v = o).
Proof.
  intros Hlen Hattr Hv saved o s_uniform s_cotan.
  assert (Hn : n_vertices (topo (vertex_property_point "v:old_pos" origin m))
               = n_vertices (topo m)).
  { unfold vertex_property_point. by destruct (vvector m !! "v:old_pos"). }
  assert (Hu : position (uniform_laplacian_enhance_feature iterations 1 m) v
               = vadd s_uniform (vscale (vsub o s_uniform) (s_of_nat 1))).
  { unfold uniform_laplacian_enhance_feature.
    rewrite (enhance_unit_gain (uniform_smooth iterations)); try done.
    - subst s_uniform saved. by rewrite Hn.
    - by eapply Hattr.
    - intros s Ht Hl Hsame.
      destruct (uniform_smooth_state s iterations) as ((Ht' & Hl' & _) & Ho).
      + congruence.
      + intros a Ha. rewrite Hsame in Ha by done. rewrite Ht. by eapply Hattr.
      + rewrite Ht in Ht', Hl'. done. }
  assert (Hc : position (laplace_beltrami_enhance_feature iterations 1 m) v
               = vadd s_cotan (vscale (vsub o s_cotan) (s_of_nat 1))).
  { unfold laplace_beltrami_enhance_feature.
    rewrite (enhance_unit_gain (smooth iterations)); try done.
    - subst s_cotan saved. by rewrite Hn.
    - by eapply Hattr.
    - intros s Ht Hl Hsame.
      destruct (smooth_run_state s iterations) as ((Ht' & Hl' & _) & Ho).
      + congruence.
      + intros a Ha. rewrite Hsame in Ha by done. rewrite Ht. by eapply Hattr.
      + rewrite Ht in Ht', Hl'. done. }
  split_and!; [exact Hu | exact Hc |].
  intros X.
  assert (Hexact : forall p q : Point,
            vadd p (vscale (vsub q p) (s_of_nat 1)) = q).
  { intros p q. destruct q as [qx qy qz]. unfold vadd, vscale, vsub. simpl.
    by rewrite !sharpen_exact. }
  rewrite Hu, Hc, !Hexact. done.
Qed.

Lemma reals_sharpen_exact : SharpenExact reals.
Proof. intros a b. simpl. lra. Qed.

Lemma enhance_feature_unit_gain_witness :
  position (uniform_laplacian_enhance_feature 3 1 real_pyramid) 0
  = position real_pyramid 0 /\
  position (laplace_beltrami_enhance_feature 3 1 real_pyramid) 0
  = position real_pyramid 0.
Proof.
  apply (enhance_feature_unit_gain (N := reals) 3 real_pyramid 0).
  - reflexivity.
  - intros name a Ha. simpl in Ha. by rewrite lookup_empty in Ha.
  - simpl. lia.
  - exact reals_sharpen_exact.
Defined.

(** C9, as stated, fails in single precision.  The interior vertex of
    [near_plane] is at x = 2^-25; one pass of either smoother moves it to
    x = 1, where 2^-25 - 1 rounds to -1, and the sharpening with
    coefficient 1 leaves it at x = 1 + (-1) * 1 = 0.  On [sliver], whose
    cotangent weights are infinite, the smoothing pass of
    laplace_beltrami_enhance_feature leaves a NaN, and so does the
    sharpening: vertex 0, at x = 0 before the call, ends at NaN. *)
Lemma enhance_feature_not_identity :
  px (position sliver 0) = S754_zero false /\
  px (position (smooth 1 sliver) 0) = S754_nan /\
  px (position (laplace_beltrami_enhance_feature 1 1 sliver) 0) = S754_nan /\
  px (position near_plane 0) = S754_finite false 8388608 (-48) /\
  px (position (uniform_smooth 1 near_plane) 0) = S754_finite false 8388608 (-23) /\
  px (position (uniform_laplacian_enhance_feature 1 1 near_plane) 0)
  = S754_zero false /\
  px (position (laplace_beltrami_enhance_feature 1 1 near_plane) 0)
  = S754_zero false /\
  position (uniform_laplacian_enhance_feature 1 1 near_plane) 0
  <> position near_plane 0 /\
  position (laplace_beltrami_enhance_feature 1 1 near_plane) 0
  <> position near_plane 0.
Proof.
  split_and!.
  - vm_compute. reflexivity.
  - vm_compute. reflexivity.
  - vm_compute. reflexivity.
  - vm_compute. reflexivity.
  - vm_compute. reflexivity.
  - vm_compute. reflexivity.
  - vm_compute. reflexivity.
  - intros H. apply (f_equal px) in H. vm_compute in H. discriminate H.
  - intros H. apply (f_equal px) in H. vm_compute in H. discriminate H.
Qed.


(** ** calc_gauss_curvature *)

Lemma circ_lt (l : list nat) (i : nat) :
  i < length l -> l !! i = Some (circ l i).
Proof.
  intros Hi. unfold circ. rewrite Nat.mod_small by done.
  destruct (lookup_lt_is_Some_2 l i Hi) as [x ->]. done.
Qed.

(** The pairs a circulator and its successor go through. *)
Lemma ring_pairs (l : list nat) :
  (fun i => (circ l i, circ l (i + 1))) <$> seq 0 (length l)
  = consecutive_pairs l.
Proof.
  destruct l as [|x r]; [done|]. unfold consecutive_pairs.
  apply list_eq. intros i.
  rewrite list_lookup_fmap, lookup_zip_with.
  destruct (decide (i < length (x :: r))) as [Hi|Hi].
  - rewrite lookup_seq_lt by done. simpl.
    rewrite (circ_lt (x :: r) i) by done. simpl.
    destruct (decide (i + 1 < length (x :: r))) as [Hn|Hn].
    + rewrite lookup_app_l by (simpl in Hn; lia).
      pose proof (circ_lt (x :: r) (i + 1) Hn) as Hc.
      replace (i + 1) with (S i) in Hc by lia. simpl in Hc.
      rewrite Hc. simpl. by replace (S i) with (i + 1) by lia.
    + assert (Hlast : i = length r) by (simpl in Hi, Hn; lia).
      rewrite lookup_app_r by lia.
      replace (i - length r) with 0 by lia. simpl.
      unfold circ at 2. replace (i + 1) with (length (x :: r)) by (simpl; lia).
      by rewrite Nat.Div0.mod_same.
  - rewrite lookup_seq_ge by lia. simpl.
    rewrite (lookup_ge_None_2 (x :: r)) by lia. done.
Qed.

Section Gauss.
Context {N : Numerics} {L : Libm N}.

Lemma angle_sum_pairs (m : Surface_mesh) (v : nat) :
  angle_sum m v
  = fold_left s_add
      ((fun p => corner_angle m v p.1 p.2)
         <$> consecutive_pairs (vertices (topo m) v))
      (s_const 0).
Proof.
  unfold angle_sum, for_range. rewrite <- ring_pairs.
  rewrite <- list_fmap_compose.
  generalize (seq 0 (length (vertices (topo m) v))) (s_const 0).
  intros l. induction l as [|i l IH]; intros a; [done|]. simpl.
  rewrite IH. reflexivity.
Qed.

Lemma gauss_body_value (m : Surface_mesh) (v : nat) :
  (if negb (is_boundary (topo m) v) then
     s_mul (s_mul (s_sub (s_mul (s_of_nat 2) (narrow (d_const M_PI)))
                     (angle_sum m v)) (s_const 2))
           (vget "v:weight" v m)
   else s_const 0)
  = if is_boundary (topo m) v then s_const 0 else angle_deficit m v.
Proof.
  destruct (is_boundary (topo m) v); [done|]. simpl.
  unfold angle_deficit. by rewrite angle_sum_pairs.
Qed.
End Gauss.

(** C7.  calc_gauss_curvature gives every interior vertex the curvature
    (2 pi - sum of arccos(clamp(dot(normalize(d0), normalize(d1)), -1, 1)))
    * 2 * vertex_inv_area[v], the sum over the consecutive pairs of edges
    around the vertex, and every boundary vertex the curvature 0. *)
Theorem calc_gauss_curvature_value {N : Numerics} {L : Libm N}
  (m : Surface_mesh) (v : nat) :
  (forall a, vscalar m !! "v:gauss_curvature" = Some a ->
     length a = n_vertices (topo m)) ->
  v < n_vertices (topo m) ->
  vget "v:gauss_curvature" v (calc_gauss_curvature m)
  = if is_boundary (topo m) v then s_const 0 else angle_deficit m v.
Proof.
  intros Hattr Hv. unfold calc_gauss_curvature.
  set (m0 := vertex_property "v:weight" (s_const 0)
               (vertex_property "v:gauss_curvature" (s_const 0) m)).
  assert (H0 : topo m0 = topo m /\ vpoint m0 = vpoint m /\
               (forall u, vget "v:weight" u m0 = vget "v:weight" u m) /\
               exists a, vscalar m0 !! "v:gauss_curvature" = Some a /\
                         length a = n_vertices (topo m)).
  { subst m0. split_and!.
    - unfold vertex_property.
      destruct (vscalar m !! "v:gauss_curvature"); simpl;
        by destruct (_ !! "v:weight").
    - unfold vertex_property.
      destruct (vscalar m !! "v:gauss_curvature"); simpl;
        by destruct (_ !! "v:weight").
    - intros u. by rewrite !vget_vertex_property.
    - unfold vertex_property at 2.
      destruct (vscalar m !! "v:gauss_curvature") as [a|] eqn:Ha.
      + exists a. split; [by apply vertex_property_keeps | by apply Hattr].
      + eexists. split.
        * apply vertex_property_keeps. simpl. apply lookup_insert_eq.
        * by rewrite length_replicate. }
  destruct H0 as (Ht & Hp & Hw & a & Ha & Hla).
  unfold calc_gauss_curvature_body.
  rewrite (vset_loop "v:gauss_curvature"
             (fun v s => if negb (is_boundary (topo s) v) then
                s_mul (s_mul (s_sub (s_mul (s_of_nat 2) (narrow (d_const M_PI)))
                                (angle_sum s v)) (s_const 2))
                      (vget "v:weight" v s)
              else s_const 0)
             (n_vertices (topo m0)) a m0); [| |done|by rewrite Ht|lia].
  - rewrite gauss_body_value, Ht. destruct (is_boundary (topo m) v); [done|].
    unfold angle_deficit, corner_angle, position. by rewrite Ht, Hp, Hw.
  - intros u m1 m2 Ht' Hp' _ Hs'.
    unfold angle_sum, ring_angle, position, vget.
    by rewrite Ht', Hp', Hs'.
Qed.

Lemma calc_gauss_curvature_value_witness :
  vget "v:gauss_curvature" 1
    (calc_gauss_curvature (L := reals_libm) real_pyramid) = 0%R /\
  vget "v:gauss_curvature" 0
    (calc_gauss_curvature (L := reals_libm) real_pyramid)
  = angle_deficit (L := reals_libm) real_pyramid 0.
Proof.
  split.
  - rewrite (calc_gauss_curvature_value (N := reals) (L := reals_libm)
               real_pyramid 1).
    + simpl. apply Q2R_zero.
    + intros a Ha. simpl in Ha. by rewrite lookup_empty in Ha.
    + simpl. lia.
  - rewrite (calc_gauss_curvature_value (N := reals) (L := reals_libm)
               real_pyramid 0).
    + reflexivity.
    + intros a Ha. simpl in Ha. by rewrite lookup_empty in Ha.
    + simpl. lia.
Defined.


(** ** calc_edges_weights *)

Section EdgeWeights.
Context {N : Numerics}.

Lemma eget_eset_same (name : string) (e : nat) (x : Scalar) (a : list Scalar)
  (m : Surface_mesh) :
  escalar m !! name = Some a -> e < length a ->
  eget name e (eset name e x m) = x.
Proof.
  intros Ha He. unfold eget, eset. simpl.
  rewrite lookup_alter_eq, Ha. simpl.
  rewrite list_lookup_insert_eq by done. reflexivity.
Qed.

Lemma eget_eset_other (name : string) (e e' : nat) (x : Scalar)
  (m : Surface_mesh) :
  e <> e' -> eget name e (eset name e' x m) = eget name e m.
Proof.
  intros Hne. unfold eget, eset. simpl.
  rewrite lookup_alter_eq. destruct (escalar m !! name) as [a|]; simpl; [|done].
  rewrite list_lookup_insert_ne by congruence. reflexivity.
Qed.

Lemma eset_state (m s : Surface_mesh) (e : nat) (x : Scalar) :
  weights_state m s -> weights_state m (eset "e:weight" e x s).
Proof.
  intros (Ht & Hp & a & Ha & Hl). split_and!; try done.
  exists (<[e := x]> a). simpl. rewrite lookup_alter_eq, Ha.
  split; [done | by rewrite length_insert].
Qed.

Lemma add_cotan_spec (m s : Surface_mesh) (e h : nat) (p0 p1 : Point) :
  weights_state m s -> e < n_edges (topo m) ->
  weights_state m (add_cotan e h p0 p1 s) /\
  (forall e', e' <> e ->
     eget "e:weight" e' (add_cotan e h p0 p1 s) = eget "e:weight" e' s) /\
  eget "e:weight" e (add_cotan e h p0 p1 s)
  = if negb (is_boundary_h (topo m) h) then
      s_add (eget "e:weight" e s)
        (cotan_term p0 p1
           (position m (to_vertex (topo m) (next_halfedge (topo m) h))))
    else eget "e:weight" e s.
Proof.
  intros Hs He. pose proof Hs as (Ht & Hp & a & Ha & Hl).
  unfold add_cotan. rewrite Ht.
  destruct (negb (is_boundary_h (topo m) h)); [|done].
  split_and!.
  - by apply eset_state.
  - intros e' Hne. by apply eget_eset_other.
  - rewrite (eget_eset_same _ _ _ a) by (done || lia).
    unfold position. by rewrite Hp.
Qed.

Lemma calc_edges_weights_body_spec (m s : Surface_mesh) (e : nat) :
  weights_state m s -> e < n_edges (topo m) ->
  weights_state m (calc_edges_weights_body e s) /\
  (forall e', e' <> e ->
     eget "e:weight" e' (calc_edges_weights_body e s) = eget "e:weight" e' s) /\
  eget "e:weight" e (calc_edges_weights_body e s) = edge_weight_value m e.
Proof.
  intros Hs He. pose proof Hs as (Ht & Hp & a & Ha & Hl).
  unfold calc_edges_weights_body. simpl.
  set (s0 := eset "e:weight" e (narrow (d_const 0)) s).
  assert (Hs0 : weights_state m s0) by (by apply eset_state).
  assert (Hpos : forall u, position s0 u = position m u).
  { intros u. unfold position. simpl. by rewrite Hp. }
  rewrite !Hpos, Ht.
  set (p0 := position m (to_vertex (topo m) (halfedge (topo m) e 0))).
  set (p1 := position m (to_vertex (topo m) (halfedge (topo m) e 1))).
  destruct (add_cotan_spec m s0 e (halfedge (topo m) e 0) p0 p1 Hs0 He)
    as (Hs1 & Ho1 & Hv1).
  destruct (add_cotan_spec m _ e (halfedge (topo m) e 1) p0 p1 Hs1 He)
    as (Hs2 & Ho2 & Hv2).
  split_and!; [done | |].
  - intros e' Hne. rewrite Ho2, Ho1 by done. by apply eget_eset_other.
  - rewrite Hv2, Hv1. subst s0.
    rewrite (eget_eset_same _ _ _ a) by (done || lia).
    reflexivity.
Qed.

(** Every edge gets the value computed from the positions, whatever the
    triangles next to it are. *)
Lemma calc_edges_weights_value (m : Surface_mesh) (e : nat) :
  (forall a, escalar m !! "e:weight" = Some a -> length a = n_edges (topo m)) ->
  e < n_edges (topo m) ->
  eget "e:weight" e (calc_edges_weights m) = edge_weight_value m e.
Proof.
  intros Hattr He. unfold calc_edges_weights.
  set (m0 := edge_property "e:weight" (s_const 0) m).
  assert (H0 : weights_state m m0).
  { subst m0. unfold edge_property, weights_state.
    destruct (escalar m !! "e:weight") as [a|] eqn:Ha; simpl.
    - split_and!; try done. exists a. split; [done | by apply Hattr].
    - split_and!; try done. eexists. rewrite lookup_insert_eq.
      split; [done | by rewrite length_replicate]. }
  assert (Hn : n_edges (topo m0) = n_edges (topo m))
    by (by rewrite (proj1 H0)).
  rewrite Hn.
  enough (H : weights_state m
                (for_range (n_edges (topo m)) calc_edges_weights_body m0) /\
              forall e', e' < n_edges (topo m) ->
                eget "e:weight" e'
                  (for_range (n_edges (topo m)) calc_edges_weights_body m0)
                = edge_weight_value m e')
    by (by apply H).
  apply (for_range_ind (fun k s =>
    weights_state m s /\
    forall e', e' < k -> eget "e:weight" e' s = edge_weight_value m e')).
  - split; [done|]. intros e' He'. lia.
  - intros k s Hk [Hs Hlo].
    destruct (calc_edges_weights_body_spec m s k Hs Hk) as (Hs' & Ho & Hv).
    split; [done|]. intros e' He'.
    destruct (decide (e' = k)) as [->|Hne]; [done|].
    rewrite Ho by done. apply Hlo. lia.
Qed.
End EdgeWeights.


(** ** Degenerate geometry in IEEE arithmetic *)


Section NotFinite.
Variables prec emax : Z.

Lemma SFdiv_zero_not_finite (x : spec_float) (s : bool) :
  IEEE.is_finite (SFdiv prec emax x (S754_zero s)) = false.
Proof. by destruct x. Qed.

Lemma SFadd_not_finite_r (x y : spec_float) :
  IEEE.is_finite y = false -> IEEE.is_finite (SFadd prec emax x y) = false.
Proof.
  destruct x as [sx|sx| |sx mx ex], y as [sy|sy| |sy my ey]; try done;
    destruct sx, sy; done.
Qed.

Lemma SFadd_not_finite_l (x y : spec_float) :
  IEEE.is_finite x = false -> IEEE.is_finite (SFadd prec emax x y) = false.
Proof.
  destruct x as [sx|sx| |sx mx ex], y as [sy|sy| |sy my ey]; try done;
    destruct sx, sy; done.
Qed.
End NotFinite.



(** * Further properties *)

(** ** What the mean-curvature estimators read *)

Section Estimators.
Context {N : Numerics}.

Lemma vertex_property_frame (name : string) (t : Scalar) (m : Surface_mesh) :
  topo (vertex_property name t m) = topo m /\
  vpoint (vertex_property name t m) = vpoint m /\
  escalar (vertex_property name t m) = escalar m /\
  vvector (vertex_property name t m) = vvector m.
Proof. unfold vertex_property. by destruct (vscalar m !! name). Qed.

Lemma edge_property_frame (name : string) (t : Scalar) (m : Surface_mesh) :
  topo (edge_property name t m) = topo m /\
  vpoint (edge_property name t m) = vpoint m /\
  vscalar (edge_property name t m) = vscalar m /\
  vvector (edge_property name t m) = vvector m.
Proof. unfold edge_property. by destruct (escalar m !! name). Qed.

(** Asking for an attribute gives an array of the size of the mesh. *)
Lemma vertex_property_sized (name : string) (t : Scalar) (m : Surface_mesh) :
  (forall a, vscalar m !! name = Some a -> length a = n_vertices (topo m)) ->
  exists a, vscalar (vertex_property name t m) !! name = Some a /\
            length a = n_vertices (topo m).
Proof.
  intros Hattr. unfold vertex_property.
  destruct (vscalar m !! name) as [a|] eqn:Ha.
  - exists a. split; [done | by apply Hattr].
  - eexists. simpl. rewrite lookup_insert_eq. split; [done|].
    by rewrite length_replicate.
Qed.

Lemma uniform_ring_split (m : Surface_mesh) (v : nat) :
  uniform_ring m v
  = (ring_sum (Point1 (s_const 0)) m v, count_d (vertices (topo m) v)).
Proof.
  unfold uniform_ring, ring_sum, count_d, for_each.
  generalize (Point1 (s_const 0)) (d_const 0).
  induction (vertices (topo m) v) as [|x l IH]; intros p n; [done|].
  simpl. apply IH.
Qed.

Lemma calc_uniform_mean_curvature_reads (m : Surface_mesh) (v : nat) :
  (forall a, vscalar m !! "v:unicurvature" = Some a ->
     length a = n_vertices (topo m)) ->
  v < n_vertices (topo m) ->
  vget "v:unicurvature" v (calc_uniform_mean_curvature m)
  = if is_boundary (topo m) v then s_of_nat 0 else uniform_mean_curvature m v.
Proof.
  intros Hattr Hv. unfold calc_uniform_mean_curvature.
  set (m0 := vertex_property "v:unicurvature" (s_const 0) m).
  destruct (vertex_property_frame "v:unicurvature" (s_const 0) m)
    as (Ht & Hp & _ & _).
  destruct (vertex_property_sized "v:unicurvature" (s_const 0) m Hattr)
    as (a & Ha & Hla).
  fold m0 in Ht, Hp, Ha.
  unfold calc_uniform_mean_curvature_body.
  rewrite (vset_loop "v:unicurvature"
             (fun v s => if negb (is_boundary (topo s) v) then
                let '(laplace, n) := uniform_ring s v in
                s_mul (s_const (1 # 2)) (norm (vdiv laplace (narrow n)))
              else s_of_nat 0)
             (n_vertices (topo m0)) a m0); [| |done|by rewrite Ht|lia].
  - rewrite uniform_ring_split, Ht.
    destruct (is_boundary (topo m) v); [done|]. simpl.
    unfold uniform_mean_curvature, ring_sum, position. by rewrite Ht, Hp.
  - intros u m1 m2 Ht' Hp' _ _.
    unfold uniform_ring, position. by rewrite Ht', Hp'.
Qed.

Lemma for_each_ext {S A : Type} (f g : A -> S -> S) (l : list A) (s : S) :
  (forall x s', f x s' = g x s') -> for_each l f s = for_each l g s.
Proof.
  intros Hfg. unfold for_each. revert s.
  induction l as [|x l IH]; intros s; [done|]. simpl. by rewrite Hfg, IH.
Qed.

Lemma cotan_ring_ext (m1 m2 : Surface_mesh) (v : nat) :
  topo m1 = topo m2 -> vpoint m1 = vpoint m2 ->
  (forall e, eget "e:weight" e m1 = eget "e:weight" e m2) ->
  cotan_ring m1 v = cotan_ring m2 v.
Proof.
  intros Ht Hp He. unfold cotan_ring, position. rewrite Ht, Hp.
  apply for_each_ext. intros h s. by rewrite He.
Qed.

Lemma calc_mean_curvature_reads (m : Surface_mesh) (v : nat) :
  (forall a, vscalar m !! "v:curvature" = Some a ->
     length a = n_vertices (topo m)) ->
  v < n_vertices (topo m) ->
  vget "v:curvature" v (calc_mean_curvature m)
  = if is_boundary (topo m) v then s_const 0 else cotan_mean_curvature m v.
Proof.
  intros Hattr Hv. unfold calc_mean_curvature.
  set (m1 := vertex_property "v:curvature" (s_const 0) m).
  set (m2 := edge_property "e:weight" (s_const 0) m1).
  set (m0 := vertex_property "v:weight" (s_const 0) m2).
  destruct (vertex_property_frame "v:curvature" (s_const 0) m)
    as (Ht1 & Hp1 & He1 & _).
  destruct (edge_property_frame "e:weight" (s_const 0) m1)
    as (Ht2 & Hp2 & Hs2 & _).
  destruct (vertex_property_frame "v:weight" (s_const 0) m2)
    as (Ht3 & Hp3 & He3 & _).
  fold m1 in Ht1, Hp1, He1. fold m2 in Ht2, Hp2, Hs2. fold m0 in Ht3, Hp3, He3.
  assert (Ht : topo m0 = topo m) by congruence.
  assert (Hp : vpoint m0 = vpoint m) by congruence.
  destruct (vertex_property_sized "v:curvature" (s_const 0) m Hattr)
    as (a & Ha & Hla).
  fold m1 in Ha.
  assert (Ha0 : vscalar m0 !! "v:curvature" = Some a).
  { subst m0. apply vertex_property_keeps. by rewrite Hs2. }
  assert (Hw : forall u, vget "v:weight" u m0 = vget "v:weight" u m).
  { intros u. subst m0. rewrite vget_vertex_property.
    unfold vget. rewrite Hs2. fold (vget "v:weight" u m1).
    subst m1. apply vget_vertex_property. }
  assert (He : forall e, eget "e:weight" e m0 = eget "e:weight" e m).
  { intros e. unfold eget. rewrite He3. fold (eget "e:weight" e m2).
    subst m2. rewrite eget_edge_property. unfold eget. by rewrite He1. }
  unfold calc_mean_curvature_body.
  rewrite (vset_loop "v:curvature"
             (fun v s => if negb (is_boundary (topo s) v) then
                s_mul (s_const (1 # 2))
                  (norm (vscale (cotan_ring s v) (vget "v:weight" v s)))
              else s_const 0)
             (n_vertices (topo m0)) a m0); [| |done|by rewrite Ht|lia].
  - rewrite Ht. destruct (is_boundary (topo m) v); [done|]. simpl.
    unfold cotan_mean_curvature. rewrite Hw. do 3 f_equal.
    apply cotan_ring_ext; done.
  - intros u s1 s2 Ht' Hp' He' Hs'.
    rewrite Ht'. destruct (is_boundary (topo s2) u); [done|]. simpl.
    unfold vget. rewrite (Hs' "v:weight") by done. do 3 f_equal.
    apply cotan_ring_ext; try done. intros e. unfold eget. by rewrite He'.
Qed.
End Estimators.

(** ** What the two weight loops leave *)

Section WeightValues.
Context {N : Numerics}.

Lemma add_cotan_others (e h : nat) (p0 p1 : Point) (s : Surface_mesh)
  (name : string) :
  name <> "e:weight" ->
  escalar (add_cotan e h p0 p1 s) !! name = escalar s !! name.
Proof.
  intros Hne. unfold add_cotan. destruct (negb _); [|done]. simpl.
  by rewrite lookup_alter_ne.
Qed.

(** calc_edges_weights leaves an array of the size of the mesh, and the
    other edge attributes as they were. *)
Lemma calc_edges_weights_state (m : Surface_mesh) :
  (forall a, escalar m !! "e:weight" = Some a -> length a = n_edges (topo m)) ->
  weights_state m (calc_edges_weights m) /\
  (forall name, name <> "e:weight" ->
     escalar (calc_edges_weights m) !! name = escalar m !! name).
Proof.
  intros Hattr. unfold calc_edges_weights.
  set (m0 := edge_property "e:weight" (s_const 0) m).
  assert (H0 : weights_state m m0 /\
               forall name, name <> "e:weight" ->
                 escalar m0 !! name = escalar m !! name).
  { subst m0. unfold edge_property, weights_state.
    destruct (escalar m !! "e:weight") as [a|] eqn:Ha; simpl.
    - split_and!; try done. exists a. split; [done | by apply Hattr].
    - split_and!; try done.
      + eexists. rewrite lookup_insert_eq.
        split; [done | by rewrite length_replicate].
      + intros name Hne. by rewrite lookup_insert_ne. }
  replace (n_edges (topo m0)) with (n_edges (topo m))
    by (by rewrite (proj1 (proj1 H0))).
  apply (for_range_ind (fun k s =>
    weights_state m s /\
    forall name, name <> "e:weight" -> escalar s !! name = escalar m !! name));
    [exact H0|].
  intros k s Hk [Hs Ho].
  destruct (calc_edges_weights_body_spec m s k Hs Hk) as (Hs' & _ & _).
  split; [done|]. intros name Hne.
  unfold calc_edges_weights_body. rewrite !add_cotan_others by done.
  simpl. rewrite lookup_alter_ne by done. by apply Ho.
Qed.

Lemma edge_weight_value_ext (m1 m2 : Surface_mesh) (e : nat) :
  topo m1 = topo m2 -> vpoint m1 = vpoint m2 ->
  edge_weight_value m1 e = edge_weight_value m2 e.
Proof.
  intros Ht Hp. unfold edge_weight_value, position. by rewrite Ht, Hp.
Qed.

Lemma face_share_ext (m1 m2 : Surface_mesh) (f : nat) :
  topo m1 = topo m2 -> vpoint m1 = vpoint m2 ->
  face_share m1 f = face_share m2 f.
Proof.
  intros Ht Hp. unfold face_share, position. by rewrite Ht, Hp.
Qed.

Lemma vertex_property_state (m : Surface_mesh) :
  (forall a, vscalar m !! "v:weight" = Some a ->
     length a = n_vertices (topo m)) ->
  vertex_weights_state m (vertex_property "v:weight" (s_const 0) m).
Proof.
  intros Hattr. unfold vertex_property, vertex_weights_state.
  destruct (vscalar m !! "v:weight") as [a|] eqn:Ha; simpl.
  - split_and!; try done. exists a. split; [done | by apply Hattr].
  - split_and!; try done.
    + intros name Hne. by rewrite lookup_insert_ne.
    + eexists. rewrite lookup_insert_eq.
      split; [done | by rewrite length_replicate].
Qed.

(** calc_vertices_weights: the value left for every vertex, and what the
    loop does not touch. *)
Lemma calc_vertices_weights_spec (m : Surface_mesh) :
  (forall a, vscalar m !! "v:weight" = Some a ->
     length a = n_vertices (topo m)) ->
  vertex_weights_state m (calc_vertices_weights m) /\
  forall v, v < n_vertices (topo m) ->
    vget "v:weight" v (calc_vertices_weights m) = vertex_weight_value m v.
Proof.
  intros Hattr. unfold calc_vertices_weights.
  set (m0 := vertex_property "v:weight" (s_const 0) m).
  pose proof (vertex_property_state m Hattr) as H0. fold m0 in H0.
  replace (n_vertices (topo m0)) with (n_vertices (topo m))
    by (by rewrite (proj1 H0)).
  enough (H : vertex_weights_state m
                (for_range (n_vertices (topo m)) calc_vertices_weights_body m0) /\
              (forall v, v < n_vertices (topo m) ->
                 vget "v:weight" v
                   (for_range (n_vertices (topo m)) calc_vertices_weights_body m0)
                 = vertex_weight_value m v) /\
              (forall v, n_vertices (topo m) <= v ->
                 vget "v:weight" v
                   (for_range (n_vertices (topo m)) calc_vertices_weights_body m0)
                 = vget "v:weight" v m))
    by (destruct H as (H1 & H2 & _); by split).
  apply (for_range_ind (fun k s =>
    vertex_weights_state m s /\
    (forall v, v < k -> vget "v:weight" v s = vertex_weight_value m v) /\
    (forall v, k <= v -> vget "v:weight" v s = vget "v:weight" v m))).
  - split_and!; [done | intros; lia |].
    intros v _. subst m0. apply vget_vertex_property.
  - intros k s Hk (Hs & Hlo & Hhi).
    pose proof Hs as (Ht & Hp & He & Hvv & Ho & a & Ha & Hla).
    unfold calc_vertices_weights_body. rewrite Ht.
    destruct (faces (topo m) k) as [|f vf] eqn:Hf.
    + split_and!; [done | | intros v Hv; apply Hhi; lia].
      intros v Hv. destruct (decide (v = k)) as [->|Hne]; [|apply Hlo; lia].
      unfold vertex_weight_value. rewrite Hf. by apply Hhi.
    + split_and!.
      * unfold vertex_weights_state. simpl. split_and!; try done.
        -- intros name Hne. rewrite lookup_alter_ne by done. by apply Ho.
        -- exists (<[k := narrow
                       (d_div (d_const (1 # 2))
                          (widen (for_each (f :: vf)
                                    (fun f a => s_add a (face_share s f))
                                    (narrow (d_const 0)))))]> a).
           rewrite lookup_alter_eq, Ha. split; [done|].
           by rewrite length_insert.
      * intros v Hv. destruct (decide (v = k)) as [->|Hne].
        -- rewrite (vget_vset_same _ _ _ a) by (done || lia).
           unfold vertex_weight_value. rewrite Hf. do 3 f_equal.
           apply for_each_ext. intros g x. f_equal. by apply face_share_ext.
        -- rewrite vget_vset_other by done. apply Hlo. lia.
      * intros v Hv. rewrite vget_vset_other by lia. apply Hhi. lia.
Qed.
End WeightValues.

(** ** Sizes of the attribute arrays *)

Section Sizes.
Context {N : Numerics}.

Lemma sized_vertex_property (name : string) (t : Scalar) (m : Surface_mesh) :
  sized m -> sized (vertex_property name t m).
Proof.
  intros [Hv He]. unfold vertex_property.
  destruct (vscalar m !! name) as [a|] eqn:Ha; [done|].
  split; [|exact He]. intros name' a'. simpl.
  destruct (decide (name' = name)) as [->|Hne].
  - rewrite lookup_insert_eq. intros [= <-]. by rewrite length_replicate.
  - rewrite lookup_insert_ne by done. apply Hv.
Qed.

Lemma sized_edge_property (name : string) (t : Scalar) (m : Surface_mesh) :
  sized m -> sized (edge_property name t m).
Proof.
  intros [Hv He]. unfold edge_property.
  destruct (escalar m !! name) as [a|] eqn:Ha; [done|].
  split; [exact Hv|]. intros name' a'. simpl.
  destruct (decide (name' = name)) as [->|Hne].
  - rewrite lookup_insert_eq. intros [= <-]. by rewrite length_replicate.
  - rewrite lookup_insert_ne by done. apply He.
Qed.

Lemma sized_vset (name : string) (v : nat) (x : Scalar) (m : Surface_mesh) :
  sized m -> sized (vset name v x m).
Proof.
  intros [Hv He]. split; [|exact He]. intros name' a'. simpl.
  destruct (decide (name' = name)) as [->|Hne].
  - rewrite lookup_alter_eq.
    destruct (vscalar m !! name) as [a|] eqn:Ha; simpl; [|done].
    intros [= <-]. rewrite length_insert. by eapply Hv.
  - rewrite lookup_alter_ne by done. apply Hv.
Qed.

Lemma sized_eset (name : string) (e : nat) (x : Scalar) (m : Surface_mesh) :
  sized m -> sized (eset name e x m).
Proof.
  intros [Hv He]. split; [exact Hv|]. intros name' a'. simpl.
  destruct (decide (name' = name)) as [->|Hne].
  - rewrite lookup_alter_eq.
    destruct (escalar m !! name) as [a|] eqn:Ha; simpl; [|done].
    intros [= <-]. rewrite length_insert. by eapply He.
  - rewrite lookup_alter_ne by done. apply He.
Qed.

Lemma sized_vset_loop (name : string) (c : nat -> Surface_mesh -> Scalar)
  (n : nat) (m : Surface_mesh) :
  sized m -> sized (for_range n (fun v s => vset name v (c v s) s) m).
Proof.
  intros Hm. apply (for_range_preserves sized); [done|].
  intros k s Hs. by apply sized_vset.
Qed.

Lemma sized_calc_edges_weights (m : Surface_mesh) :
  sized m -> sized (calc_edges_weights m).
Proof.
  intros Hm. unfold calc_edges_weights.
  apply (for_range_preserves sized); [by apply sized_edge_property|].
  intros k s Hs. unfold calc_edges_weights_body, add_cotan.
  repeat (destruct (negb _)); repeat apply sized_eset; done.
Qed.

Lemma sized_calc_vertices_weights (m : Surface_mesh) :
  sized m -> sized (calc_vertices_weights m).
Proof.
  intros Hm. unfold calc_vertices_weights.
  apply (for_range_preserves sized); [by apply sized_vertex_property|].
  intros k s Hs. unfold calc_vertices_weights_body.
  destruct (faces (topo s) k); [done|]. by apply sized_vset.
Qed.

Lemma sized_calc_weights (m : Surface_mesh) :
  sized m -> sized (calc_weights m).
Proof.
  intros Hm. by apply sized_calc_vertices_weights, sized_calc_edges_weights.
Qed.
End Sizes.

(** ** The weights, for every mesh *)

(** X1. calc_edges_weights stores for every edge the sum, from 0, of the
    cotangent terms of its sides that have a face.  The result depends on
    the connectivity and the positions only: what the attribute held before
    the call is overwritten, so recomputing the weights changes none. *)
Theorem calc_edges_weights_fresh {N : Numerics} (m m' : Surface_mesh) (e : nat) :
  sized m -> sized m' ->
  topo m' = topo m -> vpoint m' = vpoint m ->
  e < n_edges (topo m) ->
  eget "e:weight" e (calc_edges_weights m) = edge_weight_value m e /\
  eget "e:weight" e (calc_edges_weights m')
  = eget "e:weight" e (calc_edges_weights m) /\
  eget "e:weight" e (calc_edges_weights (calc_edges_weights m))
  = eget "e:weight" e (calc_edges_weights m).
Proof.
  intros Hm Hm' Ht Hp He.
  assert (H1 : eget "e:weight" e (calc_edges_weights m) = edge_weight_value m e).
  { apply calc_edges_weights_value; [|done]. intros a. apply Hm. }
  split_and!; [exact H1 | |].
  - rewrite H1, calc_edges_weights_value; [by apply edge_weight_value_ext | |].
    + intros a. apply Hm'.
    + by rewrite Ht.
  - destruct (calc_edges_weights_frame m) as (Ht2 & Hp2 & _).
    rewrite H1, calc_edges_weights_value; [by apply edge_weight_value_ext | |].
    + intros a. by apply sized_calc_edges_weights.
    + by rewrite Ht2.
Qed.

Lemma calc_edges_weights_fresh_witness :
  eget "e:weight" 0 (calc_edges_weights (calc_edges_weights pyramid))
  = S754_finite false 9686330 (-23) /\
  eget "e:weight" 0 (calc_edges_weights pyramid)
  = S754_finite false 9686330 (-23).
Proof.
  destruct (calc_edges_weights_fresh (N := ieee) pyramid pyramid 0)
    as (H1 & _ & H3).
  - split; intros name a Ha; simpl in Ha; by rewrite lookup_empty in Ha.
  - split; intros name a Ha; simpl in Ha; by rewrite lookup_empty in Ha.
  - reflexivity.
  - reflexivity.
  - simpl. lia.
  - rewrite H3, H1. split; vm_compute; reflexivity.
Defined.

(** X2. calc_vertices_weights gives every vertex that has a face the
    weight 0.5 / area, the division in double precision, area being the
    single-precision sum over the faces around the vertex of
    norm(cross(Q-P, R-P)) * 0.5f * 0.3333f; a vertex without faces is
    skipped and keeps the value the attribute held before the call. *)
Theorem calc_vertices_weights_value {N : Numerics} (m : Surface_mesh) (v : nat) :
  sized m -> v < n_vertices (topo m) ->
  (faces (topo m) v = [] ->
     vget "v:weight" v (calc_vertices_weights m) = vget "v:weight" v m) /\
  (faces (topo m) v <> [] ->
     vget "v:weight" v (calc_vertices_weights m)
     = narrow (d_div (d_const (1 # 2))
                 (widen (for_each (faces (topo m) v)
                           (fun f area => s_add area (face_share m f))
                           (narrow (d_const 0)))))).
Proof.
  intros Hm Hv.
  destruct (calc_vertices_weights_spec m) as [_ Hval].
  { intros a. apply Hm. }
  rewrite Hval by done. unfold vertex_weight_value.
  destruct (faces (topo m) v); split; done.
Qed.

Lemma calc_vertices_weights_value_witness :
  vget "v:weight" 0 (calc_vertices_weights right_triangle)
  = S754_finite false 8389447 (-24) /\
  vget "v:weight" 3 (calc_vertices_weights right_triangle_and_point)
  = S754_zero false.
Proof.
  destruct (calc_vertices_weights_value (N := ieee) right_triangle 0)
    as [_ H1].
  { split; intros name a Ha; simpl in Ha; by rewrite lookup_empty in Ha. }
  { simpl. lia. }
  destruct (calc_vertices_weights_value (N := ieee) right_triangle_and_point 3)
    as [H2 _].
  { split; intros name a Ha; simpl in Ha; by rewrite lookup_empty in Ha. }
  { simpl. lia. }
  split.
  - rewrite H1 by discriminate. vm_compute. reflexivity.
  - rewrite H2 by reflexivity. vm_compute. reflexivity.
Defined.

Section WeightsResult.
Context {N : Numerics}.

Lemma vertex_weight_value_ext (m1 m2 : Surface_mesh) (v : nat) :
  topo m1 = topo m2 -> vpoint m1 = vpoint m2 ->
  vget "v:weight" v m1 = vget "v:weight" v m2 ->
  vertex_weight_value m1 v = vertex_weight_value m2 v.
Proof.
  intros Ht Hp Hw. unfold vertex_weight_value. rewrite Ht.
  destruct (faces (topo m2) v) as [|f vf]; [done|]. do 3 f_equal.
  apply for_each_ext. intros g x. f_equal. by apply face_share_ext.
Qed.

(** calc_weights: what is left as it was, and the two arrays. *)
Lemma calc_weights_spec (m : Surface_mesh) :
  sized m ->
  topo (calc_weights m) = topo m /\
  vpoint (calc_weights m) = vpoint m /\
  vvector (calc_weights m) = vvector m /\
  (forall name, name <> "v:weight" ->
     vscalar (calc_weights m) !! name = vscalar m !! name) /\
  (forall name, name <> "e:weight" ->
     escalar (calc_weights m) !! name = escalar m !! name) /\
  (forall e, e < n_edges (topo m) ->
     eget "e:weight" e (calc_weights m) = edge_weight_value m e) /\
  (forall v, v < n_vertices (topo m) ->
     vget "v:weight" v (calc_weights m) = vertex_weight_value m v).
Proof.
  intros Hm. unfold calc_weights.
  destruct (calc_edges_weights_frame m) as (Ht1 & Hp1 & Hs1 & Hv1 & _).
  destruct (calc_edges_weights_state m) as [_ Ho1].
  { intros a. apply Hm. }
  destruct (calc_vertices_weights_spec (calc_edges_weights m))
    as [(Ht2 & Hp2 & He2 & Hv2 & Ho2 & _) Hval].
  { intros a. by apply sized_calc_edges_weights. }
  split_and!; try congruence.
  - intros name Hne. rewrite Ho2 by done. by rewrite Hs1.
  - intros name Hne. rewrite He2. by apply Ho1.
  - intros e He. unfold eget. rewrite He2.
    apply calc_edges_weights_value; [|done]. intros a. apply Hm.
  - intros v Hv. rewrite Hval by (by rewrite Ht1).
    apply vertex_weight_value_ext; [done..|]. unfold vget. by rewrite Hs1.
Qed.
End WeightsResult.

(** X3. calc_weights changes the two weight attributes and nothing else:
    connectivity, positions, point attributes and every other scalar
    attribute are as before; afterwards every edge holds the cotangent
    weight computed from the positions and every vertex the weight
    calc_vertices_weights computes from them. *)
Theorem calc_weights_result {N : Numerics} (m : Surface_mesh) :
  sized m ->
  let w := calc_weights m in
  topo w = topo m /\ vpoint w = vpoint m /\ vvector w = vvector m /\
  (forall name, name <> "v:weight" -> vscalar w !! name = vscalar m !! name) /\
  (forall name, name <> "e:weight" -> escalar w !! name = escalar m !! name) /\
  (forall e, e < n_edges (topo m) ->
     eget "e:weight" e w = edge_weight_value m e) /\
  (forall v, v < n_vertices (topo m) ->
     vget "v:weight" v w = vertex_weight_value m v) /\
  sized w.
Proof.
  intros Hm w. subst w.
  destruct (calc_weights_spec m Hm) as (H1 & H2 & H3 & H4 & H5 & H6 & H7).
  split_and!; try done. by apply sized_calc_weights.
Qed.

Lemma calc_weights_result_witness :
  eget "e:weight" 1 (calc_weights pyramid) = S754_finite false 9686330 (-24) /\
  vget "v:weight" 0 (calc_weights pyramid) = S754_finite false 9687299 (-24).
Proof.
  destruct (calc_weights_result (N := ieee) pyramid)
    as (_ & _ & _ & _ & _ & He & Hv & _).
  { split; intros name a Ha; simpl in Ha; by rewrite lookup_empty in Ha. }
  split.
  - rewrite He by (simpl; lia). vm_compute. reflexivity.
  - rewrite Hv by (simpl; lia). vm_compute. reflexivity.
Defined.

(** ** The mean-curvature estimators *)

(** X4. calc_uniform_mean_curvature gives every interior vertex
    0.5f * norm(laplace / n), laplace being the single-precision sum of
    (neighbour - vertex) over the one-ring and n the number of neighbours
    counted in a double, and every boundary vertex 0. *)
Theorem calc_uniform_mean_curvature_value {N : Numerics}
  (m : Surface_mesh) (v : nat) :
  (forall a, vscalar m !! "v:unicurvature" = Some a ->
     length a = n_vertices (topo m)) ->
  v < n_vertices (topo m) ->
  vget "v:unicurvature" v (calc_uniform_mean_curvature m)
  = if is_boundary (topo m) v then s_of_nat 0
    else s_mul (s_const (1 # 2))
           (norm (vdiv (ring_sum (Point1 (s_const 0)) m v)
                    (narrow (count_d (vertices (topo m) v))))).
Proof.
  intros Hattr Hv. by apply calc_uniform_mean_curvature_reads.
Qed.

Lemma calc_uniform_mean_curvature_value_witness :
  vget "v:unicurvature" 0 (calc_uniform_mean_curvature pyramid)
  = S754_finite false 9686331 (-24) /\
  vget "v:unicurvature" 1 (calc_uniform_mean_curvature pyramid)
  = S754_zero false.
Proof.
  split.
  - rewrite (calc_uniform_mean_curvature_value (N := ieee) pyramid 0).
    + vm_compute. reflexivity.
    + intros a Ha. simpl in Ha. by rewrite lookup_empty in Ha.
    + simpl. lia.
  - rewrite (calc_uniform_mean_curvature_value (N := ieee) pyramid 1).
    + vm_compute. reflexivity.
    + intros a Ha. simpl in Ha. by rewrite lookup_empty in Ha.
    + simpl. lia.
Defined.

(** X5. calc_mean_curvature gives every interior vertex
    0.5f * norm(laplace * v_weight[v]), laplace being the sum over the
    outgoing halfedges of e_weight[edge] * (neighbour - vertex), and every
    boundary vertex 0.  It reads the weight attributes as they are, a weight
    that was never computed as 0: it does not call calc_weights. *)
Theorem calc_mean_curvature_value {N : Numerics} (m : Surface_mesh) (v : nat) :
  (forall a, vscalar m !! "v:curvature" = Some a ->
     length a = n_vertices (topo m)) ->
  v < n_vertices (topo m) ->
  vget "v:curvature" v (calc_mean_curvature m)
  = if is_boundary (topo m) v then s_const 0
    else s_mul (s_const (1 # 2))
           (norm (vscale (cotan_ring m v) (vget "v:weight" v m))).
Proof.
  intros Hattr Hv. by apply calc_mean_curvature_reads.
Qed.

Lemma calc_mean_curvature_value_witness :
  vget "v:curvature" 0 (calc_mean_curvature (calc_weights pyramid))
  = S754_finite false 9687298 (-23) /\
  vget "v:curvature" 0 (calc_mean_curvature pyramid) = S754_zero false.
Proof.
  split.
  - rewrite (calc_mean_curvature_value (N := ieee) (calc_weights pyramid) 0).
    + vm_compute. reflexivity.
    + intros a Ha. vm_compute in Ha. discriminate Ha.
    + vm_compute. lia.
  - rewrite (calc_mean_curvature_value (N := ieee) pyramid 0).
    + vm_compute. reflexivity.
    + intros a Ha. simpl in Ha. by rewrite lookup_empty in Ha.
    + simpl. lia.
Defined.

(** ** The curvature block of compute_mesh_properties *)

Section Pipeline.
Context {N : Numerics} {L : Libm N}.

Lemma calc_uniform_mean_curvature_writes (m : Surface_mesh) :
  writes_only "v:unicurvature" m (calc_uniform_mean_curvature m).
Proof.
  unfold calc_uniform_mean_curvature.
  eapply writes_only_trans; [apply writes_only_vertex_property|].
  apply writes_only_loop.
Qed.

Lemma calc_mean_curvature_writes (m : Surface_mesh) :
  writes_only "v:curvature" m (calc_mean_curvature m).
Proof.
  unfold calc_mean_curvature.
  eapply writes_only_trans; [apply writes_only_vertex_property|].
  eapply writes_only_trans; [apply writes_only_edge_property|].
  eapply writes_only_trans; [apply writes_only_vertex_property|].
  apply writes_only_loop.
Qed.

Lemma calc_gauss_curvature_writes (m : Surface_mesh) :
  writes_only "v:gauss_curvature" m (calc_gauss_curvature m).
Proof.
  unfold calc_gauss_curvature.
  eapply writes_only_trans; [apply writes_only_vertex_property|].
  eapply writes_only_trans; [apply writes_only_vertex_property|].
  apply writes_only_loop.
Qed.

Lemma sized_calc_uniform_mean_curvature (m : Surface_mesh) :
  sized m -> sized (calc_uniform_mean_curvature m).
Proof.
  intros Hm. unfold calc_uniform_mean_curvature.
  by apply sized_vset_loop, sized_vertex_property.
Qed.

Lemma sized_calc_mean_curvature (m : Surface_mesh) :
  sized m -> sized (calc_mean_curvature m).
Proof.
  intros Hm. unfold calc_mean_curvature.
  by apply sized_vset_loop, sized_vertex_property, sized_edge_property,
    sized_vertex_property.
Qed.

Lemma angle_deficit_ext (m1 m2 : Surface_mesh) (v : nat) :
  topo m1 = topo m2 -> vpoint m1 = vpoint m2 ->
  vget "v:weight" v m1 = vget "v:weight" v m2 ->
  angle_deficit m1 v = angle_deficit m2 v.
Proof.
  intros Ht Hp Hw. unfold angle_deficit, corner_angle, position.
  by rewrite Ht, Hp, Hw.
Qed.

Lemma calc_gauss_curvature_reads (m : Surface_mesh) (v : nat) :
  (forall a, vscalar m !! "v:gauss_curvature" = Some a ->
     length a = n_vertices (topo m)) ->
  v < n_vertices (topo m) ->
  vget "v:gauss_curvature" v (calc_gauss_curvature m)
  = if is_boundary (topo m) v then s_const 0 else angle_deficit m v.
Proof.
  intros Hattr Hv. unfold calc_gauss_curvature.
  set (m1 := vertex_property "v:gauss_curvature" (s_const 0) m).
  set (m0 := vertex_property "v:weight" (s_const 0) m1).
  destruct (vertex_property_frame "v:gauss_curvature" (s_const 0) m)
    as (Ht1 & Hp1 & _ & _).
  destruct (vertex_property_frame "v:weight" (s_const 0) m1)
    as (Ht2 & Hp2 & _ & _).
  fold m1 in Ht1, Hp1. fold m0 in Ht2, Hp2.
  assert (Ht : topo m0 = topo m) by congruence.
  assert (Hp : vpoint m0 = vpoint m) by congruence.
  destruct (vertex_property_sized "v:gauss_curvature" (s_const 0) m Hattr)
    as (a & Ha & Hla).
  fold m1 in Ha.
  assert (Ha0 : vscalar m0 !! "v:gauss_curvature" = Some a).
  { subst m0. by apply vertex_property_keeps. }
  assert (Hw : vget "v:weight" v m0 = vget "v:weight" v m).
  { subst m0 m1. by rewrite !vget_vertex_property. }
  unfold calc_gauss_curvature_body.
  rewrite (vset_loop "v:gauss_curvature"
             (fun v s => if negb (is_boundary (topo s) v) then
                s_mul (s_mul (s_sub (s_mul (s_of_nat 2) (narrow (d_const M_PI)))
                                (angle_sum s v)) (s_const 2))
                      (vget "v:weight" v s)
              else s_const 0)
             (n_vertices (topo m0)) a m0); [| |done|by rewrite Ht|lia].
  - rewrite gauss_body_value, Ht. destruct (is_boundary (topo m) v); [done|].
    by apply angle_deficit_ext.
  - intros u s1 s2 Ht' Hp' _ Hs'.
    unfold angle_sum, ring_angle, position, vget.
    by rewrite Ht', Hp', Hs'.
Qed.
End Pipeline.

(** X6. compute_mesh_properties calls calc_weights and then the three
    estimators.  After the four calls every vertex holds the three
    curvatures computed from the positions and from the weights calc_weights
    has just computed: no estimator disturbs the weights, the positions or
    the result of an estimator that ran before it. *)
Theorem curvature_block {N : Numerics} {L : Libm N} (m : Surface_mesh) (v : nat) :
  sized m -> v < n_vertices (topo m) ->
  let w := calc_weights m in
  let p := calc_gauss_curvature
             (calc_mean_curvature (calc_uniform_mean_curvature w)) in
  vget "v:unicurvature" v p
  = (if is_boundary (topo m) v then s_of_nat 0
     else uniform_mean_curvature m v) /\
  vget "v:curvature" v p
  = (if is_boundary (topo m) v then s_const 0
     else cotan_mean_curvature w v) /\
  vget "v:gauss_curvature" v p
  = (if is_boundary (topo m) v then s_const 0 else angle_deficit w v) /\
  topo p = topo m /\ vpoint p = vpoint m /\
  (forall e, eget "e:weight" e p = eget "e:weight" e w) /\
  (forall u, vget "v:weight" u p = vget "v:weight" u w).
Proof.
  intros Hm Hv w p.
  set (u := calc_uniform_mean_curvature w) in *.
  set (c := calc_mean_curvature u) in *.
  destruct (calc_weights_frame m) as (Htw & Hpw & _).
  fold w in Htw, Hpw.
  pose proof (sized_calc_weights m Hm) as Hw. fold w in Hw.
  pose proof (sized_calc_uniform_mean_curvature w Hw) as Hu. fold u in Hu.
  pose proof (sized_calc_mean_curvature u Hu) as Hc. fold c in Hc.
  destruct (calc_uniform_mean_curvature_writes w)
    as (Ht1 & Hp1 & _ & _ & Hg1 & _ & He1).
  destruct (calc_mean_curvature_writes u)
    as (Ht2 & Hp2 & _ & _ & Hg2 & _ & He2).
  destruct (calc_gauss_curvature_writes c)
    as (Ht3 & Hp3 & _ & _ & Hg3 & _ & He3).
  fold u in Ht1, Hp1, Hg1, He1. fold c in Ht2, Hp2, Hg2, He2.
  fold p in Ht3, Hp3, Hg3, He3.
  assert (Htu : topo u = topo m) by congruence.
  assert (Htc : topo c = topo m) by congruence.
  split_and!.
  - rewrite Hg3, Hg2 by done. subst u.
    rewrite calc_uniform_mean_curvature_reads;
      [| intros a; apply Hw | by rewrite Htw].
    rewrite Htw. destruct (is_boundary (topo m) v); [done|].
    unfold uniform_mean_curvature, ring_sum, position. by rewrite Htw, Hpw.
  - rewrite Hg3 by done. subst c.
    rewrite calc_mean_curvature_reads;
      [| intros a; apply Hu | by rewrite Htu].
    rewrite Htu. destruct (is_boundary (topo m) v); [done|].
    unfold cotan_mean_curvature. rewrite Hg1 by done. do 3 f_equal.
    by apply cotan_ring_ext.
  - subst p. rewrite calc_gauss_curvature_reads;
      [| intros a; apply Hc | by rewrite Htc].
    rewrite Htc. destruct (is_boundary (topo m) v); [done|].
    apply angle_deficit_ext; [congruence.. |].
    by rewrite Hg2, Hg1.
  - congruence.
  - congruence.
  - intros e. by rewrite He3, He2, He1.
  - intros x. by rewrite Hg3, Hg2, Hg1.
Qed.

Lemma curvature_block_witness :
  vget "v:gauss_curvature" 1
    (calc_gauss_curvature (L := reals_libm)
       (calc_mean_curvature
          (calc_uniform_mean_curvature (calc_weights real_pyramid)))) = 0%R /\
  vget "v:curvature" 0
    (calc_gauss_curvature (L := reals_libm)
       (calc_mean_curvature
          (calc_uniform_mean_curvature (calc_weights real_pyramid))))
  = cotan_mean_curvature (calc_weights real_pyramid) 0.
Proof.
  destruct (curvature_block (N := reals) (L := reals_libm) real_pyramid 1)
    as (_ & _ & H1 & _).
  { split; intros name a Ha; simpl in Ha; by rewrite lookup_empty in Ha. }
  { simpl. lia. }
  destruct (curvature_block (N := reals) (L := reals_libm) real_pyramid 0)
    as (_ & H0 & _).
  { split; intros name a Ha; simpl in Ha; by rewrite lookup_empty in Ha. }
  { simpl. lia. }
  split.
  - rewrite H1. simpl. apply Q2R_zero.
  - rewrite H0. reflexivity.
Defined.

(** ** smooth and uniform_smooth, over any number of iterations *)

Section SmoothRuns.
Context {N : Numerics}.

Lemma for_each_ext_in {S A : Type} (f g : A -> S -> S) (l : list A) (s : S) :
  (forall x s', x ∈ l -> f x s' = g x s') -> for_each l f s = for_each l g s.
Proof.
  unfold for_each. revert s.
  induction l as [|x l IH]; intros s Hfg; [done|]. simpl.
  rewrite Hfg by left. apply IH. intros y s' Hy. apply Hfg. by right.
Qed.

Lemma cotan_ring_split (w : nat -> Scalar) (m : Surface_mesh) (v : nat)
  (l : list nat) (p0 : Point) (w0 : Scalar) :
  for_each l
    (fun h '(laplace, ww) =>
       (vadd laplace
          (scale_l (w (edge (topo m) h))
             (vsub (position m (to_vertex (topo m) h)) (position m v))),
        s_add ww (w (edge (topo m) h))))
    (p0, w0)
  = (for_each l
       (fun h laplace =>
          vadd laplace
            (scale_l (w (edge (topo m) h))
               (vsub (position m (to_vertex (topo m) h)) (position m v))))
       p0,
     fold_left s_add ((fun h => w (edge (topo m) h)) <$> l) w0).
Proof.
  unfold for_each. revert p0 w0.
  induction l as [|x l IH]; intros p0 w0; [done|]. simpl. apply IH.
Qed.

(** The displacement of smooth, from the state in which the weights have
    just been recomputed. *)
Lemma cotan_laplacian_fresh (s : Surface_mesh) (v : nat) :
  sized s ->
  (forall h, h ∈ halfedges (topo s) v -> edge (topo s) h < n_edges (topo s)) ->
  cotan_laplacian (calc_edges_weights s) v
  = if is_boundary (topo s) v then Point1 (narrow (d_const 0))
    else vscale (vdiv (weighted_sum (edge_weight_value s) s v)
                   (weight_total (edge_weight_value s) (topo s) v))
           (narrow (d_const (1 # 2))).
Proof.
  intros Hs Hedge.
  destruct (calc_edges_weights_frame s) as (Ht & Hp & _).
  unfold cotan_laplacian. rewrite Ht.
  destruct (is_boundary (topo s) v); [done|]. simpl.
  rewrite (for_each_ext_in _
    (fun h '(laplace, ww) =>
       (vadd laplace
          (scale_l (edge_weight_value s (edge (topo s) h))
             (vsub (position s (to_vertex (topo s) h)) (position s v))),
        s_add ww (edge_weight_value s (edge (topo s) h))))).
  - by rewrite cotan_ring_split.
  - intros h [laplace ww] Hh.
    rewrite calc_edges_weights_value; [| intros a; apply Hs | by apply Hedge].
    unfold position. by rewrite Hp.
Qed.

Lemma sized_pset (name : string) (v : nat) (x : Point) (m : Surface_mesh) :
  sized m -> sized (pset name v x m).
Proof. done. Qed.

Lemma sized_set_position (v : nat) (x : Point) (m : Surface_mesh) :
  sized m -> sized (set_position v x m).
Proof. done. Qed.

Lemma sized_smooth_iter (s : Surface_mesh) : sized s -> sized (smooth_iter s).
Proof.
  intros Hs. unfold smooth_iter.
  apply (for_range_preserves sized).
  - apply (for_range_preserves sized); [by apply sized_calc_edges_weights|].
    intros k s' Hs'. by apply sized_pset.
  - intros k s' Hs'. by apply sized_set_position.
Qed.

Lemma sized_smooth (k : nat) (m : Surface_mesh) : sized m -> sized (smooth k m).
Proof.
  intros Hm. unfold smooth.
  apply (Nat_iter_preserves sized); [|apply sized_smooth_iter].
  apply sized_edge_property. unfold vertex_property_point.
  by destruct (vvector m !! "v:new_pos").
Qed.

(** One iteration of smooth: every position becomes the old position plus
    the displacement computed from the old positions and the weights
    recomputed from them. *)
Lemma smooth_iter_positions (s : Surface_mesh) (v : nat) :
  smooth_state "v:new_pos" (n_vertices (topo s)) (topo s) s ->
  v < n_vertices (topo s) ->
  position (smooth_iter s) v
  = vadd (position s v) (cotan_laplacian (calc_edges_weights s) v).
Proof.
  intros (_ & Hlen & a & Ha & Hla) Hv.
  destruct (calc_edges_weights_frame s) as (Ht & Hp & Hvs & Hvv & _).
  destruct (stage_commit "v:new_pos"
              (fun v m => vadd (position m v) (cotan_laplacian m v))
              (calc_edges_weights s))
    as (_ & _ & _ & _ & Hpos).
  { intros u m1 m2 Ht' Hp' _ He'.
    unfold cotan_laplacian, position, eget. by rewrite Ht', Hp', He'. }
  { rewrite Ht. split_and!; [done | by rewrite Hp |].
    exists a. by rewrite Hvv. }
  unfold smooth_iter, smooth_stage, smooth_commit.
  assert (Ht' : topo (for_range (n_vertices (topo (calc_edges_weights s)))
                 (fun v m => pset "v:new_pos" v
                    (vadd (position m v) (cotan_laplacian m v)) m)
                 (calc_edges_weights s))
               = topo (calc_edges_weights s)).
  { apply (for_range_preserves
             (fun m => topo m = topo (calc_edges_weights s))); done. }
  rewrite Ht'. rewrite Hpos by (by rewrite Ht).
  f_equal. unfold position. by rewrite Hp.
Qed.
End SmoothRuns.

(** X7. Iteration k+1 of smooth first recomputes the cotangent weights from
    the positions after iteration k, then takes every interior vertex to its
    position after iteration k plus 0.5 times the weighted sum of
    (neighbour - vertex) divided by the sum of the weights, all positions
    and weights in that expression being those of iteration k; to a
    boundary vertex it adds the zero of Point(0.0). *)
Theorem smooth_iteration {N : Numerics} (m : Surface_mesh) (k v : nat) :
  sized m ->
  length (vpoint m) = n_vertices (topo m) ->
  (forall a, vvector m !! "v:new_pos" = Some a ->
     length a = n_vertices (topo m)) ->
  v < n_vertices (topo m) ->
  (forall h, h ∈ halfedges (topo m) v -> edge (topo m) h < n_edges (topo m)) ->
  let old := smooth k m in
  let new := smooth (S k) m in
  let w := edge_weight_value old in
  (is_boundary (topo m) v = false ->
     position new v
     = vadd (position old v)
         (vscale (vdiv (weighted_sum w old v) (weight_total w (topo m) v))
            (narrow (d_const (1 # 2))))) /\
  (is_boundary (topo m) v = true ->
     position new v = vadd (position old v) (Point1 (narrow (d_const 0)))).
Proof.
  intros Hm Hlen Hattr Hv Hedge old new w.
  destruct (smooth_run_state m k Hlen Hattr) as [Hs _]. fold old in Hs.
  assert (Ht : topo old = topo m) by apply Hs.
  pose proof (sized_smooth k m Hm) as Hsz. fold old in Hsz.
  assert (Hnew : position new v
                 = vadd (position old v)
                     (cotan_laplacian (calc_edges_weights old) v)).
  { subst new. unfold smooth. simpl. apply smooth_iter_positions.
    - by rewrite Ht.
    - by rewrite Ht. }
  rewrite Hnew, cotan_laplacian_fresh, Ht; [| done | by rewrite Ht].
  split; intros Hb; by rewrite Hb.
Qed.

Lemma smooth_iteration_witness :
  px (position (smooth 1 pyramid) 0) = S754_finite false 11184810 (-24) /\
  px (position (smooth 1 pyramid) 1) = S754_finite false 8388608 (-23).
Proof.
  destruct (smooth_iteration (N := ieee) pyramid 0 0) as [H0 _].
  { split; intros name a Ha; simpl in Ha; by rewrite lookup_empty in Ha. }
  { reflexivity. }
  { intros a Ha. simpl in Ha. by rewrite lookup_empty in Ha. }
  { simpl. lia. }
  { intros h Hh. apply list_elem_of_In in Hh. simpl in Hh.
    destruct Hh as [<-|[<-|[<-|[]]]]; vm_compute; lia. }
  destruct (smooth_iteration (N := ieee) pyramid 0 1) as [_ H1].
  { split; intros name a Ha; simpl in Ha; by rewrite lookup_empty in Ha. }
  { reflexivity. }
  { intros a Ha. simpl in Ha. by rewrite lookup_empty in Ha. }
  { simpl. lia. }
  { intros h Hh. apply list_elem_of_In in Hh. simpl in Hh.
    destruct Hh as [<-|[<-|[<-|[]]]]; vm_compute; lia. }
  split.
  - rewrite H0 by reflexivity. vm_compute. reflexivity.
  - rewrite H1 by reflexivity. vm_compute. reflexivity.
Defined.

Section SmoothFrames.
Context {N : Numerics}.

(** What one iteration of uniform_smooth keeps. *)
Lemma uniform_smooth_iter_full (s : Surface_mesh) :
  smooth_state "v:new_positions" (n_vertices (topo s)) (topo s) s ->
  smooth_state "v:new_positions" (n_vertices (topo s)) (topo s)
    (uniform_smooth_iter s) /\
  vscalar (uniform_smooth_iter s) = vscalar s /\
  escalar (uniform_smooth_iter s) = escalar s /\
  (forall name, name <> "v:new_positions" ->
     vvector (uniform_smooth_iter s) !! name = vvector s !! name) /\
  forall v, v < n_vertices (topo s) ->
    position (uniform_smooth_iter s) v
    = vadd (position s v) (uniform_laplacian s v).
Proof.
  intros Hs.
  destruct (stage_commit "v:new_positions"
              (fun v m => vadd (position m v) (uniform_laplacian m v)) s)
    as (H1 & H2 & H3 & H4 & H5); [|done|].
  { intros v m1 m2 Ht Hp _ _.
    unfold uniform_laplacian, position. by rewrite Ht, Hp. }
  unfold uniform_smooth_iter, uniform_smooth_stage, uniform_smooth_commit.
  assert (Ht : topo (for_range (n_vertices (topo s))
                 (fun v m => pset "v:new_positions" v
                    (vadd (position m v) (uniform_laplacian m v)) m) s)
               = topo s).
  { apply (for_range_preserves (fun m => topo m = topo s)); done. }
  rewrite Ht. done.
Qed.

(** What one iteration of smooth keeps. *)
Lemma smooth_iter_full (s : Surface_mesh) :
  sized s ->
  smooth_state "v:new_pos" (n_vertices (topo s)) (topo s) s ->
  smooth_state "v:new_pos" (n_vertices (topo s)) (topo s) (smooth_iter s) /\
  vscalar (smooth_iter s) = vscalar s /\
  (forall name, name <> "e:weight" ->
     escalar (smooth_iter s) !! name = escalar s !! name) /\
  (forall name, name <> "v:new_pos" ->
     vvector (smooth_iter s) !! name = vvector s !! name).
Proof.
  intros Hsz (_ & Hlen & a & Ha & Hla).
  destruct (calc_edges_weights_frame s) as (Ht & Hp & Hv & Hvv & _).
  destruct (calc_edges_weights_state s) as [_ Ho].
  { intros b. apply Hsz. }
  destruct (stage_commit "v:new_pos"
              (fun v m => vadd (position m v) (cotan_laplacian m v))
              (calc_edges_weights s))
    as (H1 & H2 & H3 & H4 & _).
  { intros v m1 m2 Ht' Hp' _ He'.
    unfold cotan_laplacian, position, eget. by rewrite Ht', Hp', He'. }
  { rewrite Ht. split_and!; [done | by rewrite Hp |].
    exists a. by rewrite Hvv. }
  unfold smooth_iter, smooth_stage, smooth_commit.
  assert (Ht' : topo (for_range (n_vertices (topo (calc_edges_weights s)))
                 (fun v m => pset "v:new_pos" v
                    (vadd (position m v) (cotan_laplacian m v)) m)
                 (calc_edges_weights s))
               = topo (calc_edges_weights s)).
  { apply (for_range_preserves
             (fun m => topo m = topo (calc_edges_weights s))); done. }
  rewrite Ht'. rewrite Ht in H1, H2, H3, H4 |- *.
  split_and!; [exact H1 | congruence | |].
  - intros name Hne. rewrite H3. by apply Ho.
  - intros name Hne. rewrite H4 by done. by rewrite Hvv.
Qed.

(** The frame of a run of uniform_smooth. *)
Lemma uniform_smooth_frame (k : nat) (m : Surface_mesh) :
  length (vpoint m) = n_vertices (topo m) ->
  (forall a, vvector m !! "v:new_positions" = Some a ->
     length a = n_vertices (topo m)) ->
  smooth_state "v:new_positions" (n_vertices (topo m)) (topo m)
    (uniform_smooth k m) /\
  vscalar (uniform_smooth k m) = vscalar m /\
  escalar (uniform_smooth k m) = escalar m /\
  (forall name, name <> "v:new_positions" ->
     vvector (uniform_smooth k m) !! name = vvector m !! name).
Proof.
  intros Hlen Hattr. unfold uniform_smooth.
  set (m0 := vertex_property_point "v:new_positions" origin m).
  apply (Nat_iter_preserves (fun s =>
    smooth_state "v:new_positions" (n_vertices (topo m)) (topo m) s /\
    vscalar s = vscalar m /\ escalar s = escalar m /\
    (forall name, name <> "v:new_positions" ->
       vvector s !! name = vvector m !! name))).
  - subst m0. unfold vertex_property_point, smooth_state.
    destruct (vvector m !! "v:new_positions") as [a|] eqn:Ha; simpl.
    + split_and!; try done. exists a. split; [done | by apply Hattr].
    + split_and!; try done.
      * eexists. rewrite lookup_insert_eq. split; [done|].
        by rewrite length_replicate.
      * intros name Hne. by rewrite lookup_insert_ne.
  - intros s (Hs & Hv & He & Ho).
    assert (Ht : topo s = topo m) by apply Hs.
    destruct (uniform_smooth_iter_full s) as (H1 & H2 & H3 & H4 & _).
    { by rewrite Ht. }
    rewrite Ht in H1. split_and!; [done | congruence | congruence |].
    intros name Hne. rewrite H4 by done. by apply Ho.
Qed.

(** The frame of a run of smooth. *)
Lemma smooth_frame (k : nat) (m : Surface_mesh) :
  sized m ->
  length (vpoint m) = n_vertices (topo m) ->
  (forall a, vvector m !! "v:new_pos" = Some a ->
     length a = n_vertices (topo m)) ->
  smooth_state "v:new_pos" (n_vertices (topo m)) (topo m) (smooth k m) /\
  vscalar (smooth k m) = vscalar m /\
  (forall name, name <> "e:weight" ->
     escalar (smooth k m) !! name = escalar m !! name) /\
  (forall name, name <> "v:new_pos" ->
     vvector (smooth k m) !! name = vvector m !! name).
Proof.
  intros Hm Hlen Hattr. unfold smooth.
  set (m0 := edge_property "e:weight" (s_const 0)
               (vertex_property_point "v:new_pos" origin m)).
  assert (Hm0 : sized m0).
  { subst m0. apply sized_edge_property. unfold vertex_property_point.
    by destruct (vvector m !! "v:new_pos"). }
  enough (H : sized (Nat.iter k smooth_iter m0) /\
    smooth_state "v:new_pos" (n_vertices (topo m)) (topo m)
      (Nat.iter k smooth_iter m0) /\
    vscalar (Nat.iter k smooth_iter m0) = vscalar m /\
    (forall name, name <> "e:weight" ->
       escalar (Nat.iter k smooth_iter m0) !! name = escalar m !! name) /\
    (forall name, name <> "v:new_pos" ->
       vvector (Nat.iter k smooth_iter m0) !! name = vvector m !! name))
    by (by destruct H as (_ & H)).
  apply (Nat_iter_preserves (fun s =>
    sized s /\
    smooth_state "v:new_pos" (n_vertices (topo m)) (topo m) s /\
    vscalar s = vscalar m /\
    (forall name, name <> "e:weight" -> escalar s !! name = escalar m !! name) /\
    (forall name, name <> "v:new_pos" ->
       vvector s !! name = vvector m !! name))).
  - split; [done|]. subst m0.
    unfold edge_property, vertex_property_point, smooth_state.
    destruct (vvector m !! "v:new_pos") as [a|] eqn:Ha; simpl;
      destruct (escalar _ !! "e:weight") eqn:He; simpl.
    + split_and!; try done. exists a. split; [done | by apply Hattr].
    + split_and!; try done.
      * exists a. split; [done | by apply Hattr].
      * intros name Hne. by rewrite lookup_insert_ne.
    + split_and!; try done.
      * eexists. rewrite lookup_insert_eq. split; [done|].
        by rewrite length_replicate.
      * intros name Hne. by rewrite lookup_insert_ne.
    + split_and!; try done.
      * eexists. rewrite lookup_insert_eq. split; [done|].
        by rewrite length_replicate.
      * intros name Hne. by rewrite lookup_insert_ne.
      * intros name Hne. by rewrite lookup_insert_ne.
  - intros s (Hsz & Hs & Hv & He & Ho).
    assert (Ht : topo s = topo m) by apply Hs.
    destruct (smooth_iter_full s Hsz) as (H1 & H2 & H3 & H4).
    { by rewrite Ht. }
    rewrite Ht in H1.
    split_and!; [by apply sized_smooth_iter | done | congruence | |].
    + intros name Hne. rewrite H3 by done. by apply He.
    + intros name Hne. rewrite H4 by done. by apply Ho.
Qed.
End SmoothFrames.

(** X8. uniform_smooth and smooth, run for any number of iterations, leave
    the connectivity, the number of positions, every scalar vertex attribute
    and every point attribute but their staging array as they were;
    uniform_smooth leaves the edge attributes too, smooth all of them but
    the edge weights it recomputes.  With 0 iterations the positions are
    unchanged. *)
Theorem smoothing_frame {N : Numerics} (k : nat) (m : Surface_mesh) :
  sized m ->
  length (vpoint m) = n_vertices (topo m) ->
  (forall name a, vvector m !! name = Some a ->
     length a = n_vertices (topo m)) ->
  let u := uniform_smooth k m in
  let c := smooth k m in
  (topo u = topo m /\ length (vpoint u) = length (vpoint m) /\
   vscalar u = vscalar m /\ escalar u = escalar m /\
   (forall name, name <> "v:new_positions" ->
      vvector u !! name = vvector m !! name)) /\
  (topo c = topo m /\ length (vpoint c) = length (vpoint m) /\
   vscalar c = vscalar m /\
   (forall name, name <> "e:weight" -> escalar c !! name = escalar m !! name) /\
   (forall name, name <> "v:new_pos" ->
      vvector c !! name = vvector m !! name)) /\
  (k = 0 -> vpoint u = vpoint m /\ vpoint c = vpoint m).
Proof.
  intros Hm Hlen Hattr u c.
  destruct (uniform_smooth_frame k m Hlen) as ((Ht1 & Hl1 & _) & Hv1 & He1 & Ho1).
  { apply Hattr. }
  destruct (smooth_frame k m Hm Hlen) as ((Ht2 & Hl2 & _) & Hv2 & He2 & Ho2).
  { apply Hattr. }
  split_and!; try done; [subst u; congruence | subst c; congruence |].
  intros ->. subst u c. unfold uniform_smooth, smooth, vertex_property_point,
    edge_property. simpl.
  destruct (vvector m !! "v:new_positions"), (vvector m !! "v:new_pos"); simpl;
    destruct (escalar m !! "e:weight"); done.
Qed.

Lemma smoothing_frame_witness :
  topo (smooth 2 pyramid) = fan /\
  vscalar (uniform_smooth 2 pyramid) = ∅ /\
  vpoint (smooth 0 pyramid) = vpoint pyramid.
Proof.
  destruct (smoothing_frame (N := ieee) 2 pyramid)
    as ((_ & _ & Hv & _) & (Ht & _) & _).
  { split; intros name a Ha; simpl in Ha; by rewrite lookup_empty in Ha. }
  { reflexivity. }
  { intros name a Ha. simpl in Ha. by rewrite lookup_empty in Ha. }
  destruct (smoothing_frame (N := ieee) 0 pyramid) as (_ & _ & H0).
  { split; intros name a Ha; simpl in Ha; by rewrite lookup_empty in Ha. }
  { reflexivity. }
  { intros name a Ha. simpl in Ha. by rewrite lookup_empty in Ha. }
  split_and!; [exact Ht | exact Hv | by apply H0].
Defined.

Section Boundary.
Context {N : Numerics}.

Lemma uniform_smooth_boundary (m : Surface_mesh) (k v : nat) :
  length (vpoint m) = n_vertices (topo m) ->
  (forall a, vvector m !! "v:new_positions" = Some a ->
     length a = n_vertices (topo m)) ->
  v < n_vertices (topo m) -> is_boundary (topo m) v = true ->
  position (uniform_smooth k m) v
  = Nat.iter k (fun p => vadd p (Point1 (narrow (d_const 0)))) (position m v).
Proof.
  intros Hlen Hattr Hv Hb. induction k as [|k IH].
  - unfold uniform_smooth, vertex_property_point. simpl.
    by destruct (vvector m !! "v:new_positions").
  - destruct (uniform_smooth_frame k m Hlen Hattr) as (Hs & _).
    assert (Ht : topo (uniform_smooth k m) = topo m) by apply Hs.
    destruct (uniform_smooth_iter_full (uniform_smooth k m))
      as (_ & _ & _ & _ & Hpos).
    { by rewrite Ht. }
    change (uniform_smooth (S k) m)
      with (uniform_smooth_iter (uniform_smooth k m)).
    rewrite Hpos by (by rewrite Ht).
    rewrite uniform_laplacian_eq, Ht, Hb, IH. reflexivity.
Qed.

Lemma smooth_boundary (m : Surface_mesh) (k v : nat) :
  length (vpoint m) = n_vertices (topo m) ->
  (forall a, vvector m !! "v:new_pos" = Some a ->
     length a = n_vertices (topo m)) ->
  v < n_vertices (topo m) -> is_boundary (topo m) v = true ->
  position (smooth k m) v
  = Nat.iter k (fun p => vadd p (Point1 (narrow (d_const 0)))) (position m v).
Proof.
  intros Hlen Hattr Hv Hb. induction k as [|k IH].
  - unfold smooth, vertex_property_point, edge_property. simpl.
    destruct (vvector m !! "v:new_pos"); simpl;
      by destruct (escalar m !! "e:weight").
  - destruct (smooth_run_state m k Hlen Hattr) as (Hs & _).
    assert (Ht : topo (smooth k m) = topo m) by apply Hs.
    change (smooth (S k) m) with (smooth_iter (smooth k m)).
    rewrite smooth_iter_positions; [| by rewrite Ht | by rewrite Ht].
    unfold cotan_laplacian.
    destruct (calc_edges_weights_frame (smooth k m)) as (-> & _).
    rewrite Ht, Hb, IH. reflexivity.
Qed.

(** However often the zero is added, the point stays the same point. *)
Lemma add_zero_iter {Z : ZeroStable N} {A : AddZero N} (k : nat) (p : Point) :
  same_point
    (Nat.iter k (fun p => vadd p (Point1 (narrow (d_const 0)))) p) p.
Proof.
  destruct k as [|k].
  - simpl. unfold same_point, same_number. auto.
  - assert (H : Nat.iter (S k) (fun p => vadd p (Point1 (narrow (d_const 0)))) p
                = vadd p (Point1 (narrow (d_const 0)))).
    { induction k as [|k IH]; [done|].
      change (Nat.iter (S (S k)) ?f p) with (f (Nat.iter (S k) f p)).
      rewrite IH. unfold vadd, Point1. simpl. by rewrite !zero_stable. }
    rewrite H. unfold same_point, vadd, Point1. simpl.
    split_and!; apply add_zero_r.
Qed.
End Boundary.

Lemma ieee_zero_stable : ZeroStable ieee.
Proof.
  intros x. destruct x as [[|]|[|]| |[|] m e]; reflexivity.
Qed.

Lemma reals_zero_stable : ZeroStable reals.
Proof.
  intros x. simpl. rewrite Q2R_zero. lra.
Qed.

(** X9. Over any number of iterations of uniform_smooth or of smooth a
    boundary vertex only has the zero of Point(0.0) added to its
    coordinates, once per iteration: it stays where it was (in IEEE
    arithmetic a coordinate -0 becomes +0, nothing else changes). *)
Theorem boundary_vertex_fixed {N : Numerics} (m : Surface_mesh) (k v : nat) :
  length (vpoint m) = n_vertices (topo m) ->
  (forall name a, vvector m !! name = Some a ->
     length a = n_vertices (topo m)) ->
  v < n_vertices (topo m) ->
  is_boundary (topo m) v = true ->
  let add_zero := fun p => vadd p (Point1 (narrow (d_const 0))) in
  position (uniform_smooth k m) v = Nat.iter k add_zero (position m v) /\
  position (smooth k m) v = Nat.iter k add_zero (position m v) /\
  (ZeroStable N -> AddZero N ->
   same_point (position (uniform_smooth k m) v) (position m v) /\
   same_point (position (smooth k m) v) (position m v)).
Proof.
  intros Hlen Hattr Hv Hb add_zero.
  assert (H1 := uniform_smooth_boundary m k v Hlen (Hattr _) Hv Hb).
  assert (H2 := smooth_boundary m k v Hlen (Hattr _) Hv Hb).
  split_and!; [exact H1 | exact H2 |].
  intros Z A. rewrite H1, H2. split; apply add_zero_iter.
Qed.

Lemma boundary_vertex_fixed_witness :
  position (uniform_smooth 5 pyramid) 1 = position pyramid 1 /\
  same_point (position (smooth 5 pyramid) 2) (position pyramid 2).
Proof.
  destruct (boundary_vertex_fixed (N := ieee) pyramid 5 1) as (H1 & _).
  { reflexivity. }
  { intros name a Ha. simpl in Ha. by rewrite lookup_empty in Ha. }
  { simpl. lia. }
  { reflexivity. }
  destruct (boundary_vertex_fixed (N := ieee) pyramid 5 2) as (_ & _ & H2).
  { reflexivity. }
  { intros name a Ha. simpl in Ha. by rewrite lookup_empty in Ha. }
  { simpl. lia. }
  { reflexivity. }
  split.
  - rewrite H1. reflexivity.
  - apply H2; [exact ieee_zero_stable | exact ieee_add_zero].
Defined.

(** ** Feature enhancement, for any coefficient *)

Section EnhanceGain.
Context {N : Numerics}.

(** Sharpening around any pass [pass] that keeps the connectivity, the size
    of the position array and the saved positions: every vertex ends at
    s + (o - s) * coefficient, o its position before the call and s the one
    the pass left. *)
Lemma enhance_gain (pass : Surface_mesh -> Surface_mesh) (c : nat)
  (m : Surface_mesh) (v : nat) :
  length (vpoint m) = n_vertices (topo m) ->
  (forall a, vvector m !! "v:old_pos" = Some a ->
     length a = n_vertices (topo m)) ->
  (forall s, topo s = topo m -> length (vpoint s) = n_vertices (topo m) ->
     (forall name, name <> "v:old_pos" ->
        vvector s !! name = vvector m !! name) ->
     topo (pass s) = topo m /\
     length (vpoint (pass s)) = n_vertices (topo m) /\
     vvector (pass s) !! "v:old_pos" = vvector s !! "v:old_pos") ->
  v < n_vertices (topo m) ->
  let m0 := vertex_property_point "v:old_pos" origin m in
  let m1 := for_range (n_vertices (topo m0)) save_old_pos m0 in
  let m2 := pass m1 in
  vpoint m1 = vpoint m /\
  position (for_range (n_vertices (topo m2)) (enhance c) m2) v
  = vadd (position m2 v)
      (vscale (vsub (position m v) (position m2 v)) (s_of_nat c)).
Proof.
  intros Hlen Hattr Hpass Hv m0 m1 m2.
  assert (H0 : topo m0 = topo m /\ vpoint m0 = vpoint m /\
               (forall name, name <> "v:old_pos" ->
                  vvector m0 !! name = vvector m !! name) /\
               exists a, vvector m0 !! "v:old_pos" = Some a /\
                         length a = n_vertices (topo m)).
  { subst m0. unfold vertex_property_point.
    destruct (vvector m !! "v:old_pos") as [a|] eqn:Ha; simpl.
    - split_and!; try done. exists a. split; [done | by apply Hattr].
    - split_and!; try done.
      + intros name Hne. by rewrite lookup_insert_ne.
      + eexists. rewrite lookup_insert_eq.
        split; [done|]. by rewrite length_replicate. }
  destruct H0 as (Ht0 & Hp0 & Hn0 & a & Ha & Hla).
  destruct (pset_loop "v:old_pos" (fun v s => position s v)
              (n_vertices (topo m0)) a m0)
    as (Ht1 & Hp1 & _ & _ & Ho1 & _ & Hg1); [|done|].
  { intros k s1 s2 _ Hp _ _. unfold position. by rewrite Hp. }
  change (for_range (n_vertices (topo m0))
            (fun v s => pset "v:old_pos" v (position s v) s) m0)
    with m1 in Ht1, Hp1, Ho1, Hg1.
  split; [congruence|].
  destruct (Hpass m1) as (Ht2 & Hl2 & Ho2).
  { by rewrite Ht1. }
  { by rewrite Hp1, Hp0. }
  { intros name Hne. rewrite Ho1 by done. by apply Hn0. }
  fold m2 in Ht2, Hl2, Ho2.
  destruct (set_position_loop
              (fun i s => vadd (position s i)
                 (vscale (vsub (pget "v:old_pos" i s) (position s i))
                    (s_of_nat c)))
              (n_vertices (topo m2)) m2)
    as (_ & _ & _ & _ & _ & Hpos & _).
  { intros i s1 s2 (_ & _ & _ & Hvv & Hp). unfold pget. by rewrite Hvv, Hp. }
  unfold enhance. rewrite Hpos by (rewrite ?Ht2, ?Hl2; done).
  do 3 f_equal. unfold pget. rewrite Ho2.
  specialize (Hg1 v). unfold pget in Hg1. rewrite Hg1 by (rewrite ?Ht0; lia).
  unfold position. by rewrite Hp0.
Qed.
End EnhanceGain.

(** X10. For every coefficient c and every number of iterations,
    uniform_laplacian_enhance_feature and laplace_beltrami_enhance_feature
    set every vertex to s + (o - s) * c, o being its position before the
    call and s the position the smoothing pass, run from the positions
    before the call, left. *)
Theorem enhance_feature_gain {N : Numerics}
  (iterations coefficient : nat) (m : Surface_mesh) (v : nat) :
  length (vpoint m) = n_vertices (topo m) ->
  (forall name a, vvector m !! name = Some a ->
     length a = n_vertices (topo m)) ->
  v < n_vertices (topo m) ->
  let saved := for_range (n_vertices (topo m)) save_old_pos
                 (vertex_property_point "v:old_pos" origin m) in
  let o := position m v in
  let s_uniform := position (uniform_smooth iterations saved) v in
  let s_cotan := position (smooth iterations saved) v in
  vpoint saved = vpoint m /\
  position (uniform_laplacian_enhance_feature iterations coefficient m) v
  = vadd s_uniform (vscale (vsub o s_uniform) (s_of_nat coefficient)) /\
  position (laplace_beltrami_enhance_feature iterations coefficient m) v
  = vadd s_cotan (vscale (vsub o s_cotan) (s_of_nat coefficient)).
Proof.
  intros Hlen Hattr Hv saved o s_uniform s_cotan.
  assert (Hn : n_vertices (topo (vertex_property_point "v:old_pos" origin m))
               = n_vertices (topo m)).
  { unfold vertex_property_point. by destruct (vvector m !! "v:old_pos"). }
  split_and!.
  - destruct (enhance_gain (fun s => s) coefficient m v) as [H _];
      try done; [by eapply Hattr|]. subst saved. by rewrite <- Hn.
  - unfold uniform_laplacian_enhance_feature.
    destruct (enhance_gain (uniform_smooth iterations) coefficient m v)
      as [_ H]; try done.
    + by eapply Hattr.
    + intros s Ht Hl Hsame.
      destruct (uniform_smooth_state s iterations) as ((Ht' & Hl' & _) & Ho).
      * congruence.
      * intros a Ha. rewrite Hsame in Ha by done. rewrite Ht. by eapply Hattr.
      * rewrite Ht in Ht', Hl'. done.
    + rewrite H. subst s_uniform saved. by rewrite Hn.
  - unfold laplace_beltrami_enhance_feature.
    destruct (enhance_gain (smooth iterations) coefficient m v)
      as [_ H]; try done.
    + by eapply Hattr.
    + intros s Ht Hl Hsame.
      destruct (smooth_run_state s iterations) as ((Ht' & Hl' & _) & Ho).
      * congruence.
      * intros a Ha. rewrite Hsame in Ha by done. rewrite Ht. by eapply Hattr.
      * rewrite Ht in Ht', Hl'. done.
    + rewrite H. subst s_cotan saved. by rewrite Hn.
Qed.

Lemma enhance_feature_gain_witness :
  px (position (uniform_laplacian_enhance_feature 1 2 pyramid) 0)
  = S754_finite false 11184811 (-23) /\
  px (position (laplace_beltrami_enhance_feature 1 0 pyramid) 0)
  = S754_finite false 11184810 (-24).
Proof.
  destruct (enhance_feature_gain (N := ieee) 1 2 pyramid 0) as (_ & Hu & _).
  { reflexivity. }
  { intros name a Ha. simpl in Ha. by rewrite lookup_empty in Ha. }
  { simpl. lia. }
  destruct (enhance_feature_gain (N := ieee) 1 0 pyramid 0) as (_ & _ & Hc).
  { reflexivity. }
  { intros name a Ha. simpl in Ha. by rewrite lookup_empty in Ha. }
  { simpl. lia. }
  split.
  - rewrite Hu. vm_compute. reflexivity.
  - rewrite Hc. vm_compute. reflexivity.
Defined.

(** ** The matrices of the two systems *)

Section Matrices.
Context {N : Numerics}.

(** The entries of a row of implicit_smoothing's matrix. *)
Lemma implicit_entries (timestep : Double) (w : Surface_mesh) (i : nat) :
  i < n_vertices (topo w) ->
  NoDup (vertices (topo w) i) -> i ∉ vertices (topo w) i ->
  let A := (implicit_setup timestep w).2 in
  (forall h, h ∈ halfedges (topo w) i ->
     coeff A i (to_vertex (topo w) h)
     = Some (d_mul (d_opp timestep)
               (widen (eget "e:weight" (edge (topo w) h) w)))) /\
  (forall j, j <> i -> j ∉ vertices (topo w) i -> coeff A i j = None).
Proof.
  intros Hi Hnd Hself A. subst A. rewrite implicit_setup_eq. simpl. split.
  - intros h Hh.
    rewrite coeff_rows by (done || apply implicit_lhs_row_index).
    rewrite implicit_lhs_row_eq.
    exact (proj1 (coeff_row i (to_vertex (topo w)) _ _ _ Hnd Hself) h Hh).
  - intros j Hj Hnj.
    rewrite coeff_rows by (done || apply implicit_lhs_row_index).
    rewrite implicit_lhs_row_eq.
    exact (proj2 (proj2 (coeff_row i (to_vertex (topo w)) _ _ _ Hnd Hself))
             j Hj Hnj).
Qed.

(** The entries of a row of minimal_surface's matrix. *)
Lemma minimal_entries (w m_init : Surface_mesh) (i : nat) :
  i < n_vertices (topo w) ->
  let A := (minimal_setup w m_init).2 in
  (is_boundary (topo w) i = true ->
     forall j, j <> i -> coeff A i j = None) /\
  (is_boundary (topo w) i = false ->
     NoDup (vertices (topo w) i) -> i ∉ vertices (topo w) i ->
     (forall h, h ∈ halfedges (topo w) i ->
        coeff A i (to_vertex (topo w) h)
        = Some (d_opp (widen (eget "e:weight" (edge (topo w) h) w)))) /\
     (forall j, j <> i -> j ∉ vertices (topo w) i -> coeff A i j = None)).
Proof.
  intros Hi A.
  assert (Hco : forall j, coeff A i j = coeff (minimal_lhs_row w i) i j).
  { intros j. subst A. rewrite (proj2 (minimal_setup_eq w m_init)).
    apply coeff_rows; [apply minimal_lhs_row_index | done]. }
  split.
  - intros Hb j Hj. rewrite Hco. unfold minimal_lhs_row. rewrite Hb.
    by apply coeff_identity_row.
  - intros Hb Hnd Hself. split.
    + intros h Hh. rewrite Hco, minimal_lhs_row_interior by done.
      exact (proj1 (coeff_row i (to_vertex (topo w)) _ _ _ Hnd Hself) h Hh).
    + intros j Hj Hnj. rewrite Hco, minimal_lhs_row_interior by done.
      exact (proj2 (proj2 (coeff_row i (to_vertex (topo w)) _ _ _ Hnd Hself))
               j Hj Hnj).
Qed.

(** In a paired connectivity, being a neighbour is symmetric. *)
Lemma paired_neighbours (t : Topology) (i j : nat) :
  paired t -> i < n_vertices t -> j ∈ vertices t i -> i ∈ vertices t j.
Proof.
  intros Hp Hi Hj. apply list_elem_of_fmap in Hj as (h & -> & Hh).
  destruct (Hp i h Hi Hh) as (h' & Hh' & Hto & _).
  apply list_elem_of_fmap. by exists h'.
Qed.
End Matrices.

(** X11. On a mesh in which every halfedge has its opposite on the same
    edge, the matrix implicit_smoothing assembles is symmetric: the entries
    (i, j) and (j, i) are both -timestep * cotan of the edge between i and
    j, or both absent. *)
Theorem implicit_smoothing_symmetric {N : Numerics}
  (timestep : Double) (m : Surface_mesh) (i j : nat) :
  paired (topo m) -> simple_rings (topo m) ->
  i < n_vertices (topo m) -> j < n_vertices (topo m) ->
  let A := (implicit_setup timestep (calc_weights m)).2 in
  coeff A i j = coeff A j i.
Proof.
  intros Hp Hr Hi Hj A.
  destruct (calc_weights_frame m) as (Ht & _).
  destruct (decide (i = j)) as [->|Hne]; [done|].
  destruct (Hr i Hi) as [Hndi Hsi]. destruct (Hr j Hj) as [Hndj Hsj].
  destruct (implicit_entries timestep (calc_weights m) i) as [Hin Hout];
    rewrite ?Ht; try done.
  destruct (implicit_entries timestep (calc_weights m) j) as [Hin' Hout'];
    rewrite ?Ht; try done.
  rewrite Ht in Hin, Hout, Hin', Hout'. fold A in Hin, Hout, Hin', Hout'.
  destruct (decide (j ∈ vertices (topo m) i)) as [Hji|Hji].
  - apply list_elem_of_fmap in Hji as (h & -> & Hh).
    destruct (Hp i h Hi Hh) as (h' & Hh' & Hto & He).
    rewrite (Hin h Hh). rewrite <- Hto at 1. rewrite (Hin' h' Hh').
    by rewrite He.
  - rewrite (Hout j) by done. rewrite (Hout' i); [done | done |].
    intros Hij. apply Hji. by apply (paired_neighbours (topo m) j i).
Qed.

Lemma fan_paired : paired fan.
Proof.
  intros i h Hi Hh. exists (if Nat.even h then h + 1 else h - 1).
  simpl in Hi.
  do 4 (destruct i as [|i];
        [apply list_elem_of_In in Hh; simpl in Hh;
         destruct Hh as [<-|[<-|[<-|[]]]];
         (split_and!; [compute_done | reflexivity | reflexivity])|]).
  lia.
Qed.

Lemma fan_simple_rings : simple_rings fan.
Proof.
  intros i Hi. simpl in Hi.
  do 4 (destruct i as [|i]; [split; compute_done|]). lia.
Qed.

Lemma implicit_smoothing_symmetric_witness :
  coeff (implicit_setup (dbl 1) (calc_weights pyramid)).2 0 1
  = Some (S754_finite true 5200308821032960 (-52)) /\
  coeff (implicit_setup (dbl 1) (calc_weights pyramid)).2 1 0
  = Some (S754_finite true 5200308821032960 (-52)).
Proof.
  pose proof (implicit_smoothing_symmetric (N := ieee) (dbl 1) pyramid 0 1
                fan_paired fan_simple_rings) as H.
  simpl in H. rewrite <- H by lia.
  split; vm_compute; reflexivity.
Defined.

(** X12. The matrix minimal_surface assembles is symmetric between interior
    vertices and not symmetric at the boundary: for an interior vertex i
    with a boundary neighbour b the entry (i, b) is -cotan of their edge,
    while the entry (b, i) is absent, the row of b being the identity row. *)
Theorem minimal_surface_matrix_shape {N : Numerics}
  (mp : MeshProcessing) (i j : nat) :
  let m := mesh_ mp in
  let w := calc_weights m in
  let A := (minimal_setup w (mesh_init_ mp)).2 in
  paired (topo m) -> simple_rings (topo m) ->
  i < n_vertices (topo m) -> j < n_vertices (topo m) ->
  is_boundary (topo m) i = false ->
  (is_boundary (topo m) j = false -> coeff A i j = coeff A j i) /\
  (is_boundary (topo m) j = true ->
   forall h, h ∈ halfedges (topo m) i -> to_vertex (topo m) h = j ->
     coeff A i j = Some (d_opp (widen (eget "e:weight" (edge (topo m) h) w))) /\
     coeff A j i = None).
Proof.
  intros m w A Hp Hr Hi Hj Hbi.
  destruct (calc_weights_frame m) as (Ht & _). fold w in Ht.
  destruct (Hr i Hi) as [Hndi Hsi]. destruct (Hr j Hj) as [Hndj Hsj].
  destruct (minimal_entries w (mesh_init_ mp) i) as [_ Hint];
    [by rewrite Ht|].
  destruct (minimal_entries w (mesh_init_ mp) j) as [Hbd' Hint'];
    [by rewrite Ht|].
  rewrite Ht in Hint, Hbd', Hint'. fold A in Hint, Hbd', Hint'.
  destruct (Hint Hbi Hndi Hsi) as [Hin Hout].
  split.
  - intros Hbj. destruct (Hint' Hbj Hndj Hsj) as [Hin' Hout'].
    destruct (decide (i = j)) as [->|Hne]; [done|].
    destruct (decide (j ∈ vertices (topo m) i)) as [Hji|Hji].
    + apply list_elem_of_fmap in Hji as (h & -> & Hh).
      destruct (Hp i h Hi Hh) as (h' & Hh' & Hto & He).
      rewrite (Hin h Hh). rewrite <- Hto at 1. rewrite (Hin' h' Hh').
      by rewrite He.
    + rewrite (Hout j) by done. rewrite (Hout' i); [done | done |].
      intros Hij. apply Hji. by apply (paired_neighbours (topo m) j i).
  - intros Hbj h Hh Hto. split.
    + rewrite <- Hto. by apply Hin.
    + apply Hbd'; [done|]. intros ->. congruence.
Qed.

Lemma minimal_surface_matrix_shape_witness :
  coeff (minimal_setup (calc_weights pyramid) pyramid).2 0 1
  = Some (S754_finite true 5200308821032960 (-52)) /\
  coeff (minimal_setup (calc_weights pyramid) pyramid).2 1 0 = None.
Proof.
  destruct (minimal_surface_matrix_shape (N := ieee) pyramid_loaded 0 1
              fan_paired fan_simple_rings) as [_ H].
  { simpl. lia. }
  { simpl. lia. }
  { reflexivity. }
  destruct (H eq_refl 0) as [H1 H2].
  { compute_done. }
  { reflexivity. }
  split.
  - etrans; [exact H1|]. vm_compute. reflexivity.
  - exact H2.
Defined.

(** ** The clean-up of the two solvers *)

Section CleanUp.
Context {N : Numerics} {E : Solvers}.

Lemma calc_edges_weights_others (m : Surface_mesh) (name : string) :
  name <> "e:weight" ->
  escalar (calc_edges_weights m) !! name = escalar m !! name.
Proof.
  intros Hne. unfold calc_edges_weights.
  apply (for_range_preserves (fun s => escalar s !! name = escalar m !! name)).
  - unfold edge_property. destruct (escalar m !! "e:weight"); [done|]. simpl.
    by rewrite lookup_insert_ne.
  - intros k s Hs. unfold calc_edges_weights_body.
    rewrite !add_cotan_others by done. simpl.
    by rewrite lookup_alter_ne.
Qed.

Lemma calc_vertices_weights_others (m : Surface_mesh) (name : string) :
  name <> "v:weight" ->
  vscalar (calc_vertices_weights m) !! name = vscalar m !! name.
Proof.
  intros Hne. unfold calc_vertices_weights.
  apply (for_range_preserves (fun s => vscalar s !! name = vscalar m !! name)).
  - unfold vertex_property. destruct (vscalar m !! "v:weight"); [done|]. simpl.
    by rewrite lookup_insert_ne.
  - intros k s Hs. unfold calc_vertices_weights_body.
    destruct (faces (topo s) k); [done|]. simpl.
    by rewrite lookup_alter_ne.
Qed.

(** Without the two weight attributes, the mesh calc_weights leaves has the
    scalar attributes it had before. *)
Lemma calc_weights_deleted (m : Surface_mesh) :
  delete "v:weight" (vscalar (calc_weights m)) = delete "v:weight" (vscalar m) /\
  delete "e:weight" (escalar (calc_weights m)) = delete "e:weight" (escalar m).
Proof.
  unfold calc_weights.
  destruct (calc_edges_weights_frame m) as (_ & _ & Hs1 & _).
  destruct (calc_vertices_weights_frame (calc_edges_weights m))
    as (_ & _ & He2 & _).
  split; apply map_eq; intros name.
  - destruct (decide (name = "v:weight")) as [->|Hne].
    + by rewrite !lookup_delete_eq.
    + rewrite !lookup_delete_ne by done.
      rewrite calc_vertices_weights_others by done. by rewrite Hs1.
  - destruct (decide (name = "e:weight")) as [->|Hne].
    + by rewrite !lookup_delete_eq.
    + rewrite !lookup_delete_ne by done. rewrite He2.
      by apply calc_edges_weights_others.
Qed.

(** The tail the two solvers share: positions are assigned, then the two
    weight attributes are removed. *)
Lemma solve_tail (f : nat -> Surface_mesh -> Point) (n : nat)
  (m : Surface_mesh) :
  (forall i m1 m2, agree_at i m1 m2 -> f i m1 = f i m2) ->
  let m' := remove_edge_property "e:weight"
              (remove_vertex_property "v:weight"
                 (for_range n (fun i s => set_position i (f i s) s)
                    (calc_weights m))) in
  topo m' = topo m /\ length (vpoint m') = length (vpoint m) /\
  vvector m' = vvector m /\
  vscalar m' = delete "v:weight" (vscalar m) /\
  escalar m' = delete "e:weight" (escalar m).
Proof.
  intros Hf m'. subst m'.
  destruct (set_position_loop f n (calc_weights m) Hf)
    as (Ht & Hv & He & Hvv & Hl & _).
  destruct (calc_weights_frame m) as (Ht' & Hp' & Hvv' & _).
  destruct (calc_weights_deleted m) as [Hd1 Hd2].
  simpl. split_and!; try congruence.
Qed.
End CleanUp.

(** X13. implicit_smoothing and minimal_surface remove the two weight
    attributes before they return, also when the mesh had them before the
    call: afterwards "v:weight" and "e:weight" are absent, and every other
    attribute, the connectivity and the number of positions are as before
    the call. *)
Theorem weights_removed {N : Numerics} {E : Solvers}
  (timestep : Double) (mp : MeshProcessing) :
  let m := mesh_ mp in
  let a := implicit_smoothing timestep m in
  let b := mesh_ (minimal_surface mp).1 in
  (topo a = topo m /\ length (vpoint a) = length (vpoint m) /\
   vvector a = vvector m /\
   vscalar a = delete "v:weight" (vscalar m) /\
   escalar a = delete "e:weight" (escalar m)) /\
  (topo b = topo m /\ length (vpoint b) = length (vpoint m) /\
   vvector b = vvector m /\
   vscalar b = delete "v:weight" (vscalar m) /\
   escalar b = delete "e:weight" (escalar m)) /\
  vscalar a !! "v:weight" = None /\ escalar a !! "e:weight" = None /\
  vscalar b !! "v:weight" = None /\ escalar b !! "e:weight" = None.
Proof.
  intros m a b.
  assert (Ha : topo a = topo m /\ length (vpoint a) = length (vpoint m) /\
               vvector a = vvector m /\
               vscalar a = delete "v:weight" (vscalar m) /\
               escalar a = delete "e:weight" (escalar m)).
  { subst a. unfold implicit_smoothing. rewrite weight_handles.
    destruct (implicit_setup timestep (calc_weights m)) as [B A].
    apply (solve_tail (fun i _ => to_point (X_row _ i))). done. }
  assert (Hb : topo b = topo m /\ length (vpoint b) = length (vpoint m) /\
               vvector b = vvector m /\
               vscalar b = delete "v:weight" (vscalar m) /\
               escalar b = delete "e:weight" (escalar m)).
  { subst b. unfold minimal_surface. fold m. rewrite weight_handles.
    destruct (minimal_setup (calc_weights m) (mesh_init_ mp)) as [[s rhs] L].
    simpl.
    apply (solve_tail (fun i s => blend_point (X_row _ i) (position s i))).
    intros i m1 m2 (_ & _ & _ & _ & Hp). by rewrite Hp. }
  split; [exact Ha|]. split; [exact Hb|]. split_and!.
  - destruct Ha as (_ & _ & _ & -> & _). apply lookup_delete_eq.
  - destruct Ha as (_ & _ & _ & _ & ->). apply lookup_delete_eq.
  - destruct Hb as (_ & _ & _ & -> & _). apply lookup_delete_eq.
  - destruct Hb as (_ & _ & _ & _ & ->). apply lookup_delete_eq.
Qed.


(** ** Colour coding *)

Lemma color_bounds_small (size : nat) (bound : Z) :
  size < 2 ->
  match color_bounds size bound with
  | None => True
  | Some (lo, hi) =>
      (0 <= lo /\ 0 <= hi /\ (Z.of_nat size <= lo \/ Z.of_nat size <= hi))%Z
  end.
Proof.
  intros Hs. unfold color_bounds, uint32.
  destruct (decide (bound mod 2 ^ 32 = 0)%Z) as [|Hb]; [done|].
  assert (Hb' : (0 < bound mod 2 ^ 32)%Z).
  { pose proof (Z.mod_pos_bound bound (2 ^ 32)). lia. }
  destruct size as [|[|size]]; [| |lia].
  - split_and!.
    + apply Z.div_pos; [|done]. apply Z.mod_pos_bound. lia.
    + apply Z.mod_pos_bound. lia.
    + left. apply Z.div_pos; [|done]. apply Z.mod_pos_bound. lia.
  - change ((Z.of_nat 1 - 1) mod 2 ^ 32)%Z with 0%Z.
    rewrite Z.div_0_l by lia.
    split_and!; [lia | done | right; done].
Qed.

Lemma color_bounds_large (size : nat) (bound : Z) :
  2 <= size -> (Z.of_nat size <= 2 ^ 32)%Z -> (3 <= bound < 2 ^ 31)%Z ->
  let lo := ((Z.of_nat size - 1) / bound)%Z in
  let hi := (Z.of_nat size - 2 - lo)%Z in
  color_bounds size bound = Some (lo, hi) /\
  (0 <= lo <= hi)%Z /\ (hi <= Z.of_nat size - 2)%Z.
Proof.
  intros Hs Hmax Hb lo hi. unfold color_bounds, uint32.
  rewrite (Z.mod_small bound) by lia.
  rewrite (Z.mod_small (Z.of_nat size - 1)) by lia.
  destruct (decide (bound = 0%Z)) as [|_]; [lia|].
  assert (Hlo : (0 <= lo)%Z) by (apply Z.div_pos; lia).
  assert (Hdiv : (lo * bound <= Z.of_nat size - 1)%Z).
  { subst lo. rewrite Z.mul_comm. apply Z.mul_div_le. lia. }
  assert (H2 : (2 * lo <= Z.of_nat size - 2)%Z) by nia.
  split_and!; try lia.
  f_equal. f_equal. subst hi. fold lo.
  rewrite Z.mod_small by lia. lia.
Qed.

Section ColorCoding.
Context {N : Numerics} {O : Compare N} {St : Sorting N}.

(** The loop of color_coding: every vertex gets the colour of its value. *)
Lemma color_loop (prop color_prop : string) (lo hi : Scalar)
  (m : Surface_mesh) (a : list Point) (v : nat) :
  vvector m !! color_prop = Some a -> v < length a ->
  v < n_vertices (topo m) ->
  let m' := for_range (n_vertices (topo m))
              (fun v s =>
                 set_color v (value_to_color (vget prop v s) lo hi)
                   color_prop s) m in
  pget color_prop v m' = value_to_color (vget prop v m) lo hi /\
  topo m' = topo m /\ vpoint m' = vpoint m /\ vscalar m' = vscalar m /\
  escalar m' = escalar m.
Proof.
  intros Ha Hv Hn m'. subst m'. unfold set_color.
  destruct (pset_loop color_prop
              (fun v s => value_to_color (vget prop v s) lo hi)
              (n_vertices (topo m)) a m)
    as (Ht & Hp & Hs & He & _ & _ & Hg); [|done|].
  { intros u m1 m2 _ _ Hs _. unfold vget. by rewrite Hs. }
  split_and!; try done. by apply Hg.
Qed.
End ColorCoding.

(** X14. color_coding needs at least two values: with fewer it reads the
    sorted array outside its bounds (with one value at the index 2^32 - 1,
    to which 0 - 1 wraps around).  With two or more values and a bound of
    at least 3 it takes min_value at the index i = (size - 1) / bound and
    max_value at the index size - 2 - i, both inside the array and the first
    not after the second; the largest value, at size - 1, is never taken.
    Every vertex then gets value_to_color of its value. *)
Theorem color_coding_bounds {N : Numerics} {O : Compare N} {St : Sorting N}
  (prop color_prop : string) (bound : Z) (m : Surface_mesh)
  (values : list Scalar) :
  (forall l, length (std_sort l) = length l) ->
  vscalar m !! prop = Some values ->
  (length values < 2 -> color_coding prop color_prop bound m = None) /\
  (2 <= length values -> (Z.of_nat (length values) <= 2 ^ 32)%Z ->
   (3 <= bound < 2 ^ 31)%Z ->
   let lo := Z.to_nat ((Z.of_nat (length values) - 1) / bound) in
   let hi := length values - 2 - lo in
   lo <= hi /\
   exists min_value max_value m',
     std_sort values !! lo = Some min_value /\
     std_sort values !! hi = Some max_value /\
     color_coding prop color_prop bound m = Some m' /\
     forall a v, vvector m !! color_prop = Some a -> v < length a ->
       v < n_vertices (topo m) ->
       pget color_prop v m'
       = value_to_color (vget prop v m) min_value max_value).
Proof.
  intros Hsort Hvalues. split.
  - intros Hsmall. unfold color_coding. rewrite Hvalues. simpl.
    pose proof (color_bounds_small (length values) bound Hsmall) as Hb.
    destruct (color_bounds (length values) bound) as [[lo hi]|]; [|done].
    simpl. destruct Hb as (Hlo & Hhi & [Hout|Hout]).
    + assert (Hn : std_sort values !! Z.to_nat lo = None)
        by (apply lookup_ge_None_2; rewrite Hsort; lia).
      rewrite Hn. reflexivity.
    + assert (Hn : std_sort values !! Z.to_nat hi = None)
        by (apply lookup_ge_None_2; rewrite Hsort; lia).
      rewrite Hn. by destruct (std_sort values !! Z.to_nat lo).
  - intros Hlarge Hmax Hbound lo hi.
    destruct (color_bounds_large (length values) bound Hlarge Hmax Hbound)
      as (Hcb & Hle & Hhi).
    fold lo in Hcb.
    set (zlo := ((Z.of_nat (length values) - 1) / bound)%Z) in *.
    assert (Hlo : lo = Z.to_nat zlo) by done.
    assert (Hhi' : hi = Z.to_nat (Z.of_nat (length values) - 2 - zlo)).
    { subst hi. lia. }
    split; [lia|].
    destruct (lookup_lt_is_Some_2 (std_sort values) lo) as [x Hx].
    { rewrite Hsort. lia. }
    destruct (lookup_lt_is_Some_2 (std_sort values) hi) as [y Hy].
    { rewrite Hsort. lia. }
    exists x, y. eexists. split_and!; [done | done | |].
    + unfold color_coding. rewrite Hvalues. simpl. rewrite Hcb. simpl.
      rewrite <- Hlo, Hx. simpl. rewrite <- Hhi', Hy. simpl. reflexivity.
    + intros a v Ha Hv Hn. by apply (color_loop prop color_prop x y m a v).
Qed.

Lemma insert_sorted_length (x : spec_float) (l : list spec_float) :
  length (insert_sorted x l) = S (length l).
Proof.
  induction l as [|y r IH]; [done|]. simpl.
  destruct (SFltb y x); simpl; by rewrite ?IH.
Qed.

Lemma ieee_sort_length (l : list spec_float) :
  length (@std_sort ieee ieee_sorting l) = length l.
Proof.
  simpl. induction l as [|x l IH]; [done|]. simpl.
  by rewrite insert_sorted_length, IH.
Qed.

Lemma color_coding_bounds_witness :
  exists m',
    @color_coding ieee ieee_compare ieee_sorting
      "v:unicurvature" "v:color_unicurvature" 20 curvature_colors = Some m' /\
    pget "v:color_unicurvature" 0 m' = pt 1 0 0 /\
    py (pget "v:color_unicurvature" 1 m') = S754_nan.
Proof.
  destruct (color_coding_bounds (N := ieee) (O := ieee_compare)
              (St := ieee_sorting) "v:unicurvature" "v:color_unicurvature" 20
              curvature_colors
              [S754_finite false 9686331 (-24); S754_zero false;
               S754_zero false; S754_zero false])
    as [_ H].
  { exact ieee_sort_length. }
  { reflexivity. }
  destruct H as (_ & x & y & m' & Hx & Hy & Hc & Hcol).
  { simpl. lia. }
  { simpl. lia. }
  { lia. }
  vm_compute in Hx. vm_compute in Hy.
  injection Hx as <-. injection Hy as <-.
  exists m'. split; [exact Hc|]. split.
  - rewrite (Hcol (replicate 4 (pt 1 1 1)) 0);
      [reflexivity | reflexivity | simpl; lia | vm_compute; lia].
  - rewrite (Hcol (replicate 4 (pt 1 1 1)) 1);
      [reflexivity | reflexivity | simpl; lia | vm_compute; lia].
Defined.


(** ** Colours in IEEE arithmetic *)

Section NaNs.
Variables prec emax : Z.

Lemma SFadd_nan_l (y : spec_float) : SFadd prec emax S754_nan y = S754_nan.
Proof. done. Qed.

Lemma SFadd_nan_r (x : spec_float) : SFadd prec emax x S754_nan = S754_nan.
Proof. by destruct x. Qed.

Lemma SFsub_nan_l (y : spec_float) : SFsub prec emax S754_nan y = S754_nan.
Proof. done. Qed.

Lemma SFsub_nan_r (x : spec_float) : SFsub prec emax x S754_nan = S754_nan.
Proof. by destruct x. Qed.

Lemma SFmul_nan_r (x : spec_float) : SFmul prec emax x S754_nan = S754_nan.
Proof. by destruct x. Qed.

Lemma SFdiv_nan_l (y : spec_float) : SFdiv prec emax S754_nan y = S754_nan.
Proof. done. Qed.

Lemma SFdiv_nan_r (x : spec_float) : SFdiv prec emax x S754_nan = S754_nan.
Proof. by destruct x. Qed.

Lemma SFsub_diag (s : bool) (m : positive) (e : Z) :
  SFsub prec emax (S754_finite s m e) (S754_finite s m e) = S754_zero false.
Proof.
  unfold SFsub. simpl. rewrite Z.min_id.
  destruct s; simpl; by rewrite Z.sub_diag.
Qed.
End NaNs.

Lemma SFltb_nan_l (y : spec_float) : SFltb S754_nan y = false.
Proof. done. Qed.

Lemma SFltb_nan_r (x : spec_float) : SFltb x S754_nan = false.
Proof. by destruct x. Qed.

Lemma SFleb_nan_l (y : spec_float) : SFleb S754_nan y = false.
Proof. done. Qed.

Lemma SFleb_nan_r (x : spec_float) : SFleb x S754_nan = false.
Proof. by destruct x. Qed.

Lemma is_nan_eq (x : spec_float) : IEEE.is_nan x = true -> x = S754_nan.
Proof. by destruct x. Qed.

(** A stop of the colour scale is NaN when one of the bounds is. *)
Lemma color_stop_nan (k : Q) (lo hi : spec_float) :
  IEEE.is_nan lo || IEEE.is_nan hi = true ->
  @color_stop ieee k lo hi = S754_nan.
Proof.
  intros H. unfold color_stop.
  cbn [ieee widen narrow d_add d_mul d_div d_const s_sub].
  apply orb_true_iff in H as [H|H]; apply is_nan_eq in H; subst.
  - reflexivity.
  - rewrite SFsub_nan_l. cbn [IEEE.round].
    by rewrite SFmul_nan_r, SFadd_nan_r.
Qed.

(** X15. A NaN is not caught by value_to_color: when the value or one of
    the two bounds is NaN, every comparison fails and the colour is
    (1, NaN, 0). *)
Theorem value_to_color_nan (value min_value max_value : spec_float) :
  IEEE.is_nan value || (IEEE.is_nan min_value || IEEE.is_nan max_value) = true ->
  @value_to_color ieee ieee_compare value min_value max_value
  = @mkPoint ieee (S754_finite false 8388608 (-23)) S754_nan (S754_zero false).
Proof.
  intros H. unfold value_to_color.
  cbn [ieee ieee_compare s_ltb s_leb s_sub s_div s_of_nat].
  apply orb_true_iff in H as [H|H].
  - apply is_nan_eq in H. subst value.
    rewrite SFltb_nan_l, SFltb_nan_r, !SFleb_nan_l, SFsub_nan_l, SFdiv_nan_l,
      SFsub_nan_r.
    reflexivity.
  - rewrite !(color_stop_nan _ _ _ H).
    rewrite !SFltb_nan_r, !SFleb_nan_r, SFltb_nan_l, SFsub_nan_r, SFdiv_nan_l,
      SFsub_nan_r.
    reflexivity.
Qed.

Lemma value_to_color_nan_witness :
  @value_to_color ieee ieee_compare S754_nan (dbl 0) (dbl 1)
  = @mkPoint ieee (S754_finite false 8388608 (-23)) S754_nan (S754_zero false).
Proof.
  apply value_to_color_nan. reflexivity.
Defined.

Lemma SFleb_refl_finite (x : spec_float) :
  IEEE.is_finite x = true -> SFleb x x = true.
Proof.
  unfold SFleb. destruct x as [s|s| |s m e]; simpl; try done.
  intros _. destruct s; rewrite Z.compare_refl, Pos.compare_cont_refl; done.
Qed.

Lemma SFltb_irrefl (x : spec_float) : SFltb x x = false.
Proof.
  unfold SFltb. destruct x as [s|s| |s m e]; simpl; try done.
  - by destruct s.
  - destruct s; rewrite Z.compare_refl, Pos.compare_cont_refl; done.
Qed.

(** When the two bounds are one float, every stop of the scale is that
    float. *)
Lemma color_stop_constant (k : Q) (s : bool) (m : positive) (e : Z) :
  let x := S754_finite s m e in
  SFmul 53 1024 (SFdiv 53 1024 (IEEE.of_Q 53 1024 k) (IEEE.of_Q 53 1024 4))
    (S754_zero false) = S754_zero false ->
  IEEE.round 24 128 (IEEE.round 53 1024 x) = x ->
  @color_stop ieee k x x = x.
Proof.
  intros x Hk Hx. unfold color_stop.
  cbn [ieee widen narrow d_add d_mul d_div d_const s_sub].
  subst x. rewrite SFsub_diag.
  change (IEEE.round 53 1024 (S754_zero false)) with (S754_zero false).
  rewrite Hk.
  destruct (IEEE.round 53 1024 (S754_finite s m e)) as [s'|s'| |s' m' e'] eqn:Hw;
    try discriminate Hx.
  exact Hx.
Qed.

(** X16. When min_value and max_value are the same finite number, a value
    equal to them is neither below nor above the scale, and its colour is
    computed as 0/0: it is (0, NaN, 1). *)
Theorem value_to_color_constant (x : spec_float) :
  IEEE.is_finite x = true ->
  IEEE.round 24 128 (IEEE.round 53 1024 x) = x ->
  @value_to_color ieee ieee_compare x x x
  = @mkPoint ieee (S754_zero false) S754_nan (S754_finite false 8388608 (-23)).
Proof.
  intros Hfin Hx. destruct x as [s|s| |s m e]; try discriminate Hfin.
  - destruct s; reflexivity.
  - unfold value_to_color.
    rewrite !color_stop_constant by (done || reflexivity).
    cbn [ieee ieee_compare s_ltb s_leb s_sub s_div s_of_nat].
    rewrite SFltb_irrefl, SFleb_refl_finite by done.
    rewrite SFsub_diag. reflexivity.
Qed.

Lemma value_to_color_constant_witness :
  @value_to_color ieee ieee_compare (IEEE.of_Q 24 128 6) (IEEE.of_Q 24 128 6)
    (IEEE.of_Q 24 128 6)
  = @mkPoint ieee (S754_zero false) S754_nan (S754_finite false 8388608 (-23)).
Proof.
  apply value_to_color_constant; reflexivity.
Defined.

(** ** Colours over the real numbers *)

Lemma unit_fraction (a d : R) :
  (0 <= a <= d)%R -> (0 < d)%R -> (0 <= a / d <= 1)%R.
Proof.
  intros [Ha Hd] Hpos. split.
  - apply Rmult_le_pos; [done|]. left. by apply Rinv_0_lt_compat.
  - apply (Rmult_le_reg_r d); [done|].
    unfold Rdiv. rewrite Rmult_assoc, Rinv_l by lra. lra.
Qed.

Lemma reals_color_stop (k : Z) (lo hi : R) :
  @color_stop reals (inject_Z k) lo hi = (lo + IZR k / 4 * (hi - lo))%R.
Proof.
  unfold color_stop. simpl. unfold Q2R. simpl. f_equal. f_equal.
  rewrite Rinv_1. lra.
Qed.

(** X17. In exact arithmetic and for min_value < max_value, every
    component of the colour lies between 0 and 1; a value at or below
    min_value is blue (0, 0, 1) and a value at or above max_value is red
    (1, 0, 0). *)
Theorem value_to_color_range (value min_value max_value : R) :
  (min_value < max_value)%R ->
  let c := @value_to_color reals reals_compare value min_value max_value in
  (0 <= px c <= 1)%R /\ (0 <= py c <= 1)%R /\ (0 <= pz c <= 1)%R /\
  ((value <= min_value)%R -> c = @mkPoint reals 0%R 0%R 1%R) /\
  ((max_value <= value)%R -> c = @mkPoint reals 1%R 0%R 0%R).
Proof.
  intros Hlt c. subst c. unfold value_to_color.
  change (0 : Q) with (inject_Z 0). change (1 : Q) with (inject_Z 1).
  change (2 : Q) with (inject_Z 2). change (3 : Q) with (inject_Z 3).
  change (4 : Q) with (inject_Z 4).
  rewrite !reals_color_stop.
  cbn [reals reals_compare s_ltb s_leb s_sub s_div s_of_nat INR].
  unfold Rltb.
  destruct (Rlt_dec value _) as [H0|H0].
  { simpl. split_and!; try lra; try done. }
  destruct (Rlt_dec _ value) as [H4|H4].
  { simpl. split_and!; try lra; try done. }
  destruct (Rle_dec value _) as [H2|H2].
  - destruct (Rle_dec value _) as [H1|H1]; simpl.
    + match goal with |- context [(?a / ?d)%R] =>
        pose proof (unit_fraction a d) as Hu; set (u := (a / d)%R) in * end.
      assert (Hz : (value <= min_value)%R -> u = 0%R).
      { intros Hv. subst u. replace value with min_value by lra.
        unfold Rdiv. ring_simplify. lra. }
      split_and!; try lra.
      intros Hv. rewrite (Hz Hv). f_equal; lra.
    + match goal with |- context [(?a / ?d)%R] =>
        pose proof (unit_fraction a d) as Hu; set (u := (a / d)%R) in * end.
      split_and!; lra.
  - destruct (Rle_dec value _) as [H3|H3]; simpl.
    + match goal with |- context [(?a / ?d)%R] =>
        pose proof (unit_fraction a d) as Hu; set (u := (a / d)%R) in * end.
      split_and!; lra.
    + match goal with |- context [(?a / ?d)%R] =>
        pose proof (unit_fraction a d) as Hu; set (u := (a / d)%R) in * end.
      assert (Hz : (max_value <= value)%R -> u = 1%R).
      { intros Hv. subst u. replace value with max_value by lra.
        field. lra. }
      split_and!; try lra.
      intros Hv. rewrite (Hz Hv). f_equal; lra.
Qed.

Lemma value_to_color_range_witness :
  @value_to_color reals reals_compare 0%R 0%R 1%R = @mkPoint reals 0%R 0%R 1%R /\
  (0 <= py (@value_to_color reals reals_compare (1 / 3)%R 0%R 1%R) <= 1)%R.
Proof.
  destruct (value_to_color_range 0%R 0%R 1%R) as (_ & _ & _ & H & _); [lra|].
  destruct (value_to_color_range (1 / 3)%R 0%R 1%R) as (_ & H' & _); [lra|].
  split; [apply H; lra | exact H'].
Defined.

(** ** get_closest_vertex *)

Section Closest.
Context {N : Numerics} {Eg : Eigen3 N} {Lt : LtOrder N}.

(** The state of the loop of get_closest_vertex after [k] vertices. *)
Lemma get_closest_vertex_loop (ray_origin direction : Point)
  (m : Surface_mesh) (k : nat) :
  let dist v := ray_distance ray_origin direction (position m v) in
  let st := for_range k
     (fun v '(min_distance, closest_vertex) =>
        let point := position m v in
        let distance := ray_distance ray_origin direction point in
        if s_ltb distance min_distance then (distance, Some point)
        else (min_distance, closest_vertex))
     (s_const FLT_MAX, None) in
  match st.2 with
  | None =>
      st.1 = s_const FLT_MAX /\
      forall u, u < k -> s_ltb (dist u) (s_const FLT_MAX) = false
  | Some p =>
      exists v, v < k /\ p = position m v /\ st.1 = dist v /\
        s_ltb (dist v) (s_const FLT_MAX) = true /\
        forall u, u < k -> s_ltb (dist u) (dist v) = false
  end.
Proof.
  intros dist. induction k as [|k IH]; intros st.
  - simpl. split; [done|]. intros u Hu. lia.
  - subst st. rewrite for_range_S.
    set (st := for_range k _ _) in *. simpl in IH.
    destruct st as [dmin best]. simpl in IH. simpl.
    fold (dist k).
    destruct (s_ltb (dist k) dmin) eqn:Hlt; simpl.
    + exists k. split_and!; try done; [lia| |].
      * destruct best as [p|].
        -- destruct IH as (v & Hv & -> & -> & Hmax & Hmin).
           by apply (ltb_trans _ (dist v)).
        -- destruct IH as [-> _]. done.
      * intros u Hu. destruct (decide (u = k)) as [->|Hne].
        { apply ltb_irrefl. }
        destruct (s_ltb (dist u) (dist k)) eqn:Hu'; [|done].
        assert (Hcon : s_ltb (dist u) dmin = true)
          by (by apply (ltb_trans _ (dist k))).
        destruct best as [p|].
        -- destruct IH as (v & Hv & -> & -> & Hmax & Hmin).
           rewrite Hmin in Hcon by lia. done.
        -- destruct IH as [-> Hall]. rewrite Hall in Hcon by lia. done.
    + destruct best as [p|].
      * destruct IH as (v & Hv & -> & -> & Hmax & Hmin).
        exists v. split_and!; try done; [lia|].
        intros u Hu. destruct (decide (u = k)) as [->|Hne]; [done|].
        apply Hmin. lia.
      * destruct IH as [-> Hall]. split; [done|].
        intros u Hu. destruct (decide (u = k)) as [->|Hne]; [done|].
        apply Hall. lia.
Qed.
End Closest.

Lemma SFltb_trans (x y z : spec_float) :
  SFltb x y = true -> SFltb y z = true -> SFltb x z = true.
Proof.
  unfold SFltb, SFcompare.
  destruct x as [sx|sx| |sx mx ex], y as [sy|sy| |sy my ey],
    z as [sz|sz| |sz mz ez]; try done;
    try (destruct sx, sy, sz; done);
    try (destruct sx, sy; done); try (destruct sy, sz; done);
    try (destruct sx, sz; done).
  all: destruct sx, sy, sz; try done.
  all: destruct (Z.compare_spec ex ey), (Z.compare_spec ey ez),
         (Z.compare_spec ex ez); try done; try lia.
  all: subst.
  all: rewrite ?Pos.compare_cont_spec; simpl;
       destruct (Pos.compare_spec mx my), (Pos.compare_spec my mz),
         (Pos.compare_spec mx mz); simpl; try done; try lia.
Qed.

Lemma ieee_lt_order : LtOrder ieee.
Proof. split; [exact SFltb_irrefl | exact SFltb_trans]. Qed.

Lemma reals_lt_order : LtOrder reals.
Proof.
  split; simpl; unfold Rltb.
  - intros x. destruct (Rlt_dec x x); [lra | done].
  - intros x y z. destruct (Rlt_dec x y), (Rlt_dec y z), (Rlt_dec x z);
      try done. lra.
Qed.

(** X18. get_closest_vertex returns the position of a vertex whose
    distance to the ray is below FLT_MAX and not above the distance of any
    other vertex; when no vertex is nearer than FLT_MAX (a mesh without
    vertices, or distances that are all NaN or infinite) its result is
    never assigned. *)
Theorem get_closest_vertex_nearest {N : Numerics} {Eg : Eigen3 N}
  (ray_origin direction : Point) (m : Surface_mesh) :
  LtOrder N ->
  let dist v := ray_distance ray_origin direction (position m v) in
  match get_closest_vertex ray_origin direction m with
  | None =>
      forall u, u < n_vertices (topo m) ->
        s_ltb (dist u) (s_const FLT_MAX) = false
  | Some p =>
      exists v, v < n_vertices (topo m) /\ p = position m v /\
        s_ltb (dist v) (s_const FLT_MAX) = true /\
        forall u, u < n_vertices (topo m) -> s_ltb (dist u) (dist v) = false
  end.
Proof.
  intros Lt dist. unfold get_closest_vertex.
  pose proof (get_closest_vertex_loop ray_origin direction m
                (n_vertices (topo m))) as H.
  simpl in H.
  destruct (for_range _ _ _) as [dmin [p|]]; simpl in *.
  - destruct H as (v & Hv & Hp & _ & Hmax & Hmin). by exists v.
  - by destruct H.
Qed.

Lemma get_closest_vertex_nearest_witness :
  @get_closest_vertex ieee eigen_left (pt 0 0 0) (pt 1 0 0) pyramid
  = Some (pt 1 0 0) /\
  exists v, v < 4 /\ pt 1 0 0 = position pyramid v /\
    forall u, u < 4 ->
      SFltb (@ray_distance ieee eigen_left (pt 0 0 0) (pt 1 0 0)
               (position pyramid u))
            (@ray_distance ieee eigen_left (pt 0 0 0) (pt 1 0 0)
               (position pyramid v)) = false.
Proof.
  pose proof (get_closest_vertex_nearest (N := ieee) (Eg := eigen_left)
                (pt 0 0 0) (pt 1 0 0) pyramid ieee_lt_order) as H.
  assert (Hc : @get_closest_vertex ieee eigen_left (pt 0 0 0) (pt 1 0 0) pyramid
               = Some (pt 1 0 0)) by reflexivity.
  rewrite Hc in H. split; [exact Hc|].
  destruct H as (v & Hv & Hp & _ & Hmin). exists v. split_and!; done.
Defined.

(** ** The area printed by minimal_surface *)

Lemma area_sum_not_finite (w : nat -> spec_float) (n v : nat) :
  v < n -> (exists s, w v = S754_zero s) ->
  IEEE.is_finite
    (for_range n
       (fun i a => SFadd 53 1024 a
                     (SFdiv 53 1024 (IEEE.of_Q 53 1024 1) (w i)))
       (IEEE.of_Q 53 1024 0)) = false.
Proof.
  intros Hv [s Hs]. induction n as [|n IH]; [lia|].
  rewrite for_range_S.
  destruct (decide (v = n)) as [->|Hne].
  - apply SFadd_not_finite_r. rewrite Hs. apply SFdiv_zero_not_finite.
  - apply SFadd_not_finite_l. apply IH. lia.
Qed.

Lemma round_zero (prec emax : Z) (x : spec_float) :
  (exists s, x = S754_zero s) -> exists s, IEEE.round prec emax x = S754_zero s.
Proof. intros [s ->]. by exists s. Qed.

(** X19. minimal_surface prints, before anything else, the sum over all
    vertices of 1 / vertex weight.  In IEEE arithmetic this sum is infinite
    or NaN as soon as one vertex has the weight 0, which is what a vertex
    without faces keeps: nothing guards the division. *)
Theorem minimal_surface_area_sum {E : @Solvers ieee}
  (mp : @MeshProcessing ieee) (v : nat) :
  v < n_vertices (topo (mesh_ mp)) ->
  (exists s, vget "v:weight" v (calc_weights (mesh_ mp)) = S754_zero s) ->
  exists area_sum rest,
    (minimal_surface mp).2 = Sum_of_area area_sum :: rest /\
    area_sum
    = for_range (n_vertices (topo (mesh_ mp)))
        (fun i a =>
           SFadd 53 1024 a
             (SFdiv 53 1024 (dbl 1)
                (IEEE.round 53 1024
                   (vget "v:weight" i (calc_weights (mesh_ mp))))))
        (dbl 0) /\
    IEEE.is_finite area_sum = false.
Proof.
  intros Hv Hz. unfold minimal_surface. rewrite weight_handles.
  destruct (calc_weights_frame (mesh_ mp)) as (Ht & _).
  unfold minimal_setup. rewrite Ht.
  rewrite (setup_fold3
    (fun i a => d_add a (d_div (d_const 1)
                  (widen (vget "v:weight" i (calc_weights (mesh_ mp))))))
    (minimal_rhs_row (calc_weights (mesh_ mp)) (mesh_init_ mp))
    (minimal_lhs_row (calc_weights (mesh_ mp)))) by done.
  cbv zeta.
  assert (Hinf : IEEE.is_finite
            (for_range (n_vertices (topo (mesh_ mp)))
               (fun i a =>
                  SFadd 53 1024 a
                    (SFdiv 53 1024 (dbl 1)
                       (IEEE.round 53 1024
                          (vget "v:weight" i (calc_weights (mesh_ mp))))))
               (dbl 0)) = false).
  { apply (area_sum_not_finite
             (fun i => IEEE.round 53 1024
                         (vget "v:weight" i (calc_weights (mesh_ mp))))
             _ v Hv).
    by apply round_zero. }
  destruct (info_compute _), (info_solve _); cbn [snd fst];
    eexists; eexists; (split_and!; [reflexivity | reflexivity | exact Hinf]).
Qed.

Lemma minimal_surface_area_sum_witness :
  exists rest,
    (minimal_surface (E := identity_solver)
       {| mesh_ := right_triangle_and_point;
          mesh_init_ := right_triangle_and_point |}).2
    = @Sum_of_area ieee (S754_infinity false) :: rest.
Proof.
  destruct (minimal_surface_area_sum (E := identity_solver)
              {| mesh_ := right_triangle_and_point;
                 mesh_init_ := right_triangle_and_point |} 3)
    as (a & rest & Hout & Ha & _).
  { simpl. lia. }
  { exists false. vm_compute. reflexivity. }
  exists rest. rewrite Hout, Ha. reflexivity.
Defined.

(** ** load_mesh: the radius *)

(** X20. load_mesh leaves in dist_max_ either 0 or the distance of a vertex
    to the centre, and no vertex is farther from the centre than
    dist_max_. *)
Theorem dist_max_bounds {N : Numerics} (m : Surface_mesh) :
  LtOrder N ->
  let d v := distance (mesh_center_ m) (position m v) in
  (dist_max_ m = s_const 0 \/
   exists v, v < n_vertices (topo m) /\ dist_max_ m = d v) /\
  forall u, u < n_vertices (topo m) -> s_ltb (dist_max_ m) (d u) = false.
Proof.
  intros Lt d. unfold dist_max_. fold d.
  apply (for_range_ind (fun k x =>
    (x = s_const 0 \/ exists v, v < k /\ x = d v) /\
    forall u, u < k -> s_ltb x (d u) = false)).
  - split; [by left|]. intros u Hu. lia.
  - intros k x Hk [Hx Hall]. fold (d k).
    destruct (s_ltb x (d k)) eqn:Hlt.
    + split; [right; exists k; split; [lia | done]|].
      intros u Hu. destruct (decide (u = k)) as [->|Hne]; [apply ltb_irrefl|].
      destruct (s_ltb (d k) (d u)) eqn:Hu'; [|done].
      rewrite <- (Hall u) by lia. symmetry. by apply (ltb_trans _ (d k)).
    + split.
      * destruct Hx as [Hx|(v & Hv & Hx)]; [by left|].
        right. exists v. split; [lia | done].
      * intros u Hu. destruct (decide (u = k)) as [->|Hne]; [done|].
        apply Hall. lia.
Qed.

Lemma dist_max_bounds_witness :
  dist_max_ pyramid = S754_finite false 14529495 (-24) /\
  SFltb (dist_max_ pyramid) (distance (mesh_center_ pyramid) (position pyramid 0))
  = false.
Proof.
  destruct (dist_max_bounds (N := ieee) pyramid ieee_lt_order) as [_ H].
  split.
  - vm_compute. reflexivity.
  - apply (H 0). simpl. lia.
Defined.

(** ** uniform_smooth over the real numbers *)

Lemma displacement_sum_coord (f : @Point reals -> R) (m : @Surface_mesh reals)
  (v : nat) :
  (forall a b, f (@vadd reals a b) = (f a + f b)%R) ->
  (forall a b, f (@vsub reals a b) = (f a - f b)%R) ->
  f (Point1 (@narrow reals (@d_const reals 0))) = 0%R ->
  f (displacement_sum m v)
  = (fold_right Rplus 0%R
       ((fun vv => f (position m vv)) <$> vertices (topo m) v)
     - INR (length (vertices (topo m) v)) * f (position m v))%R.
Proof.
  intros Hadd Hsub Hzero. unfold displacement_sum, for_each.
  enough (H : forall l acc,
    f (fold_left (fun s x => @vadd reals s (@vsub reals (position m x) (position m v)))
         l acc)
    = (f acc + fold_right Rplus 0%R ((fun vv => f (position m vv)) <$> l)
       - INR (length l) * f (position m v))%R).
  { rewrite H, Hzero. lra. }
  induction l as [|x l IH]; intros acc.
  - simpl. lra.
  - cbn [fold_left fmap list_fmap fold_right length]. rewrite IH, Hadd, Hsub.
    rewrite S_INR. simpl. lra.
Qed.

(** X21. In exact arithmetic an iteration of uniform_smooth moves every
    interior vertex halfway to the centroid of its neighbours, as they were
    before the iteration. *)
Theorem uniform_smooth_halfway (m : @Surface_mesh reals) (k v : nat) :
  length (vpoint m) = n_vertices (topo m) ->
  (forall a, vvector m !! "v:new_positions" = Some a ->
     length a = n_vertices (topo m)) ->
  v < n_vertices (topo m) ->
  is_boundary (topo m) v = false ->
  vertices (topo m) v <> [] ->
  let old := uniform_smooth k m in
  position (uniform_smooth (S k) m) v
  = midpoint (position old v) (centroid old v).
Proof.
  intros Hlen Hattr Hv Hb Hring old.
  destruct (uniform_smooth_frame k m Hlen Hattr) as (Hs & _). fold old in Hs.
  assert (Ht : topo old = topo m) by apply Hs.
  destruct (uniform_smooth_iter_full old) as (_ & _ & _ & _ & Hpos).
  { by rewrite Ht. }
  change (uniform_smooth (S k) m) with (uniform_smooth_iter old).
  rewrite Hpos by (by rewrite Ht).
  rewrite uniform_laplacian_eq, Ht, Hb.
  assert (Hn : (0 < INR (length (vertices (topo m) v)))%R).
  { apply lt_0_INR. destruct (vertices (topo m) v); [done | simpl; lia]. }
  unfold midpoint, centroid, vadd, vscale, vdiv.
  cbn [px py pz]. rewrite Ht.
  rewrite (displacement_sum_coord px), (displacement_sum_coord py),
    (displacement_sum_coord pz); try done;
    try (simpl; unfold Q2R; simpl; lra).
  rewrite Ht. simpl. unfold Q2R. simpl.
  f_equal;
    (match goal with |- @eq _ ?a ?b => change (@eq R a b) end; field; lra).
Qed.

Lemma uniform_smooth_halfway_witness :
  position (uniform_smooth 1 real_pyramid) 0
  = @mkPoint reals (2 / 3)%R (2 / 3)%R (2 / 3)%R.
Proof.
  rewrite (uniform_smooth_halfway real_pyramid 0 0).
  - unfold midpoint, centroid, uniform_smooth, vertex_property_point.
    cbn [Nat.iter real_pyramid loaded vvector]. rewrite lookup_empty. simpl.
    f_equal;
      (match goal with |- @eq _ ?a ?b => change (@eq R a b) end; field).
  - reflexivity.
  - intros a Ha. simpl in Ha. by rewrite lookup_empty in Ha.
  - simpl. lia.
  - reflexivity.
  - discriminate.
Defined.

(** ** minimal_surface and the boundary *)

(** X22. When the solver returns, for a boundary vertex, the right-hand
    side of its identity row (what every solution of the system has), that
    vertex is blended with its position in the copy made at load time, not
    with its current position: in an arithmetic where the blend and the
    conversion to double and back are exact, minimal_surface puts every
    boundary vertex back where it was when the mesh was loaded. *)
Theorem minimal_surface_pins_boundary {N : Numerics} {E : Solvers}
  (mp : MeshProcessing) (b : nat) :
  length (vpoint (mesh_ mp)) = n_vertices (topo (mesh_ mp)) ->
  b < n_vertices (topo (mesh_ mp)) ->
  is_boundary (topo (mesh_ mp)) b = true ->
  let m := mesh_ mp in
  let w := calc_weights m in
  let rhs := (minimal_setup w (mesh_init_ mp)).1.2 in
  let L := (minimal_setup w (mesh_init_ mp)).2 in
  let X := solution (SparseLU (n_vertices (topo m)) L rhs) in
  let p0 := position (mesh_init_ mp) b in
  X !! b = rhs !! b ->
  position (mesh_ (minimal_surface mp).1) b
  = blend_point (widen (px p0), widen (py p0), widen (pz p0)) (position m b) /\
  (BlendExact N -> (forall x : Scalar, narrow (widen x) = x) ->
   position (mesh_ (minimal_surface mp).1) b = p0).
Proof.
  intros Hlen Hb Hbd m w rhs L X p0 HX.
  destruct (calc_weights_frame m) as (Ht & _). fold w in Ht.
  destruct (minimal_surface_positions mp b Hlen Hb) as [Hpos _].
  fold m w in Hpos. fold rhs L in Hpos. fold X in Hpos.
  assert (Hrow : X_row X b = (widen (px p0), widen (py p0), widen (pz p0))).
  { unfold X_row. rewrite HX. subst rhs.
    rewrite (proj1 (minimal_setup_eq w (mesh_init_ mp))), Ht.
    rewrite list_lookup_fmap, lookup_seq_lt by done. simpl.
    unfold minimal_rhs_row. rewrite Ht. fold m in Hbd. by rewrite Hbd. }
  rewrite Hpos, Hrow. split; [done|].
  intros B R. unfold blend_point. simpl. rewrite !blend_exact, !R.
  by destruct p0.
Qed.

Lemma minimal_surface_pins_boundary_witness :
  position (mesh_ (minimal_surface (E := identity_solver) moved_boundary).1) 1
  = @mkPoint reals 1%R 0%R 0%R.
Proof.
  destruct (minimal_surface_pins_boundary (N := reals) (E := identity_solver)
              moved_boundary 1) as [_ H].
  - reflexivity.
  - simpl. lia.
  - reflexivity.
  - reflexivity.
  - apply H; [exact reals_blend_exact | done].
Defined.


(** ** Degenerate geometry is not guarded *)







